(** * SwiftLabel front end (src/swiftlabel/static/app.js): the client replica

    A shallow embedding of the [SwiftLabelApp] class: the optimistic local
    mirror of the session, the WebSocket life cycle with its reconnection
    backoff, the image prefetch cache, the keyboard dispatch with the [gg]
    combo, and the preview/confirm/commit overlay.

    The JavaScript object [this] becomes the record [App]; every method is a
    command [Cmd] that transforms a [World] (the application, the browser's
    pending timers and requests, and the history of effects) and may end in
    a JavaScript exception. *)

From stdpp Require Import gmap strings list.
From Stdlib Require Import ZArith Lia Ascii.

#[local] Set Warnings "-clear-no-such-hyp".

Local Open Scope string_scope.
Local Open Scope list_scope.
Local Open Scope Z_scope.

(** ** JavaScript values used by the replica *)

(** [string | null], and [undefined] when an array is read off its end. *)
Inductive jsstr :=
| JUndefined
| JNull
| JStr (s : string).

(** [arr[i]]: [undefined] (here [None]) outside [0 .. length-1]. *)
Definition js_index {A} (arr : list A) (i : Z) : option A :=
  if i <? 0 then None else arr !! Z.to_nat i.

Definition js_length {A} (arr : list A) : Z := Z.of_nat (length arr).

(** [s.lastIndexOf(c)]: the last position of [c], or [-1]. *)
Fixpoint lastIndexOf_from (c : ascii) (s : string) (pos best : Z) : Z :=
  match s with
  | EmptyString => best
  | String a s' =>
      lastIndexOf_from c s' (pos + 1) (if Ascii.eqb a c then pos else best)
  end.

Definition lastIndexOf (c : ascii) (s : string) : Z :=
  lastIndexOf_from c s 0 (-1).

(** [s.substring(0, e)]: a negative [e] counts as [0], a large one as the
    length. *)
Definition substring0 (s : string) (e : Z) : string :=
  String.substring 0 (Z.to_nat e) s.

(** [id.substring(0, id.lastIndexOf('/')) || '']: the folder part of an
    image identifier ([''] is the only falsy string, so [|| ''] changes
    nothing). *)
Definition parentFolder (ident : string) : string :=
  substring0 ident (lastIndexOf "/"%char ident).

(** ** Type definitions (the JSDoc typedefs) *)

(** Image objects live in a store and are shared by reference:
    [this.currentImage] is normally the very object that sits in
    [this.session.images]. *)
Definition loc := nat.

Record ImageInfo := {
  id : string;
  filename : string;
  label : option Z;              (* number | null *)
  class_name : jsstr;
  marked_for_deletion : bool
}.

Global Instance ImageInfo_inhabited : Inhabited ImageInfo :=
  populate {| id := ""; filename := ""; label := None;
              class_name := JNull; marked_for_deletion := false |}.

(** The fields of [SessionState] that the front end reads or writes
    ([version], [working_directory], [staged_changes] and [undo_stack] are
    never touched by app.js). *)
Record SessionState := {
  classes : list string;
  images : list loc;
  current_index : Z
}.

Record PreviewSummary := {
  total_changes : Z;
  moves : list string;
  deletes : list string;
  warnings : list string
}.

Record Subfolder := {
  path : string;
  name : string;
  image_count : Z
}.

(** Messages of the client-to-server direction of the socket. *)
Inductive WSMessage :=
| MsgLabel (image_id : string) (class_index : Z)
| MsgDelete (image_id : string)
| MsgUndo
| MsgNavigate (index : Z)
| MsgSync.

(** Payloads of the server-to-client direction. *)
Record LabeledPayload := {
  lp_image_id : string;
  lp_class_index : option Z;
  lp_class_name : jsstr
}.

Record DeletedPayload := {
  dp_image_id : string
}.

(** ** CONFIG *)

Module CONFIG.
Definition PREFETCH_COUNT : Z := 3.
Definition CACHE_MAX_SIZE : nat := 10.
Definition WS_RECONNECT_DELAYS : list Z :=
  [1000; 2000; 4000; 8000; 16000; 30000].
Definition WS_HEARTBEAT_INTERVAL : Z := 30000.
Definition DOUBLE_KEY_TIMEOUT : Z := 300.
End CONFIG.

(** ** The application object

    The fields of [this], grouped as the constructor groups them. *)

(** STATE: the session mirror.  [objs] is the store of image objects;
    [session.images] and [currentImage] hold references into it.  A
    reference is never dangling in JavaScript; [objs !!! l] reads a
    default object for the states of the model that have no JavaScript
    counterpart. *)
Record Replica := {
  objs : gmap loc ImageInfo;
  session : option SessionState;
  currentImage : option loc       (* null, or falsy [undefined] *)
}.

(** IMAGE CACHE: a JavaScript [Map] keeps its keys in insertion order, so
    it is a list of bindings, oldest first, with no key twice; a [Set]
    that is never iterated is a finite set.  The cached value is the
    [Image] element, named by the id it was created for. *)
Record Cache := {
  imageCache : list (string * string);
  prefetchingImages : gset string
}.

Inductive ReadyState := CONNECTING | OPEN | CLOSING | CLOSED.

Record WebSocket := {
  sock : nat;
  readyState : ReadyState
}.

Definition TimerId := nat.

(** WEBSOCKET, with the [hidden] attribute of the connection-status
    element that [showConnectionStatus]/[hideConnectionStatus] write. *)
Record Conn := {
  ws : option WebSocket;
  wsReconnectAttempt : Z;
  wsReconnectTimeout : option TimerId;
  wsHeartbeatInterval : option TimerId;
  connectionStatus_hidden : bool
}.

Inductive Overlay := help | stats | commit.

Global Instance Overlay_eq_dec : EqDecision Overlay.
Proof. solve_decision. Defined.

(** UI STATE and change tracking. *)
Record Ui := {
  activeOverlay : option Overlay;
  commitPreview : option PreviewSummary;
  userChangesCount : Z;
  hasChanges : bool
}.

(** KEYBOARD STATE. *)
Record Keys := {
  filterMode : bool;
  lastKey : option string;
  keyComboTimeout : option TimerId
}.

(** FOLDER NAVIGATION. *)
Record Folders := {
  currentFolder : string;
  subfolders : list Subfolder;
  hasFolders : bool
}.

Record App := {
  replica : Replica;
  cache : Cache;
  conn : Conn;
  ui : Ui;
  keys : Keys;
  folders : Folders
}.

(** *** Field assignment *)

Definition upd_replica (f : Replica -> Replica) (a : App) : App :=
  {| replica := f (replica a); cache := cache a; conn := conn a;
     ui := ui a; keys := keys a; folders := folders a |}.
Definition upd_cache (f : Cache -> Cache) (a : App) : App :=
  {| replica := replica a; cache := f (cache a); conn := conn a;
     ui := ui a; keys := keys a; folders := folders a |}.
Definition upd_conn (f : Conn -> Conn) (a : App) : App :=
  {| replica := replica a; cache := cache a; conn := f (conn a);
     ui := ui a; keys := keys a; folders := folders a |}.
Definition upd_ui (f : Ui -> Ui) (a : App) : App :=
  {| replica := replica a; cache := cache a; conn := conn a;
     ui := f (ui a); keys := keys a; folders := folders a |}.
Definition upd_keys (f : Keys -> Keys) (a : App) : App :=
  {| replica := replica a; cache := cache a; conn := conn a;
     ui := ui a; keys := f (keys a); folders := folders a |}.
Definition upd_folders (f : Folders -> Folders) (a : App) : App :=
  {| replica := replica a; cache := cache a; conn := conn a;
     ui := ui a; keys := keys a; folders := f (folders a) |}.

Definition set_objs (v : gmap loc ImageInfo) (r : Replica) : Replica :=
  {| objs := v; session := session r; currentImage := currentImage r |}.
Definition set_session (v : option SessionState) (r : Replica) : Replica :=
  {| objs := objs r; session := v; currentImage := currentImage r |}.
Definition set_currentImage (v : option loc) (r : Replica) : Replica :=
  {| objs := objs r; session := session r; currentImage := v |}.

Definition set_current_index (v : Z) (s : SessionState) : SessionState :=
  {| classes := classes s; images := images s; current_index := v |}.
Definition set_images (v : list loc) (s : SessionState) : SessionState :=
  {| classes := classes s; images := v; current_index := current_index s |}.

Definition set_label (v : option Z) (i : ImageInfo) : ImageInfo :=
  {| id := id i; filename := filename i; label := v;
     class_name := class_name i;
     marked_for_deletion := marked_for_deletion i |}.
Definition set_class_name (v : jsstr) (i : ImageInfo) : ImageInfo :=
  {| id := id i; filename := filename i; label := label i;
     class_name := v; marked_for_deletion := marked_for_deletion i |}.
Definition set_marked_for_deletion (v : bool) (i : ImageInfo) : ImageInfo :=
  {| id := id i; filename := filename i; label := label i;
     class_name := class_name i; marked_for_deletion := v |}.

Definition set_imageCache (v : list (string * string)) (c : Cache) : Cache :=
  {| imageCache := v; prefetchingImages := prefetchingImages c |}.
Definition set_prefetchingImages (v : gset string) (c : Cache) : Cache :=
  {| imageCache := imageCache c; prefetchingImages := v |}.

Definition set_ws (v : option WebSocket) (c : Conn) : Conn :=
  {| ws := v; wsReconnectAttempt := wsReconnectAttempt c;
     wsReconnectTimeout := wsReconnectTimeout c;
     wsHeartbeatInterval := wsHeartbeatInterval c;
     connectionStatus_hidden := connectionStatus_hidden c |}.
Definition set_wsReconnectAttempt (v : Z) (c : Conn) : Conn :=
  {| ws := ws c; wsReconnectAttempt := v;
     wsReconnectTimeout := wsReconnectTimeout c;
     wsHeartbeatInterval := wsHeartbeatInterval c;
     connectionStatus_hidden := connectionStatus_hidden c |}.
Definition set_wsReconnectTimeout (v : option TimerId) (c : Conn) : Conn :=
  {| ws := ws c; wsReconnectAttempt := wsReconnectAttempt c;
     wsReconnectTimeout := v;
     wsHeartbeatInterval := wsHeartbeatInterval c;
     connectionStatus_hidden := connectionStatus_hidden c |}.
Definition set_wsHeartbeatInterval (v : option TimerId) (c : Conn) : Conn :=
  {| ws := ws c; wsReconnectAttempt := wsReconnectAttempt c;
     wsReconnectTimeout := wsReconnectTimeout c;
     wsHeartbeatInterval := v;
     connectionStatus_hidden := connectionStatus_hidden c |}.
Definition set_connectionStatus_hidden (v : bool) (c : Conn) : Conn :=
  {| ws := ws c; wsReconnectAttempt := wsReconnectAttempt c;
     wsReconnectTimeout := wsReconnectTimeout c;
     wsHeartbeatInterval := wsHeartbeatInterval c;
     connectionStatus_hidden := v |}.

Definition set_activeOverlay (v : option Overlay) (u : Ui) : Ui :=
  {| activeOverlay := v; commitPreview := commitPreview u;
     userChangesCount := userChangesCount u; hasChanges := hasChanges u |}.
Definition set_commitPreview (v : option PreviewSummary) (u : Ui) : Ui :=
  {| activeOverlay := activeOverlay u; commitPreview := v;
     userChangesCount := userChangesCount u; hasChanges := hasChanges u |}.
Definition set_changes (n : Z) (b : bool) (u : Ui) : Ui :=
  {| activeOverlay := activeOverlay u; commitPreview := commitPreview u;
     userChangesCount := n; hasChanges := b |}.

Definition set_filterMode (v : bool) (k : Keys) : Keys :=
  {| filterMode := v; lastKey := lastKey k;
     keyComboTimeout := keyComboTimeout k |}.
Definition set_lastKey (v : option string) (k : Keys) : Keys :=
  {| filterMode := filterMode k; lastKey := v;
     keyComboTimeout := keyComboTimeout k |}.
Definition set_keyComboTimeout (v : option TimerId) (k : Keys) : Keys :=
  {| filterMode := filterMode k; lastKey := lastKey k;
     keyComboTimeout := v |}.

(** ** The browser around the application *)

Inductive Method := GET | POST.

Inductive JsError :=
| TypeError (what : string)        (* property read on null/undefined *)
| ApiError (message : string).     (* thrown by [api] on a failed reply *)

(** [showToast] messages, by the place that raises them. *)
Inductive Toast :=
| ToastClassNotDefined (n : Z)
| ToastNoChanges
| ToastPreviewFailed
| ToastCommitting
| ToastCommitFailed (message : string)
| ToastCommitted (moves_count deletes_count : Z) (with_errors : bool)
| ToastUndid (undone_action image_id : string)
| ToastNoUnlabeled
| ToastFilterMode
| ToastFilterCleared
| ToastFilter (className : string)
| ToastServerError (message : string).

(** What [displayCurrentImage] assigns to [dom.currentImage.src]. *)
Inductive DisplaySrc :=
| SrcEmpty                      (* '' : there is no current image *)
| SrcCached (imageId : string)  (* the [src] of the cached element *)
| SrcUrl (imageId : string).    (* [getImageUrl(imageId)]: the visible element
                                   loads the image itself *)

(** Writes of the rendering layer to the document; the document is
    assumed to hold every element that [cacheDOM] looks up.  A timer whose
    callback only edits the document (the end of a button flash, the fade
    of a toast, the end of the image's entering transition) belongs to the
    write that starts it. *)
Inductive Render :=
| RCurrentImage (src : DisplaySrc)
| RImageInfo
| RProgress
| RClassButtonStates
| RDeletedOverlay
| RCommitButton
| RFlashClass (classIndex : Z)
| RFlashDelete
| RFlashUndo
| RCommitModal
| RStats
| RFolderNav
| ROverlayShown (o : Overlay)
| ROverlayHidden (o : Overlay).

Inductive Console :=
| CWsCannotSend
| CWsConnected
| CWsDisconnected
| CWsReconnecting (delay attempt : Z)
| CWsError
| CWsConnectionFailed
| CWsUnknownType (type : string)
| CWsParseFailed (e : JsError)
| CServerError
| CSessionLoaded
| CSubfoldersFailed
| CFolderContextFailed
| CChangeCountFailed
| CStatsFailed
| CNavigateFolderFailed.

Inductive Effect :=
| EvSend (m : WSMessage)                     (* ws.send(JSON.stringify m) *)
| EvFetch (m : Method) (endpoint : string) (body : option string)
| EvImageSrc (imageId : string)              (* img.src = url *)
| EvToast (t : Toast)
| EvRender (r : Render)
| EvConsole (c : Console)
| EvPreventDefault
| EvUnhandledRejection (e : JsError)     (* a rejected promise nobody awaits *)
| EvUncaughtError (e : JsError).         (* an exception leaving an event handler *)

(** Callbacks handed to [setTimeout] and [setInterval]. *)
Inductive Callback :=
| CbKeyCombo       (* () => { this.lastKey = null } *)
| CbReconnect      (* () => { this.wsReconnectAttempt++; this.connectWebSocket() } *)
| CbHeartbeat.     (* () => { if open, send sync } *)

Record Timer := {
  tid : TimerId;
  delay : Z;
  callback : Callback;
  repeating : bool
}.

(** The rest of an [async] method that waits at an [await]. *)
Inductive Kont :=
| KChangeCount              (* updateChangeCount, after api('/changes/count') *)
| KPreview                  (* getCommitPreview, after api('/changes/preview') *)
| KShowCommitModal          (* showCommitModal, after getCommitPreview() *)
| KCommit                   (* confirmCommit, after executeCommit() *)
| KStats                    (* toggleStats, after loadStats() *)
| KFolderContext            (* updateFolderContext, after the POST *)
| KSubfolders               (* loadSubfolders, after api('/subfolders') *)
| KReloadSession            (* handleChangesCommitted, after loadSession() *)
| KNavigateFolder (folderPath : string)            (* navigateToFolder, after the POST *)
| KNavigateFolderSession (folderPath : string)     (* ... after loadSession() *)
| KNavigateFolderSubfolders (folderPath : string)  (* ... after loadSubfolders() *)
| KImage (imageId : string). (* onload / onerror of a prefetch [Image] *)

(** The application, what the browser holds for it, and the history of
    its effects; each effect is kept with the application state at the
    moment it happened, so that "before" and "after" can be stated. *)
Record World := {
  app : App;
  timers : list Timer;
  next_timer : TimerId;
  pending : list Kont;
  ws_constructible : bool;    (* whether [new WebSocket(CONFIG.WS_URL)] succeeds *)
  next_sock : nat;
  trace : list (Effect * App)
}.

Definition upd_app (f : App -> App) (w : World) : World :=
  {| app := f (app w); timers := timers w; next_timer := next_timer w;
     pending := pending w; ws_constructible := ws_constructible w;
     next_sock := next_sock w; trace := trace w |}.
Definition set_timers (v : list Timer) (n : TimerId) (w : World) : World :=
  {| app := app w; timers := v; next_timer := n;
     pending := pending w; ws_constructible := ws_constructible w;
     next_sock := next_sock w; trace := trace w |}.
Definition set_pending (v : list Kont) (w : World) : World :=
  {| app := app w; timers := timers w; next_timer := next_timer w;
     pending := v; ws_constructible := ws_constructible w;
     next_sock := next_sock w; trace := trace w |}.
Definition set_next_sock (v : nat) (w : World) : World :=
  {| app := app w; timers := timers w; next_timer := next_timer w;
     pending := pending w; ws_constructible := ws_constructible w;
     next_sock := v; trace := trace w |}.
Definition set_trace (v : list (Effect * App)) (w : World) : World :=
  {| app := app w; timers := timers w; next_timer := next_timer w;
     pending := pending w; ws_constructible := ws_constructible w;
     next_sock := next_sock w; trace := v |}.

(** ** Commands *)

Inductive Outcome :=
| Done (w : World)
| Threw (e : JsError) (w : World).

Definition Cmd := World -> Outcome.

(** The world a command leaves behind, whether it returned or threw. *)
Definition world_of (o : Outcome) : World :=
  match o with Done w => w | Threw _ w => w end.

Definition skip : Cmd := Done.
Definition throw (e : JsError) : Cmd := Threw e.

Definition seq (c1 c2 : Cmd) : Cmd := fun w =>
  match c1 w with
  | Done w' => c2 w'
  | Threw e w' => Threw e w'
  end.
Declare Scope cmd_scope.
Notation "c1 ;; c2" := (seq c1 c2) : cmd_scope.
Local Open Scope cmd_scope.

(** Read [this]. *)
Definition get (k : App -> Cmd) : Cmd := fun w => k (app w) w.

(** Assign fields of [this]. *)
Definition modify (f : App -> App) : Cmd := fun w => Done (upd_app f w).

Definition emit (e : Effect) : Cmd := fun w =>
  Done (set_trace (trace w ++ [(e, app w)]) w).

(** [try { c } catch (error) { h error }] *)
Definition try_catch (c : Cmd) (h : JsError -> Cmd) : Cmd := fun w =>
  match c w with
  | Done w' => Done w'
  | Threw e w' => h e w'
  end.

(** Calling an [async] method without [await]: the call returns a promise
    at the first [await] or at the end, and an exception inside becomes a
    rejection that nobody handles. *)
Definition async (c : Cmd) : Cmd :=
  try_catch c (fun e => emit (EvUnhandledRejection e)).

(** Park the rest of an [async] method until its [await] settles. *)
Definition await (k : Kont) : Cmd := fun w =>
  Done (set_pending (pending w ++ [k]) w).

(** [this.session.<field>] for a session that must be there: reading a
    field of [null] throws. *)
Definition with_session (k : SessionState -> Cmd) : Cmd :=
  get (fun this =>
    match session (replica this) with
    | Some s => k s
    | None => throw (TypeError "this.session is null")
    end).

(** [setTimeout(cb, ms)] / [setInterval(cb, ms)]: the browser hands out a
    fresh positive id. *)
Definition setTimer (rep : bool) (cb : Callback) (ms : Z)
    (k : TimerId -> Cmd) : Cmd := fun w =>
  let t := next_timer w in
  k t (set_timers
         (timers w ++ [{| tid := t; delay := ms; callback := cb;
                          repeating := rep |}])
         (S t) w).
Definition setTimeout := setTimer false.
Definition setInterval := setTimer true.

(** [clearTimeout(id)] / [clearInterval(id)]; an unknown, [null] or already
    fired id is ignored. *)
Definition clearTimer (t : option TimerId) : Cmd := fun w =>
  match t with
  | Some t =>
      Done (set_timers
              (List.filter (fun x => negb (Nat.eqb (tid x) t)) (timers w))
              (next_timer w) w)
  | None => Done w
  end.

(** [for (const x of xs) body(x)] *)
Fixpoint for_each {A} (xs : list A) (body : A -> Cmd) : Cmd :=
  match xs with
  | [] => skip
  | x :: xs' => body x ;; for_each xs' body
  end.

(** ** The insertion-ordered [Map] of the image cache *)

(** The [Map] operations on the insertion-ordered bindings. *)
Definition map_has (k : string) (m : list (string * string)) : bool :=
  existsb (fun b => String.eqb (fst b) k) m.

Fixpoint map_set (k v : string) (m : list (string * string))
    : list (string * string) :=
  match m with
  | [] => [(k, v)]
  | b :: m' =>
      if String.eqb (fst b) k then (k, v) :: m' else b :: map_set k v m'
  end.

Fixpoint map_delete (k : string) (m : list (string * string))
    : list (string * string) :=
  match m with
  | [] => []
  | b :: m' => if String.eqb (fst b) k then m' else b :: map_delete k m'
  end.

(** [m.keys().next().value] *)
Definition map_first_key (m : list (string * string)) : option string :=
  match m with
  | [] => None
  | b :: _ => Some (fst b)
  end.

(** ** Toasts, rendering, the socket's send *)

Definition showToast (t : Toast) : Cmd := emit (EvToast t).

Definition displayCurrentImage : Cmd :=
  get (fun this =>
    match currentImage (replica this) with
    | None => emit (EvRender (RCurrentImage SrcEmpty))
    | Some l =>
        let imageId := id (objs (replica this) !!! l) in
        (* check cache first *)
        if map_has imageId (imageCache (cache this)) then
          emit (EvRender (RCurrentImage (SrcCached imageId)))
        else
          (* load image *)
          emit (EvRender (RCurrentImage (SrcUrl imageId)))
    end).

(** With a current image, the position in the folder is computed from
    [this.session.images]. *)
Definition updateImageInfo : Cmd :=
  get (fun this =>
    match currentImage (replica this) with
    | None => emit (EvRender RImageInfo)
    | Some _ => with_session (fun _ => emit (EvRender RImageInfo))
    end).

Definition updateProgress : Cmd :=
  get (fun this =>
    match session (replica this) with
    | None => skip
    | Some _ => emit (EvRender RProgress)
    end).

Definition updateClassButtonStates : Cmd := emit (EvRender RClassButtonStates).
Definition updateDeletedOverlay : Cmd := emit (EvRender RDeletedOverlay).
Definition updateCommitButton : Cmd := emit (EvRender RCommitButton).
Definition updateCommitCount : Cmd := updateCommitButton.

Definition updateUI : Cmd :=
  displayCurrentImage ;; updateImageInfo ;; updateProgress ;;
  updateClassButtonStates ;; updateDeletedOverlay ;; updateCommitCount.

Definition flashButton (r : Render) : Cmd := emit (EvRender r).

Definition ws_is_open (this : App) : bool :=
  match ws (conn this) with
  | Some {| readyState := OPEN |} => true
  | _ => false
  end.

Definition sendWebSocketMessage (message : WSMessage) : Cmd :=
  get (fun this =>
    if ws_is_open this then emit (EvSend message)
    else emit (EvConsole CWsCannotSend)).

(** [async updateChangeCount]: up to its [await this.api(...)]; [api]
    starts the [fetch] before it first waits. *)
Definition updateChangeCount : Cmd :=
  async (emit (EvFetch GET "/changes/count" None) ;; await KChangeCount).

Definition updateFolderContext (folderPath : string) : Cmd :=
  async (emit (EvFetch POST "/navigate/folder" (Some folderPath)) ;;
         await KFolderContext).

(** ** Image prefetching *)

(** The [while] loop of [cleanImageCache], for at most [fuel] rounds;
    [None] when the rounds run out before the loop ends.  Deleting the key
    [undefined] of an empty map would leave the map as it is. *)
Fixpoint cleanImageCache_loop (fuel : nat) (m : list (string * string))
    : option (list (string * string)) :=
  match fuel with
  | O => None
  | S fuel' =>
      if (CONFIG.CACHE_MAX_SIZE <? length m)%nat then
        match map_first_key m with
        | Some oldestKey => cleanImageCache_loop fuel' (map_delete oldestKey m)
        | None => cleanImageCache_loop fuel' m
        end
      else Some m
  end.

(** One round per binding is enough (lemma [cleanImageCache_loop_enough]
    below), so the second branch is never taken. *)
Definition cleanImageCache : Cmd :=
  get (fun this =>
    let m := imageCache (cache this) in
    match cleanImageCache_loop (S (length m)) m with
    | Some m' => modify (upd_cache (set_imageCache m'))
    | None => skip
    end).

Definition prefetchImage (imageId : string) : Cmd :=
  get (fun this =>
    if map_has imageId (imageCache (cache this))
       || bool_decide (imageId ∈ prefetchingImages (cache this))
    then skip
    else
      modify (upd_cache (fun c =>
        set_prefetchingImages ({[imageId]} ∪ prefetchingImages c) c)) ;;
      await (KImage imageId) ;;
      emit (EvImageSrc imageId)).

(** [this.prefetchImage(this.session.images[index].id)] *)
Definition prefetchImageAt (index : Z) : Cmd :=
  with_session (fun s =>
    get (fun this =>
      match js_index (images s) index with
      | Some l => prefetchImage (id (objs (replica this) !!! l))
      | None => throw (TypeError "this.session.images[index] is undefined")
      end)).

Definition prefetchImages : Cmd :=
  get (fun this =>
    match session (replica this) with
    | None => skip
    | Some s =>
        if js_length (images s) =? 0 then skip
        else
          let currentIndex := current_index s in
          for_each (seqZ 1 CONFIG.PREFETCH_COUNT) (fun i =>
            let index := currentIndex + i in
            if index <? js_length (images s) then prefetchImageAt index
            else skip) ;;
          (if 0 <? currentIndex then prefetchImageAt (currentIndex - 1)
           else skip) ;;
          cleanImageCache
    end).

(** [img.onload] and [img.onerror] of a prefetch. *)
Definition image_onload (imageId : string) : Cmd :=
  modify (upd_cache (fun c =>
    set_prefetchingImages (prefetchingImages c ∖ {[imageId]})
      (set_imageCache (map_set imageId imageId (imageCache c)) c))).

Definition image_onerror (imageId : string) : Cmd :=
  modify (upd_cache (fun c =>
    set_prefetchingImages (prefetchingImages c ∖ {[imageId]}) c)).

(** ** Navigation *)

Definition navigateToIndex (index : Z) : Cmd :=
  get (fun this =>
    match session (replica this) with
    | None => skip
    | Some s =>
        if (index <? 0) || (js_length (images s) <=? index) then skip
        else
          let oldImage := currentImage (replica this) in
          let newImage := js_index (images s) index in
          let newFolder :=
            match oldImage, newImage with
            | Some o, Some n =>
                let oldFolder := parentFolder (id (objs (replica this) !!! o)) in
                let newFolder := parentFolder (id (objs (replica this) !!! n)) in
                if String.eqb oldFolder newFolder then None else Some newFolder
            | _, _ => None
            end in
          modify (upd_replica (fun r =>
            set_currentImage newImage
              (set_session (Some (set_current_index index s)) r))) ;;
          updateUI ;;
          prefetchImages ;;
          match newFolder with
          | Some f => updateFolderContext f
          | None => skip
          end ;;
          sendWebSocketMessage (MsgNavigate index)
    end).

Definition navigateNext : Cmd :=
  get (fun this =>
    match session (replica this) with
    | None => skip
    | Some s =>
        if js_length (images s) =? 0 then skip
        else
          let nextIndex :=
            Z.min (current_index s + 1) (js_length (images s) - 1) in
          if nextIndex =? current_index s then skip
          else navigateToIndex nextIndex
    end).

Definition navigatePrevious : Cmd :=
  get (fun this =>
    match session (replica this) with
    | None => skip
    | Some s =>
        if js_length (images s) =? 0 then skip
        else
          let prevIndex := Z.max (current_index s - 1) 0 in
          if prevIndex =? current_index s then skip
          else navigateToIndex prevIndex
    end).

(** ** Optimistic mutations *)

(** Assignments to the fields of the image object at [l]. *)
Definition assign (l : loc) (f : ImageInfo -> ImageInfo) : Cmd :=
  modify (upd_replica (fun r => set_objs (alter f l (objs r)) r)).

Definition labelImage (classIndex : Z) : Cmd :=
  async (get (fun this =>
    match currentImage (replica this) with
    | None => skip
    | Some l =>
        let imageId := id (objs (replica this) !!! l) in
        with_session (fun s =>
          let className :=
            match js_index (classes s) classIndex with
            | Some c => JStr c
            | None => JUndefined
            end in
          (* optimistic update *)
          assign l (fun img =>
            set_marked_for_deletion false
              (set_class_name className (set_label (Some classIndex) img))) ;;
          updateImageInfo ;;
          updateClassButtonStates ;;
          flashButton (RFlashClass classIndex) ;;
          (* advance to next image immediately *)
          navigateNext ;;
          (* send to server in background (don't await) *)
          sendWebSocketMessage (MsgLabel imageId classIndex))
    end)).

Definition deleteImage : Cmd :=
  async (get (fun this =>
    match currentImage (replica this) with
    | None => skip
    | Some l =>
        let imageId := id (objs (replica this) !!! l) in
        assign l (fun img =>
          set_class_name JNull
            (set_label None (set_marked_for_deletion true img))) ;;
        updateImageInfo ;;
        updateDeletedOverlay ;;
        flashButton RFlashDelete ;;
        navigateNext ;;
        sendWebSocketMessage (MsgDelete imageId)
    end)).

Definition undoAction : Cmd :=
  async (flashButton RFlashUndo ;; sendWebSocketMessage MsgUndo).

(** ** Reconciliation with the server's broadcasts *)

(** [images.find(img => img.id === image_id)] *)
Definition find_image (o : gmap loc ImageInfo) (imgs : list loc)
    (image_id : string) : option loc :=
  List.find (fun l => String.eqb (id (o !!! l)) image_id) imgs.

Definition handleImageLabeled (payload : LabeledPayload) : Cmd :=
  with_session (fun s =>
    get (fun this =>
      match find_image (objs (replica this)) (images s) (lp_image_id payload) with
      | Some l =>
          assign l (fun img =>
            set_marked_for_deletion false
              (set_class_name (lp_class_name payload)
                 (set_label (lp_class_index payload) img)))
      | None => skip
      end) ;;
    updateProgress ;;
    updateChangeCount).

Definition handleImageDeleted (payload : DeletedPayload) : Cmd :=
  with_session (fun s =>
    get (fun this =>
      match find_image (objs (replica this)) (images s) (dp_image_id payload) with
      | Some l =>
          assign l (fun img =>
            set_class_name JNull
              (set_label None (set_marked_for_deletion true img)))
      | None => skip
      end) ;;
    updateProgress ;;
    updateChangeCount).

(** ** Class keys *)

Definition handleClassKey (keyNumber : Z) : Cmd :=
  with_session (fun s =>
    let classIndex :=
      if keyNumber =? 0 then Z.min 9 (js_length (classes s) - 1)
      else keyNumber - 1 in
    if js_length (classes s) <=? classIndex then
      showToast (ToastClassNotDefined (classIndex + 1))
    else labelImage classIndex).

(** ** Folder-relative jumps and the [gg] combo *)

(** The first index of [idxs] whose image satisfies [test]; reading
    [images[i]] outside the array gives [undefined], whose fields cannot
    be read. *)
Inductive Scan :=
| ScanFound (i : Z)
| ScanThrow
| ScanNone.

Fixpoint scan (o : gmap loc ImageInfo) (imgs : list loc)
    (test : ImageInfo -> bool) (idxs : list Z) : Scan :=
  match idxs with
  | [] => ScanNone
  | i :: idxs' =>
      match js_index imgs i with
      | None => ScanThrow
      | Some l => if test (o !!! l) then ScanFound i else scan o imgs test idxs'
      end
  end.

Definition navigateToScan (r : Scan) (otherwise : Cmd) : Cmd :=
  match r with
  | ScanFound i => navigateToIndex i
  | ScanThrow => throw (TypeError "this.session.images[i] is undefined")
  | ScanNone => otherwise
  end.

Definition sameFolder (parent : string) (img : ImageInfo) : bool :=
  String.eqb (parentFolder (id img)) parent.

Definition navigateToFirstInFolder : Cmd :=
  get (fun this =>
    match currentImage (replica this) with
    | None => skip
    | Some c =>
        let parent := parentFolder (id (objs (replica this) !!! c)) in
        with_session (fun s =>
          navigateToScan
            (scan (objs (replica this)) (images s) (sameFolder parent)
               (seqZ 0 (js_length (images s))))
            skip)
    end).

Definition navigateToLastInFolder : Cmd :=
  get (fun this =>
    match currentImage (replica this) with
    | None => skip
    | Some c =>
        let parent := parentFolder (id (objs (replica this) !!! c)) in
        with_session (fun s =>
          navigateToScan
            (scan (objs (replica this)) (images s) (sameFolder parent)
               (reverse (seqZ 0 (js_length (images s)))))
            skip)
    end).

Definition unlabeled (img : ImageInfo) : bool :=
  match label img with
  | None => negb (marked_for_deletion img)
  | Some _ => false
  end.

Definition navigateToNextUnlabeled : Cmd :=
  get (fun this =>
    match session (replica this) with
    | None => skip
    | Some s =>
        let n := js_length (images s) in
        let ci := current_index s in
        navigateToScan
          (scan (objs (replica this)) (images s) unlabeled
             (seqZ (ci + 1) (n - (ci + 1)) ++ seqZ 0 ci))
          (showToast ToastNoUnlabeled)
    end).

Definition handleGKey : Cmd :=
  get (fun this =>
    match lastKey (keys this) with
    | Some "g" =>
        (* gg combo - go to first image in current folder *)
        clearTimer (keyComboTimeout (keys this)) ;;
        modify (upd_keys (set_lastKey None)) ;;
        navigateToFirstInFolder
    | _ =>
        (* start combo timer *)
        modify (upd_keys (set_lastKey (Some "g"))) ;;
        setTimeout CbKeyCombo CONFIG.DOUBLE_KEY_TIMEOUT (fun t =>
          modify (upd_keys (set_keyComboTimeout (Some t))))
    end).

(** ** Filtering *)

Definition applyFilter (classIndex : option Z) : Cmd :=
  match classIndex with
  | Some 0 => showToast ToastFilterCleared
  | Some n =>
      with_session (fun s =>
        match js_index (classes s) (n - 1) with
        | Some c => if String.eqb c "" then skip else showToast (ToastFilter c)
        | None => skip
        end)
  | None =>
      (* NaN: the lookup classes[NaN] is undefined *)
      with_session (fun _ => skip)
  end.

(** ** Overlays *)

Definition closeOverlay : Cmd :=
  get (fun this =>
    match activeOverlay (ui this) with
    | None => skip
    | Some o =>
        emit (EvRender (ROverlayHidden o)) ;;
        modify (upd_ui (set_activeOverlay None))
    end).

Definition openOverlay (overlayName : Overlay) : Cmd :=
  closeOverlay ;;
  modify (upd_ui (set_activeOverlay (Some overlayName))) ;;
  emit (EvRender (ROverlayShown overlayName)).

Definition toggleHelp : Cmd :=
  get (fun this =>
    match activeOverlay (ui this) with
    | Some help => closeOverlay
    | _ => openOverlay help
    end).

(** [async toggleStats], up to [await this.loadStats()]. *)
Definition toggleStats : Cmd :=
  async (get (fun this =>
    match activeOverlay (ui this) with
    | Some stats => closeOverlay
    | _ => emit (EvFetch GET "/stats" None) ;; await KStats
    end)).

(** [async showCommitModal], up to [await this.getCommitPreview()], which
    itself runs up to [await this.api('/changes/preview')]. *)
Definition showCommitModal : Cmd :=
  async (emit (EvFetch GET "/changes/preview" None) ;; await KPreview).

(** [async executeCommit]: starts the POST. *)
Definition executeCommit : Cmd :=
  emit (EvFetch POST "/changes/commit" None).

(** [async confirmCommit], up to [await this.executeCommit()]. *)
Definition confirmCommit : Cmd :=
  async (get (fun this =>
    match activeOverlay (ui this) with
    | Some commit =>
        showToast ToastCommitting ;; executeCommit ;; await KCommit
    | _ => skip
    end)).

(** ** Loading the session *)

(** The session as the server serialises it; parsing the reply creates a
    new object for every image. *)
Record SessionData := {
  sd_classes : list string;
  sd_images : list ImageInfo;
  sd_current_index : Z
}.

Definition alloc (img : ImageInfo) (o : gmap loc ImageInfo)
    : gmap loc ImageInfo * loc :=
  let l := fresh (dom o) in (<[l := img]> o, l).

Fixpoint alloc_all (imgs : list ImageInfo) (o : gmap loc ImageInfo)
    : gmap loc ImageInfo * list loc :=
  match imgs with
  | [] => (o, [])
  | img :: rest =>
      let '(o1, l) := alloc img o in
      let '(o2, ls) := alloc_all rest o1 in
      (o2, l :: ls)
  end.

(** [loadSession], from the point where the reply of [api('/session')] is
    assigned. *)
Definition loadSession_assign (data : SessionData) : Cmd :=
  modify (upd_replica (fun r =>
    let '(o, ls) := alloc_all (sd_images data) (objs r) in
    let s := {| classes := sd_classes data; images := ls;
                current_index := sd_current_index data |} in
    let r' := set_session (Some s) (set_objs o r) in
    if 0 <? js_length ls
    then set_currentImage (js_index ls (sd_current_index data)) r'
    else r')).

(** ** The other broadcasts *)

Record StateUpdatePayload := {
  su_current_index : Z;
  su_current_image : option ImageInfo
}.

(** [images.findIndex(p)], [-1] when there is none. *)
Fixpoint findIndex_from {A} (p : A -> bool) (xs : list A) (i : Z) : Z :=
  match xs with
  | [] => -1
  | x :: xs' => if p x then i else findIndex_from p xs' (i + 1)
  end.
Definition findIndex {A} (p : A -> bool) (xs : list A) : Z :=
  findIndex_from p xs 0.

Definition handleStateUpdate (payload : StateUpdatePayload) : Cmd :=
  with_session (fun s =>
    modify (upd_replica
      (set_session (Some (set_current_index (su_current_index payload) s)))) ;;
    match su_current_image payload with
    | Some img =>
        modify (upd_replica (fun r =>
          let '(o, l) := alloc img (objs r) in
          let index :=
            findIndex (fun x => String.eqb (id (objs r !!! x)) (id img))
              (images s) in
          let s' := set_current_index (su_current_index payload) s in
          let s'' :=
            if index =? -1 then s'
            else set_images (<[Z.to_nat index := l]> (images s)) s' in
          set_currentImage (Some l) (set_session (Some s'') (set_objs o r))))
    | None => skip
    end ;;
    updateUI ;;
    prefetchImages).

(** [restored_state]: the fields that [Object.assign] copies, each present
    or not. *)
Record RestoredState := {
  rs_label : option (option Z);
  rs_class_name : option jsstr;
  rs_marked_for_deletion : option bool
}.

Record UndoPayload := {
  up_image_id : string;
  up_restored_state : option RestoredState;
  up_undone_action : string
}.

Definition object_assign (rs : RestoredState) (img : ImageInfo) : ImageInfo :=
  let img1 := match rs_label rs with Some v => set_label v img | None => img end in
  let img2 := match rs_class_name rs with
              | Some v => set_class_name v img1 | None => img1 end in
  match rs_marked_for_deletion rs with
  | Some v => set_marked_for_deletion v img2
  | None => img2
  end.

Definition handleUndoCompleted (payload : UndoPayload) : Cmd :=
  with_session (fun s =>
    get (fun this =>
      match find_image (objs (replica this)) (images s) (up_image_id payload),
            up_restored_state payload with
      | Some l, Some rs => assign l (object_assign rs)
      | _, _ => skip
      end) ;;
    get (fun this =>
      let index :=
        findIndex
          (fun x => String.eqb (id (objs (replica this) !!! x))
                      (up_image_id payload))
          (images s) in
      if index =? -1 then skip else navigateToIndex index) ;;
    showToast (ToastUndid (up_undone_action payload) (up_image_id payload)) ;;
    updateUI ;;
    updateChangeCount).

Record CommitPayload := {
  cp_moves_count : Z;
  cp_deletes_count : Z;
  cp_errors : list string
}.

Definition handleChangesCommitted (payload : CommitPayload) : Cmd :=
  (* this.loadSession().then(...) *)
  async (emit (EvFetch GET "/session" None) ;; await KReloadSession) ;;
  showToast (ToastCommitted (cp_moves_count payload) (cp_deletes_count payload)
               (0 <? js_length (cp_errors payload))) ;;
  closeOverlay.

Definition handleServerError (message : option string) : Cmd :=
  emit (EvConsole CServerError) ;;
  showToast (ToastServerError
    (match message with
     | Some m => if String.eqb m "" then "An error occurred" else m
     | None => "An error occurred"
     end)).

(** A received frame, as [JSON.parse] and the [switch] on [message.type]
    see it. *)
Inductive ServerMessage :=
| SStateUpdate (payload : StateUpdatePayload)
| SImageLabeled (payload : LabeledPayload)
| SImageDeleted (payload : DeletedPayload)
| SUndoCompleted (payload : UndoPayload)
| SChangesCommitted (payload : CommitPayload)
| SError (message : option string)
| SUnknown (type : string)
| SMalformed.                 (* JSON.parse throws *)

Definition handleWebSocketMessage (event : ServerMessage) : Cmd :=
  try_catch
    match event with
    | SStateUpdate payload => handleStateUpdate payload
    | SImageLabeled payload => handleImageLabeled payload
    | SImageDeleted payload => handleImageDeleted payload
    | SUndoCompleted payload => handleUndoCompleted payload
    | SChangesCommitted payload => handleChangesCommitted payload
    | SError message => handleServerError message
    | SUnknown type => emit (EvConsole (CWsUnknownType type))
    | SMalformed => throw (TypeError "JSON.parse")
    end
    (fun error => emit (EvConsole (CWsParseFailed error))).

(** ** WebSocket client *)

(** Timer ids are positive numbers, and [0] is falsy. *)
Definition truthy (t : option TimerId) : bool :=
  match t with
  | Some (S _) => true
  | _ => false
  end.

Definition showConnectionStatus : Cmd :=
  modify (upd_conn (set_connectionStatus_hidden false)).
Definition hideConnectionStatus : Cmd :=
  modify (upd_conn (set_connectionStatus_hidden true)).

Definition stopHeartbeat : Cmd :=
  get (fun this =>
    if truthy (wsHeartbeatInterval (conn this)) then
      clearTimer (wsHeartbeatInterval (conn this)) ;;
      modify (upd_conn (set_wsHeartbeatInterval None))
    else skip).

Definition startHeartbeat : Cmd :=
  stopHeartbeat ;;
  setInterval CbHeartbeat CONFIG.WS_HEARTBEAT_INTERVAL (fun t =>
    modify (upd_conn (set_wsHeartbeatInterval (Some t)))).

(** [delays[Math.min(attempt, delays.length - 1)]]; [setTimeout] takes a
    missing delay as [0]. *)
Definition reconnect_delay (attempt : Z) : Z :=
  let delays := CONFIG.WS_RECONNECT_DELAYS in
  match js_index delays (Z.min attempt (js_length delays - 1)) with
  | Some d => d
  | None => 0
  end.

Definition scheduleReconnect : Cmd :=
  get (fun this =>
    let delay := reconnect_delay (wsReconnectAttempt (conn this)) in
    showConnectionStatus ;;
    emit (EvConsole
            (CWsReconnecting delay (wsReconnectAttempt (conn this) + 1))) ;;
    setTimeout CbReconnect delay (fun t =>
      modify (upd_conn (set_wsReconnectTimeout (Some t))))).

(** [new WebSocket(CONFIG.WS_URL)]: a fresh socket in state CONNECTING, or
    an exception. *)
Definition new_WebSocket : Cmd := fun w =>
  if ws_constructible w then
    Done (set_next_sock (S (next_sock w))
            (upd_app (upd_conn (set_ws
               (Some {| sock := next_sock w; readyState := CONNECTING |}))) w))
  else Threw (TypeError "new WebSocket") w.

Definition connectWebSocket : Cmd :=
  get (fun this =>
    if truthy (wsReconnectTimeout (conn this)) then
      clearTimer (wsReconnectTimeout (conn this)) ;;
      modify (upd_conn (set_wsReconnectTimeout None))
    else skip) ;;
  try_catch new_WebSocket
    (fun error =>
       emit (EvConsole CWsConnectionFailed) ;; scheduleReconnect).

(** The handlers that [connectWebSocket] installs on the socket. *)
Definition ws_onopen : Cmd :=
  emit (EvConsole CWsConnected) ;;
  modify (upd_conn (set_wsReconnectAttempt 0)) ;;
  hideConnectionStatus ;;
  startHeartbeat ;;
  sendWebSocketMessage MsgSync.

Definition ws_onclose : Cmd :=
  emit (EvConsole CWsDisconnected) ;;
  stopHeartbeat ;;
  scheduleReconnect.

Definition ws_onerror : Cmd := emit (EvConsole CWsError).

(** The browser changes [readyState] of the socket [k] before it calls a
    handler; [this.ws] sees the change when it is that socket. *)
Definition socket_becomes (k : nat) (st : ReadyState) : Cmd :=
  modify (upd_conn (fun c =>
    match ws c with
    | Some s =>
        if Nat.eqb (sock s) k
        then set_ws (Some {| sock := k; readyState := st |}) c
        else c
    | None => c
    end)).

(** The bodies of the timer callbacks. *)
Definition run_callback (cb : Callback) : Cmd :=
  match cb with
  | CbKeyCombo => modify (upd_keys (set_lastKey None))
  | CbReconnect =>
      modify (upd_conn (fun c =>
        set_wsReconnectAttempt (wsReconnectAttempt c + 1) c)) ;;
      connectWebSocket
  | CbHeartbeat =>
      get (fun this =>
        if ws_is_open this then sendWebSocketMessage MsgSync else skip)
  end.

(** ** Subfolder navigation *)

Record SubfoldersData := {
  sf_subfolders : list Subfolder;
  sf_has_subfolders : bool;
  sf_current_folder : string
}.

Definition set_currentFolder (v : string) (f : Folders) : Folders :=
  {| currentFolder := v; subfolders := subfolders f;
     hasFolders := hasFolders f |}.

(** [async loadSubfolders], up to its [await]. *)
Definition loadSubfolders (k : Kont) : Cmd :=
  emit (EvFetch GET "/subfolders" None) ;; await k.

(** ... and from the reply on. *)
Definition loadSubfolders_assign (data : SubfoldersData) : Cmd :=
  modify (upd_folders (fun _ =>
    {| currentFolder := sf_current_folder data;
       subfolders := sf_subfolders data;
       hasFolders := sf_has_subfolders data |})) ;;
  emit (EvRender RFolderNav).

(** [async navigateToFolder], up to its first [await]. *)
Definition navigateToFolder (folderPath : string) : Cmd :=
  async (emit (EvFetch POST "/navigate/folder" (Some folderPath)) ;;
         await (KNavigateFolder folderPath)).

Definition samePath (p : string) (f : Subfolder) : bool :=
  String.eqb (path f) p.

Definition navigateToSubfolder (idx : Z) : Cmd :=
  get (fun this =>
    match js_index (subfolders (folders this)) idx with
    | Some f => navigateToFolder (path f)
    | None => throw (TypeError "this.subfolders[idx] is undefined")
    end).

Definition navigateToNextFolder : Cmd :=
  get (fun this =>
    let sf := subfolders (folders this) in
    if js_length sf =? 0 then skip
    else
      let currentIdx := findIndex (samePath (currentFolder (folders this))) sf in
      navigateToSubfolder (Z.rem (currentIdx + 1) (js_length sf))).

Definition navigateToPrevFolder : Cmd :=
  get (fun this =>
    let sf := subfolders (folders this) in
    if js_length sf =? 0 then skip
    else
      let currentIdx := findIndex (samePath (currentFolder (folders this))) sf in
      navigateToSubfolder
        (if currentIdx <=? 0 then js_length sf - 1 else currentIdx - 1)).

(** [currentFolder.split('/').slice(0, -1).join('/')] is what stands
    before the last ['/']. *)
Definition navigateToParentFolder : Cmd :=
  get (fun this =>
    if String.eqb (currentFolder (folders this)) "" then skip
    else navigateToFolder (parentFolder (currentFolder (folders this)))).

(** The end of [navigateToFolder]: go to the first image of the folder
    without telling the server again. *)
Definition startsWith (prefix s : string) : bool :=
  String.prefix prefix s.

Definition navigateToFolder_finish (folderPath : string) : Cmd :=
  with_session (fun s =>
    modify (upd_replica (fun r =>
      let targetPrefix :=
        if String.eqb folderPath "" then "" else (folderPath ++ "/")%string in
      let firstImageIndex :=
        findIndex (fun l => String.eqb folderPath ""
                            || startsWith targetPrefix (id (objs r !!! l)))
          (images s) in
      if firstImageIndex =? -1 then r
      else set_currentImage (js_index (images s) firstImageIndex)
             (set_session (Some (set_current_index firstImageIndex s)) r))) ;;
    updateUI ;;
    prefetchImages).

(** ** Keyboard handler *)

Record KeyboardEvent := {
  key : string;
  target_tagName : string;
  shiftKey : bool
}.

Definition digit_of (c : ascii) : option Z :=
  let n := Z.of_nat (nat_of_ascii c) in
  if (48 <=? n) && (n <=? 57) then Some (n - 48) else None.

Fixpoint parse_digits (s : string) (acc : Z) : Z :=
  match s with
  | String c s' =>
      match digit_of c with
      | Some d => parse_digits s' (10 * acc + d)
      | None => acc
      end
  | EmptyString => acc
  end.

(** [parseInt(key, 10)] of a string without leading blanks or sign: the
    number its leading digits spell, [NaN] (here [None]) without any. *)
Definition parseInt (s : string) : option Z :=
  match s with
  | String c _ =>
      match digit_of c with
      | Some _ => Some (parse_digits s 0)
      | None => None
      end
  | EmptyString => None
  end.

Definition preventDefault : Cmd := emit EvPreventDefault.

(** The [case] labels of the [switch (key)] of the main shortcuts. *)
Inductive Shortcut :=
| KeyClass (keyNumber : Z)    (* '1' .. '9', and '0' *)
| KeyDelete                   (* 'd' 'D' *)
| KeyUndo                     (* 'u' 'U' *)
| KeyPrevious                 (* 'ArrowLeft' 'h' 'H' 'k' 'K' *)
| KeyNext                     (* 'ArrowRight' 'l' 'L' 'j' 'J' *)
| KeyG                        (* 'g' *)
| KeyLast                     (* 'G' *)
| KeyNextUnlabeled            (* 'n' 'N' *)
| KeyEnter                    (* 'Enter' *)
| KeyHelp                     (* '?' *)
| KeyStats                    (* 's' 'S' *)
| KeyFilter                   (* 'f' 'F' *)
| KeyTab                      (* 'Tab' *)
| KeyBackspace                (* 'Backspace' *)
| KeyOther.                   (* default *)

Definition shortcut_of (key : string) : Shortcut :=
  match key with
  | "1" => KeyClass 1 | "2" => KeyClass 2 | "3" => KeyClass 3
  | "4" => KeyClass 4 | "5" => KeyClass 5 | "6" => KeyClass 6
  | "7" => KeyClass 7 | "8" => KeyClass 8 | "9" => KeyClass 9
  | "0" => KeyClass 0
  | "d" | "D" => KeyDelete
  | "u" | "U" => KeyUndo
  | "ArrowLeft" | "h" | "H" => KeyPrevious
  | "ArrowRight" | "l" | "L" => KeyNext
  | "j" | "J" => KeyNext           (* vim: j = down = next *)
  | "k" | "K" => KeyPrevious       (* vim: k = up = previous *)
  | "g" => KeyG
  | "G" => KeyLast
  | "n" | "N" => KeyNextUnlabeled
  | "Enter" => KeyEnter
  | "?" => KeyHelp
  | "s" | "S" => KeyStats
  | "f" | "F" => KeyFilter
  | "Tab" => KeyTab
  | "Backspace" => KeyBackspace
  | _ => KeyOther
  end.

(** The bodies of the [case]s. *)
Definition mainShortcut (event : KeyboardEvent) : Cmd :=
  match shortcut_of (key event) with
  | KeyClass keyNumber => preventDefault ;; handleClassKey keyNumber
  | KeyDelete => preventDefault ;; deleteImage
  | KeyUndo => preventDefault ;; undoAction
  | KeyPrevious => preventDefault ;; navigatePrevious
  | KeyNext => preventDefault ;; navigateNext
  | KeyG => preventDefault ;; handleGKey
  | KeyLast => preventDefault ;; navigateToLastInFolder
  | KeyNextUnlabeled => preventDefault ;; navigateToNextUnlabeled
  | KeyEnter => preventDefault ;; showCommitModal
  | KeyHelp => preventDefault ;; toggleHelp
  | KeyStats => preventDefault ;; toggleStats
  | KeyFilter =>
      preventDefault ;;
      modify (upd_keys (set_filterMode true)) ;;
      showToast ToastFilterMode
  | KeyTab =>
      get (fun this =>
        if hasFolders (folders this) then
          preventDefault ;;
          (if shiftKey event then navigateToPrevFolder
           else navigateToNextFolder)
        else skip)
  | KeyBackspace =>
      get (fun this =>
        if String.eqb (currentFolder (folders this)) "" then skip
        else preventDefault ;; navigateToParentFolder)
  | KeyOther => skip
  end.

Definition handleKeyDown (event : KeyboardEvent) : Cmd :=
  if String.eqb (target_tagName event) "INPUT"
     || String.eqb (target_tagName event) "TEXTAREA"
  then skip
  else
    get (fun this =>
      match activeOverlay (ui this), String.eqb (key event) "Escape" with
      | Some _, true =>
          (* Escape always closes overlays *)
          preventDefault ;; closeOverlay
      | Some commit, false =>
          if String.eqb (key event) "Enter"
          then preventDefault ;; confirmCommit
          else skip            (* block other keys while the modal is open *)
      | Some _, false =>
          (* help and stats overlays close on any key *)
          preventDefault ;; closeOverlay
      | None, _ =>
          if filterMode (keys this) then
            preventDefault ;;
            (if String.leb "0" (key event) && String.leb (key event) "9"
             then applyFilter (parseInt (key event))
             else skip) ;;
            modify (upd_keys (set_filterMode false))
          else mainShortcut event
      end).

(** ** The event loop

    What the browser can deliver to the application once [completeInit]
    has installed its handlers: key presses, clicks, socket events, timer
    expiries, and the settling of the requests the application waits for. *)

Inductive Button :=
| BtnDelete
| BtnUndo
| BtnCommit
| BtnConfirmCommit
| BtnCancelCommit
| Backdrop
| BtnClass (index : Z)          (* rendered for each index of the class list *)
| BtnFolder (folderPath : string).

Inductive Reply (A : Type) :=
| Ok (a : A)
| Failed (message : string).
Arguments Ok {A} a.
Arguments Failed {A} message.

Inductive Input :=
| InKeyDown (event : KeyboardEvent)
| InClick (b : Button)
| InWsOpen (k : nat)
| InWsMessage (event : ServerMessage)
| InWsError (k : nat)
| InWsClose (k : nat)
| InTimer (t : TimerId)
| InImage (imageId : string) (loaded : bool)
| InChangeCount (r : Reply (Z * bool))
| InPreview (r : Reply PreviewSummary)
| InShowCommitModal                       (* the promise of getCommitPreview settled *)
| InCommit (r : Reply unit)
| InStats (r : Reply unit)
| InFolderContext (r : Reply unit)
| InSubfolders (r : Reply SubfoldersData)
| InReloadSession (r : Reply SessionData)
| InNavigateFolder (folderPath : string) (r : Reply (bool * string))
| InNavigateFolderSession (folderPath : string) (r : Reply SessionData)
| InNavigateFolderSubfolders (folderPath : string) (r : Reply SubfoldersData).

Global Instance Kont_eq_dec : EqDecision Kont.
Proof. solve_decision. Defined.

Fixpoint remove_first (k : Kont) (ks : list Kont) : option (list Kont) :=
  match ks with
  | [] => None
  | k' :: ks' =>
      if decide (k' = k) then Some ks'
      else match remove_first k ks' with
           | Some r => Some (k' :: r)
           | None => None
           end
  end.

(** Resume the parked continuation [k]; nothing happens when the
    application is not waiting for it. *)
Definition resume (k : Kont) (c : Cmd) : Cmd := fun w =>
  match remove_first k (pending w) with
  | Some ks => c (set_pending ks w)
  | None => Done w
  end.

(** Fire the timer [t], if it is still pending. *)
Definition fire (t : TimerId) : Cmd := fun w =>
  match List.find (fun x => Nat.eqb (tid x) t) (timers w) with
  | Some x =>
      run_callback (callback x)
        (if repeating x then w
         else set_timers
                (List.filter (fun y => negb (Nat.eqb (tid y) t)) (timers w))
                (next_timer w) w)
  | None => Done w
  end.

(** The rest of [showCommitModal] once the preview is there. *)
Definition showCommitModal_resume : Cmd :=
  try_catch
    (get (fun this =>
       match commitPreview (ui this) with
       | None => throw (TypeError "this.commitPreview is null")
       | Some p =>
           if total_changes p =? 0 then showToast ToastNoChanges
           else emit (EvRender RCommitModal) ;; openOverlay commit
       end))
    (fun error => showToast ToastPreviewFailed).

Definition click (b : Button) : Cmd :=
  match b with
  | BtnDelete => deleteImage
  | BtnUndo => undoAction
  | BtnCommit => showCommitModal
  | BtnConfirmCommit => confirmCommit
  | BtnCancelCommit => closeOverlay
  | Backdrop => closeOverlay
  | BtnClass index =>
      get (fun this =>
        match session (replica this) with
        | Some s =>
            if (0 <=? index) && (index <? js_length (classes s))
            then labelImage index
            else skip        (* there is no such button *)
        | None => skip
        end)
  | BtnFolder folderPath => navigateToFolder folderPath
  end.

Definition react (i : Input) : Cmd :=
  match i with
  | InKeyDown event => handleKeyDown event
  | InClick b => click b
  | InWsOpen k => socket_becomes k OPEN ;; ws_onopen
  | InWsMessage event => handleWebSocketMessage event
  | InWsError k => ws_onerror
  | InWsClose k => socket_becomes k CLOSED ;; ws_onclose
  | InTimer t => fire t
  | InImage imageId loaded =>
      resume (KImage imageId)
        (if loaded then image_onload imageId else image_onerror imageId)
  | InChangeCount r =>
      resume KChangeCount
        match r with
        | Ok (n, b) => modify (upd_ui (set_changes n b)) ;; updateCommitButton
        | Failed _ => emit (EvConsole CChangeCountFailed)
        end
  | InPreview r =>
      resume KPreview
        match r with
        | Ok p => modify (upd_ui (set_commitPreview (Some p))) ;;
                  await KShowCommitModal
        | Failed _ => showToast ToastPreviewFailed
        end
  | InShowCommitModal => resume KShowCommitModal showCommitModal_resume
  | InCommit r =>
      resume KCommit
        match r with
        | Ok _ => skip   (* handleChangesCommitted will close the overlay *)
        | Failed message =>
            showToast (ToastCommitFailed message) ;; closeOverlay
        end
  | InStats r =>
      resume KStats
        match r with
        | Ok _ => emit (EvRender RStats) ;; openOverlay stats
        | Failed message => emit (EvUnhandledRejection (ApiError message))
        end
  | InFolderContext r =>
      resume KFolderContext
        match r with
        | Ok _ => loadSubfolders KSubfolders
        | Failed _ => emit (EvConsole CFolderContextFailed)
        end
  | InSubfolders r =>
      resume KSubfolders
        match r with
        | Ok data => loadSubfolders_assign data
        | Failed _ => emit (EvConsole CSubfoldersFailed)
        end
  | InReloadSession r =>
      resume KReloadSession
        match r with
        | Ok data =>
            loadSession_assign data ;; emit (EvConsole CSessionLoaded) ;;
            updateUI ;; updateChangeCount
        | Failed message => emit (EvUnhandledRejection (ApiError message))
        end
  | InNavigateFolder folderPath r =>
      resume (KNavigateFolder folderPath)
        match r with
        | Ok (true, current_folder) =>
            modify (upd_folders (set_currentFolder current_folder)) ;;
            emit (EvFetch GET "/session" None) ;;
            await (KNavigateFolderSession folderPath)
        | Ok (false, _) => skip
        | Failed _ => emit (EvConsole CNavigateFolderFailed)
        end
  | InNavigateFolderSession folderPath r =>
      resume (KNavigateFolderSession folderPath)
        match r with
        | Ok data =>
            loadSession_assign data ;; emit (EvConsole CSessionLoaded) ;;
            loadSubfolders (KNavigateFolderSubfolders folderPath)
        | Failed _ => emit (EvConsole CNavigateFolderFailed)
        end
  | InNavigateFolderSubfolders folderPath r =>
      resume (KNavigateFolderSubfolders folderPath)
        (try_catch
           (match r with
            | Ok data => loadSubfolders_assign data
            | Failed _ => emit (EvConsole CSubfoldersFailed)
            end ;;
            navigateToFolder_finish folderPath)
           (fun error => emit (EvConsole CNavigateFolderFailed)))
  end.

(** One turn of the event loop: an exception that leaves a handler is
    reported and the application goes on from the state it reached. *)
Definition step (w : World) (i : Input) : World :=
  world_of (try_catch (react i) (fun e => emit (EvUncaughtError e)) w).

Definition run (w : World) (inputs : list Input) : World :=
  fold_left step inputs w.

(** The state the constructor builds. *)
Definition constructed : App :=
  {| replica := {| objs := ∅; session := None; currentImage := None |};
     cache := {| imageCache := []; prefetchingImages := ∅ |};
     conn := {| ws := None; wsReconnectAttempt := 0;
                wsReconnectTimeout := None; wsHeartbeatInterval := None;
                connectionStatus_hidden := true |};
     ui := {| activeOverlay := None; commitPreview := None;
              userChangesCount := 0; hasChanges := false |};
     keys := {| filterMode := false; lastKey := None;
                keyComboTimeout := None |};
     folders := {| currentFolder := ""; subfolders := [];
                   hasFolders := false |} |}.
(** * What the page shows: paths, breadcrumbs, counters

    The pure computations of the rendering and folder code: the parent of
    a folder, the breadcrumbs, the key printed on a class button, the
    position of the image in its folder and the progress counter. *)

(** ** Paths: [split], [join] and the breadcrumbs *)

(** [s.split(sep)] for a separator of one character. *)
Fixpoint js_split (sep : ascii) (s : string) : list string :=
  match s with
  | EmptyString => [""]
  | String c s' =>
      if Ascii.eqb c sep then "" :: js_split sep s'
      else match js_split sep s' with
           | part :: parts => String c part :: parts
           | [] => [String c ""]
           end
  end.

(** [parts.join(sep)] *)
Fixpoint js_join (sep : string) (parts : list string) : string :=
  match parts with
  | [] => ""
  | part :: rest =>
      match rest with
      | [] => part
      | _ :: _ => (part ++ sep ++ js_join sep rest)%string
      end
  end.

(** [this.currentFolder.split('/').slice(0, -1).join('/')], the parent as
    [navigateToParentFolder] writes it. *)
Definition parentPath (folder : string) : string :=
  js_join "/" (removelast (js_split "/"%char folder)).

Record Breadcrumb := {
  crumb_path : string;
  crumb_name : string;
  is_current : bool
}.

(** The [parts.forEach] of [getBreadcrumbs], from the part at [idx] on. *)
Fixpoint breadcrumbs_from (parts : list string) (idx len : Z)
    (accumulated : string) : list Breadcrumb :=
  match parts with
  | [] => []
  | part :: rest =>
      let accumulated' :=
        if String.eqb accumulated "" then part
        else (accumulated ++ "/" ++ part)%string in
      {| crumb_path := accumulated'; crumb_name := part;
         is_current := idx =? len - 1 |}
      :: breadcrumbs_from rest (idx + 1) len accumulated'
  end.

Definition getBreadcrumbs (this : App) : list Breadcrumb :=
  let folder := currentFolder (folders this) in
  {| crumb_path := ""; crumb_name := "root";
     is_current := String.eqb folder "" |}
  :: (if String.eqb folder "" then []
      else let parts := js_split "/"%char folder in
           breadcrumbs_from parts 0 (js_length parts) "").

(** ** What the rendering layer computes *)

(** [renderClassButtons]: the key printed on the button of the class
    [index] (keys 1-9, then 0). *)
Definition keyNumber (index : Z) : Z :=
  if index <? 9 then index + 1 else 0.

(** [this.session.images.filter(img => imgFolder === parentFolder)] *)
Definition imagesInFolder (o : gmap loc ImageInfo) (imgs : list loc)
    (parent : string) : list loc :=
  List.filter (fun l => sameFolder parent (o !!! l)) imgs.

(** [updateImageInfo]: [posInFolder] and [totalInFolder] for the current
    image [c]. *)
Definition folderPosition (R : Replica) (s : SessionState) (c : loc)
    : Z * Z :=
  let currentPath := id (objs R !!! c) in
  let inFolder :=
    imagesInFolder (objs R) (images s) (parentFolder currentPath) in
  (findIndex (fun l => String.eqb (id (objs R !!! l)) currentPath) inFolder
     + 1,
   js_length inFolder).

(** One round of the counting loop of [updateProgress], on the counts
    [(labeled, deleted)]. *)
Definition count_image (o : gmap loc ImageInfo) (counts : Z * Z) (l : loc)
    : Z * Z :=
  let img := o !!! l in
  if marked_for_deletion img then (fst counts, snd counts + 1)
  else match label img with
       | Some _ => (fst counts + 1, snd counts)
       | None => counts
       end.

Definition count_progress (o : gmap loc ImageInfo) (imgs : list loc)
    : Z * Z :=
  fold_left (count_image o) imgs (0, 0).

(** [updateProgress]: [processed] and [total], over the folder of the
    current image, or over all images when there is none. *)
Definition progress (R : Replica) (s : SessionState) : Z * Z :=
  let imgs :=
    match currentImage R with
    | Some c =>
        imagesInFolder (objs R) (images s)
          (parentFolder (id (objs R !!! c)))
    | None => images s
    end in
  let counts := count_progress (objs R) imgs in
  (fst counts + snd counts, js_length imgs).


(** * Specification vocabulary *)

(** [keeps_at J E c w]: run from the world [w], the command [c] ends,
    by returning or by throwing, in a world where [J] holds, and every
    effect it adds to the history satisfies [E] (an effect is kept with
    the application state in which it happened). *)
Definition keeps_at (J : World -> Prop) (E : Effect * App -> Prop)
    (c : Cmd) (w : World) : Prop :=
  J (world_of (c w)) /\
  exists new, trace (world_of (c w)) = trace w ++ new /\ Forall E new.

(** [runs_at J E c w]: moreover [c] returns. *)
Definition runs_at (J : World -> Prop) (E : Effect * App -> Prop)
    (c : Cmd) (w : World) : Prop :=
  exists w', c w = Done w' /\ J w' /\
  exists new, trace w' = trace w ++ new /\ Forall E new.

(** The same from every world where [J] holds: [J] is an invariant of
    [c]. *)
Definition keeps (J : World -> Prop) (E : Effect * App -> Prop) (c : Cmd)
    : Prop :=
  forall w, J w -> keeps_at J E c w.

Definition runs (J : World -> Prop) (E : Effect * App -> Prop) (c : Cmd)
    : Prop :=
  forall w, J w -> runs_at J E c w.

(** Invariants of the application object alone. *)
Definition on_app (I : App -> Prop) : World -> Prop := fun w => I (app w).
Definition in_state (I : App -> Prop) : Effect * App -> Prop :=
  fun e => I (snd e).
Definition any_effect : Effect * App -> Prop := fun _ => True.

(** The session mirror is exactly [R] and the connection fields are
    exactly [C], now and at every effect. *)
Definition frozen (R : Replica) (C : Conn) : World -> Prop :=
  on_app (fun a => replica a = R /\ conn a = C).
(** The effects other than the two intent messages. *)
Definition background (e : Effect) : Prop :=
  match e with
  | EvSend (MsgLabel _ _) | EvSend (MsgDelete _) => False
  | _ => True
  end.

Definition at_replica (R : Replica) (C : Conn) : Effect * App -> Prop :=
  fun e => replica (snd e) = R /\ conn (snd e) = C /\ background (fst e).

(** The replica once the cursor has moved to [index]. *)
Definition navigated (index : Z) (s : SessionState) (R : Replica) : Replica :=
  set_currentImage (js_index (images s) index)
    (set_session (Some (set_current_index index s)) R).

(** A cursor inside the image list. *)
Definition valid_cursor (s : SessionState) : Prop :=
  0 <= current_index s < js_length (images s).

(** Where [navigateNext] and [navigatePrevious] leave the cursor. *)
Definition next_index (s : SessionState) : Z :=
  Z.min (current_index s + 1) (js_length (images s) - 1).
Definition prev_index (s : SessionState) : Z :=
  Z.max (current_index s - 1) 0.

(** The fields that [labelImage] and [handleImageLabeled] assign, and the
    fields that [deleteImage] and [handleImageDeleted] assign. *)
Definition labelled (v : option Z) (n : jsstr) (img : ImageInfo) : ImageInfo :=
  set_marked_for_deletion false (set_class_name n (set_label v img)).
Definition deleted (img : ImageInfo) : ImageInfo :=
  set_class_name JNull (set_label None (set_marked_for_deletion true img)).

(** [this.session.classes[classIndex]] *)
Definition class_entry (s : SessionState) (classIndex : Z) : jsstr :=
  match js_index (classes s) classIndex with
  | Some c => JStr c
  | None => JUndefined
  end.

(** What [sendWebSocketMessage] does with a message. *)
Definition dispatch (this : App) (m : WSMessage) : Effect :=
  if ws_is_open this then EvSend m else EvConsole CWsCannotSend.

(** The messages that went out on the socket, oldest first. *)
Definition sent (w : World) : list WSMessage :=
  omap (fun e => match fst e with EvSend m => Some m | _ => None end)
       (trace w).

(** ** Sample states *)

Definition fresh_image (i : string) : ImageInfo :=
  {| id := i; filename := i; label := None; class_name := JNull;
     marked_for_deletion := false |}.

(** Three images in two folders, two classes, the cursor on [cursor]. *)
Definition sample_replica (cursor : nat) : Replica :=
  {| objs := <[2%nat := fresh_image "b/z.png"]>
               (<[1%nat := fresh_image "a/y.png"]>
                  (<[0%nat := fresh_image "a/x.png"]> ∅));
     session := Some {| classes := ["cat"; "dog"];
                        images := [0%nat; 1%nat; 2%nat];
                        current_index := Z.of_nat cursor |};
     currentImage := Some cursor |}.

Definition sample_session (cursor : nat) : SessionState :=
  {| classes := ["cat"; "dog"]; images := [0%nat; 1%nat; 2%nat];
     current_index := Z.of_nat cursor |}.

Definition sample_app (cursor : nat) (socket : option WebSocket) : App :=
  {| replica := sample_replica cursor;
     cache := cache constructed;
     conn := set_ws socket (conn constructed);
     ui := ui constructed;
     keys := keys constructed;
     folders := folders constructed |}.

Definition world_with (a : App) : World :=
  {| app := a; timers := []; next_timer := 1%nat; pending := [];
     ws_constructible := true; next_sock := 1%nat; trace := [] |}.

Definition open_socket : option WebSocket :=
  Some {| sock := 0; readyState := OPEN |}.

(** Connected, on the first image. *)
Definition sample_world : World := world_with (sample_app 0 open_socket).

(** Not connected, on the last image. *)
Definition offline_world : World := world_with (sample_app 2 None).

(** The class index that [handleClassKey] derives from a key number. *)
Definition class_of_key (s : SessionState) (keyNumber : Z) : Z :=
  if keyNumber =? 0 then Z.min 9 (js_length (classes s) - 1)
  else keyNumber - 1.

(** What a reconciling broadcast does to the replica: the first image of
    the session with the given id gets its fields overwritten by [f]. *)
Definition reconcile (f : ImageInfo -> ImageInfo) (image_id : string)
    (R : Replica) : Replica :=
  match session R with
  | None => R
  | Some s =>
      match find_image (objs R) (images s) image_id with
      | Some l => set_objs (alter f l (objs R)) R
      | None => R
      end
  end.

(** The two invariants of an image of the session: a label and a deletion
    mark exclude each other, and a label is an index of the class list. *)
Definition image_ok (s : SessionState) (img : ImageInfo) : Prop :=
  (label img <> None -> marked_for_deletion img = false) /\
  (forall i, label img = Some i -> 0 <= i < js_length (classes s)).

Definition session_ok (R : Replica) : Prop :=
  forall s l img,
    session R = Some s -> l ∈ images s -> objs R !! l = Some img ->
    image_ok s img.

(** A class index inside the class list of the loaded session. *)
Definition valid_class (R : Replica) (classIndex : Z) : Prop :=
  forall s, session R = Some s -> 0 <= classIndex < js_length (classes s).

Definition ok_world : World -> Prop :=
  on_app (fun a => session_ok (replica a)).

(** A broadcast that names a class the session does not have. *)
Definition stray_payload : LabeledPayload :=
  {| lp_image_id := "a/y.png"; lp_class_index := Some 5;
     lp_class_name := JStr "bird" |}.

(** ** The prefetch cache *)

(** Eleven cached images and a session whose image list is empty (the
    server's list after everything was committed). *)
Definition crowded_cache : list (string * string) :=
  map (fun k => (k, k))
    ["i00"; "i01"; "i02"; "i03"; "i04"; "i05"; "i06"; "i07"; "i08"; "i09";
     "i10"].

Definition crowded_world : World :=
  world_with
    {| replica := {| objs := ∅;
                     session := Some {| classes := ["cat"; "dog"];
                                        images := []; current_index := 0 |};
                     currentImage := None |};
       cache := {| imageCache := crowded_cache; prefetchingImages := ∅ |};
       conn := conn constructed; ui := ui constructed;
       keys := keys constructed; folders := folders constructed |}.

(** The same cache under the sample session. *)
Definition crowded_sample : World :=
  world_with
    (upd_cache (set_imageCache crowded_cache) (sample_app 0 open_socket)).

(** [this.session.images[i].id], when there is such an image. *)
Definition image_id_at (R : Replica) (s : SessionState) (i : Z)
    : option string :=
  (fun l => id (objs R !!! l)) <$> js_index (images s) i.

(** The images that [prefetchImages] asks for: the three after the cursor
    that exist, then the one before it when the cursor is positive. *)
Definition prefetch_targets (R : Replica) (s : SessionState) : list string :=
  let i := current_index s in
  omap (image_id_at R s)
    ([i + 1; i + 2; i + 3] ++ (if 0 <? i then [i - 1] else [])).

Definition cached (w : World) (x : string) : bool :=
  map_has x (imageCache (cache (app w))).
Definition in_flight_set (w : World) : gset string :=
  prefetchingImages (cache (app w)).

(** The world once a fetch for [x] has been started. *)
Definition start_fetch (x : string) (w : World) : World :=
  let a := upd_cache (fun c =>
             set_prefetchingImages ({[x]} ∪ prefetchingImages c) c) (app w) in
  {| app := a; timers := timers w; next_timer := next_timer w;
     pending := pending w ++ [KImage x];
     ws_constructible := ws_constructible w; next_sock := next_sock w;
     trace := trace w ++ [(EvImageSrc x, a)] |}.

(** What [prefetchImage] does. *)
Definition request (w : World) (x : string) : World :=
  if cached w x || bool_decide (x ∈ in_flight_set w) then w
  else start_fetch x w.







(** ** Key presses *)

(** A key pressed on the page (not in an input field). *)
Definition press (k : string) : Input :=
  InKeyDown {| key := k; target_tagName := "BODY"; shiftKey := false |}.

(** The [gg] machine: awaiting the second key or idle. *)
Definition awaiting (w : World) : Prop := lastKey (keys (app w)) = Some "g".
Definition idle (w : World) : Prop := lastKey (keys (app w)) <> Some "g".

(** The timer that [handleGKey] arms. *)
Definition combo_timer (t : TimerId) : Timer :=
  {| tid := t; delay := CONFIG.DOUBLE_KEY_TIMEOUT; callback := CbKeyCombo;
     repeating := false |}.

(** The first index of [imgs] whose image lies in the folder [parent]. *)
Definition first_in_folder (o : gmap loc ImageInfo) (imgs : list loc)
    (parent : string) : Scan :=
  scan o imgs (sameFolder parent) (seqZ 0 (js_length imgs)).

(** ** Reconnection *)

(** The timer that [scheduleReconnect] arms for the attempt [n]. *)
Definition reconnect_timer (t : TimerId) (n : Z) : Timer :=
  {| tid := t; delay := reconnect_delay n; callback := CbReconnect;
     repeating := false |}.

(** The ids of the pending timers are positive and below the next id the
    browser will hand out. *)
Definition timers_fresh (w : World) : Prop :=
  (0 < next_timer w)%nat /\
  Forall (fun x => (0 < tid x < next_timer w)%nat) (timers w).

(** Waiting for the reconnection attempt number [n]: the indicator is
    shown, and the timer of [this.wsReconnectTimeout] is pending with the
    delay of the attempt [n]. *)
Definition waiting (n : Z) (w : World) : Prop :=
  timers_fresh w /\
  wsReconnectAttempt (conn (app w)) = n /\
  connectionStatus_hidden (conn (app w)) = false /\
  exists t,
    wsReconnectTimeout (conn (app w)) = Some t /\
    List.find (fun x => Nat.eqb (tid x) t) (timers w)
      = Some (reconnect_timer t n).

(** The pending reconnection attempt is made and fails: its timer fires,
    and then either [new WebSocket] has thrown or the new socket
    closes. *)
Definition attempt_fails (w : World) : World :=
  match wsReconnectTimeout (conn (app w)) with
  | Some t =>
      let w1 := step w (InTimer t) in
      if ws_constructible w then
        match ws (conn (app w1)) with
        | Some sk => step w1 (InWsClose (sock sk))
        | None => w1
        end
      else w1
  | None => w
  end.

(** ** Preview, confirmation, commit *)

(** The request that [executeCommit] issues. *)
Definition commit_request : Effect := EvFetch POST "/changes/commit" None.

(** The two gestures that call [confirmCommit]: the confirm button, and
    the Enter key (which confirms when the commit overlay is active). *)
Definition is_confirmation (i : Input) : Prop :=
  match i with
  | InClick BtnConfirmCommit => True
  | InKeyDown event => key event = "Enter"
  | _ => False
  end.

Definition overlay_of (a : App) : option Overlay := activeOverlay (ui a).
Definition preview_of (a : App) : option PreviewSummary := commitPreview (ui a).

(** What is known after the inputs [ins] have led to the world [w]: an
    active commit overlay and a stored preview come from a reply of the
    server, and every commit request in the history was issued under the
    commit overlay, by a confirmation that came after a preview with
    changes. *)
Definition commit_inv (ins : list Input) (w : World) : Prop :=
  (overlay_of (app w) = Some commit ->
     exists p, InPreview (Ok p) ∈ ins /\ total_changes p <> 0) /\
  (forall p, preview_of (app w) = Some p -> InPreview (Ok p) ∈ ins) /\
  (forall e, e ∈ trace w -> fst e = commit_request ->
     overlay_of (snd e) = Some commit /\
     exists ins1 c ins2 p,
       ins = ins1 ++ c :: ins2 /\ is_confirmation c /\
       InPreview (Ok p) ∈ ins1 /\ total_changes p <> 0).

Definition sample_preview : PreviewSummary :=
  {| total_changes := 2; moves := ["a/x.png"]; deletes := ["a/y.png"];
     warnings := [] |}.
(** * Specification vocabulary: the event loop, folders, undo *)

(** ** Paths *)

(** The string holds no ['/']. *)
Definition slash_free (s : string) : Prop :=
  forall a b, s <> (a ++ String "/"%char b)%string.

(** The [accumulated] of [getBreadcrumbs] after one more part. *)
Definition next_accumulated (accumulated part : string) : string :=
  if String.eqb accumulated "" then part
  else (accumulated ++ "/" ++ part)%string.

(** ** Messages on the socket *)

(** A message on the socket went out while [this.ws] was open. *)
Definition sent_when_open (e : Effect * App) : Prop :=
  match fst e with
  | EvSend _ => ws_is_open (snd e) = true
  | _ => True
  end.

(** A navigate message carries the cursor of the moment, which is inside
    the image list. *)
Definition navigate_at_cursor (e : Effect * App) : Prop :=
  match fst e with
  | EvSend (MsgNavigate index) =>
      exists s, session (replica (snd e)) = Some s /\
                current_index s = index /\ valid_cursor s
  | _ => True
  end.

(** ** Keys *)

(** The key goes to the page and not to a text field. *)
Definition on_page (event : KeyboardEvent) : Prop :=
  target_tagName event <> "INPUT" /\ target_tagName event <> "TEXTAREA".

(** The effects that only concern the page: no request, no message. *)
Definition page_only (e : Effect * App) : Prop :=
  match fst e with
  | EvPreventDefault | EvToast _ | EvRender _ => True
  | _ => False
  end.

(** ** Heartbeat *)

(** The interval that [startHeartbeat] sets. *)
Definition heartbeat_timer (t : TimerId) : Timer :=
  {| tid := t; delay := CONFIG.WS_HEARTBEAT_INTERVAL;
     callback := CbHeartbeat; repeating := true |}.

Definition is_heartbeat (x : Timer) : bool :=
  match callback x with CbHeartbeat => true | _ => false end.

(** The heartbeat intervals that are running. *)
Definition heartbeats (w : World) : list Timer :=
  List.filter is_heartbeat (timers w).

(** No heartbeat runs that [this.wsHeartbeatInterval] does not name, and
    none runs twice. *)
Definition heartbeat_inv (w : World) : Prop :=
  timers_fresh w /\
  (heartbeats w = [] \/
   exists t, wsHeartbeatInterval (conn (app w)) = Some t /\
             heartbeats w = [heartbeat_timer t]).

(** ** The cursor and the current image *)

(** [this.currentImage] is the image under the cursor. *)
Definition in_sync (w : World) : Prop :=
  forall s, session (replica (app w)) = Some s ->
    currentImage (replica (app w)) = js_index (images s) (current_index s).

(** The inputs that carry no cursor of the server: everything but a
    [state_update] frame and the reply to a request for the session. *)
Definition keeps_cursor (i : Input) : Prop :=
  match i with
  | InWsMessage (SStateUpdate _) => False
  | InReloadSession (Ok _) => False
  | InNavigateFolderSession _ (Ok _) => False
  | _ => True
  end.

(** ** Scans *)

(** The image at the index [j] of [imgs] exists and [test] gives [b] on
    it. *)
Definition tested (o : gmap loc ImageInfo) (imgs : list loc)
    (test : ImageInfo -> bool) (j : Z) (b : bool) : Prop :=
  exists l, js_index imgs j = Some l /\ test (o !!! l) = b.

(** ** Undo *)

(** An [undo_completed] payload whose [restored_state] carries the three
    fields of [img] as they were. *)
Definition restored_from (img : ImageInfo) : RestoredState :=
  {| rs_label := Some (label img);
     rs_class_name := Some (class_name img);
     rs_marked_for_deletion := Some (marked_for_deletion img) |}.

Definition undo_payload (img : ImageInfo) (action : string) : UndoPayload :=
  {| up_image_id := id img;
     up_restored_state := Some (restored_from img);
     up_undone_action := action |}.

(** No image before the index [i] carries the identifier [image_id]. *)
Definition first_with_id (o : gmap loc ImageInfo) (imgs : list loc)
    (image_id : string) (i : Z) : Prop :=
  forall j l', 0 <= j < i -> js_index imgs j = Some l' ->
    id (o !!! l') <> image_id.

(** ** Folders *)

(** The image lies under the folder [folderPath] (every image lies under
    the root ['']). *)
Definition in_folder (folderPath : string) (img : ImageInfo) : bool :=
  String.eqb folderPath ""
  || startsWith (folderPath ++ "/")%string (id img).

(** No message to the server. *)
Definition no_send (e : Effect * App) : Prop :=
  forall m, fst e <> EvSend m.

(** ** Frames of the server *)

(** The only message a frame of the server may trigger is a navigate
    message. *)
Definition answer_allowed (e : Effect * App) : Prop :=
  match fst e with
  | EvSend (MsgNavigate _) => True
  | EvSend _ => False
  | _ => True
  end.

(** The frames that carry no state: an unknown type, an error, text that
    is no JSON. *)
Definition stateless (event : ServerMessage) : Prop :=
  match event with
  | SUnknown _ | SError _ | SMalformed => True
  | _ => False
  end.

Definition is_undo (event : ServerMessage) : Prop :=
  match event with SUndoCompleted _ => True | _ => False end.

(** ** More sample states *)

(** The sample session with the help overlay open. *)
Definition help_world : World :=
  upd_app (upd_ui (set_activeOverlay (Some help))) sample_world.

(** The sample session after [f]: in filter mode. *)
Definition filter_world : World :=
  upd_app (upd_keys (set_filterMode true)) sample_world.

(** Two subfolders, the first of them current. *)
Definition sample_subfolders : list Subfolder :=
  [ {| path := "a"; name := "a"; image_count := 2 |};
    {| path := "b"; name := "b"; image_count := 1 |} ].

Definition folders_world : World :=
  upd_app (upd_folders (fun _ =>
    {| currentFolder := "a"; subfolders := sample_subfolders;
       hasFolders := true |})) sample_world.

(** Inside the folder [a/b]. *)
Definition nested_app : App :=
  upd_folders (set_currentFolder "a/b") constructed.

Definition sample_data : SessionData :=
  {| sd_classes := ["cat"; "dog"];
     sd_images := [fresh_image "c/u.png"];
     sd_current_index := 0 |}.


(** * Rules for commands *)

Section Rules.
Variable J : World -> Prop.
Variable E : Effect * App -> Prop.

Lemma runs_keeps_at c w : runs_at J E c w -> keeps_at J E c w.
Proof. intros (w' & Hc & ? & ?). unfold keeps_at. rewrite Hc. simpl. auto. Qed.

Lemma runs_keeps c : runs J E c -> keeps J E c.
Proof. intros H w Hw. by apply runs_keeps_at, H. Qed.

Lemma runs_at_skip w : J w -> runs_at J E skip w.
Proof.
  intros Hw. exists w. split; [done|]. split; [done|].
  exists []. by rewrite app_nil_r.
Qed.

Lemma keeps_at_skip w : J w -> keeps_at J E skip w.
Proof. intros. by apply runs_keeps_at, runs_at_skip. Qed.

Lemma keeps_at_throw e w : J w -> keeps_at J E (throw e) w.
Proof.
  intros Hw. split; [done|]. exists []. simpl. by rewrite app_nil_r.
Qed.

Lemma runs_at_emit e w :
  E (e, app w) -> J (set_trace (trace w ++ [(e, app w)]) w) ->
  runs_at J E (emit e) w.
Proof.
  intros He Hj. eexists. split; [reflexivity|]. split; [done|].
  exists [(e, app w)]. split; [done|]. by constructor.
Qed.

Lemma runs_at_modify f w : J (upd_app f w) -> runs_at J E (modify f) w.
Proof.
  intros Hf. eexists. split; [reflexivity|]. split; [done|].
  exists []. simpl. by rewrite app_nil_r.
Qed.

Lemma runs_at_await k w :
  J (set_pending (pending w ++ [k]) w) -> runs_at J E (await k) w.
Proof.
  intros Hf. eexists. split; [reflexivity|]. split; [done|].
  exists []. simpl. by rewrite app_nil_r.
Qed.

Lemma runs_at_clearTimer t w :
  J w ->
  (forall t', t = Some t' ->
     J (set_timers
          (List.filter (fun x => negb (Nat.eqb (tid x) t')) (timers w))
          (next_timer w) w)) ->
  runs_at J E (clearTimer t) w.
Proof.
  intros Hw Hf. destruct t as [t'|]; simpl.
  - eexists. split; [reflexivity|]. split; [by apply Hf|].
    exists []. simpl. by rewrite app_nil_r.
  - by apply runs_at_skip.
Qed.

Lemma keeps_at_seq c1 c2 w :
  keeps_at J E c1 w -> keeps J E c2 -> keeps_at J E (c1 ;; c2) w.
Proof.
  intros (Hi & new1 & Ht & Hf) H2. unfold keeps_at, seq.
  destruct (c1 w) as [w1|e w1]; simpl in *.
  - destruct (H2 w1 Hi) as (Hi2 & new2 & Ht2 & Hf2). split; [done|].
    exists (new1 ++ new2). rewrite Ht2, Ht, <- app_assoc. split; [done|].
    by apply Forall_app.
  - split; [done|]. by exists new1.
Qed.

Lemma runs_at_seq c1 c2 w :
  runs_at J E c1 w -> runs J E c2 -> runs_at J E (c1 ;; c2) w.
Proof.
  intros (w1 & Hc & Hi & new1 & Ht & Hf) H2. unfold runs_at, seq.
  rewrite Hc.
  destruct (H2 w1 Hi) as (w2 & -> & Hi2 & new2 & Ht2 & Hf2).
  exists w2. split; [done|]. split; [done|].
  exists (new1 ++ new2). rewrite Ht2, Ht, <- app_assoc. split; [done|].
  by apply Forall_app.
Qed.

Lemma keeps_at_get k w : keeps_at J E (k (app w)) w -> keeps_at J E (get k) w.
Proof. done. Qed.

Lemma runs_at_get k w : runs_at J E (k (app w)) w -> runs_at J E (get k) w.
Proof. done. Qed.

Lemma keeps_at_try_catch c h w :
  keeps_at J E c w -> (forall e, keeps J E (h e)) ->
  keeps_at J E (try_catch c h) w.
Proof.
  intros (Hi & new1 & Ht & Hf) H2. unfold keeps_at, try_catch.
  destruct (c w) as [w1|e w1]; simpl in *.
  - split; [done|]. by exists new1.
  - destruct (H2 e w1 Hi) as (Hi2 & new2 & Ht2 & Hf2). split; [done|].
    exists (new1 ++ new2). rewrite Ht2, Ht, <- app_assoc. split; [done|].
    by apply Forall_app.
Qed.

Lemma runs_at_try_catch c h w :
  keeps_at J E c w -> (forall e, runs J E (h e)) ->
  runs_at J E (try_catch c h) w.
Proof.
  intros (Hi & new1 & Ht & Hf) H2. unfold runs_at, try_catch.
  destruct (c w) as [w1|e w1]; simpl in *.
  - exists w1. split; [done|]. split; [done|]. by exists new1.
  - destruct (H2 e w1 Hi) as (w2 & -> & Hi2 & new2 & Ht2 & Hf2).
    exists w2. split; [done|]. split; [done|].
    exists (new1 ++ new2). rewrite Ht2, Ht, <- app_assoc. split; [done|].
    by apply Forall_app.
Qed.

(** A call of an [async] method returns to its caller, whatever happens
    inside. *)
Lemma runs_at_async c w :
  keeps_at J E c w ->
  (forall e w', J w' ->
     E (EvUnhandledRejection e, app w') /\
     J (set_trace (trace w' ++ [(EvUnhandledRejection e, app w')]) w')) ->
  runs_at J E (async c) w.
Proof.
  intros H He. apply runs_at_try_catch; [done|].
  intros e w' Hw'. destruct (He e w' Hw'). by apply runs_at_emit.
Qed.

(** When the body returns, [async] adds nothing. *)
Lemma runs_at_async_runs c w : runs_at J E c w -> runs_at J E (async c) w.
Proof.
  intros (w' & Hc & ?). exists w'. unfold async, try_catch. by rewrite Hc.
Qed.

Lemma keeps_for_each {A} (xs : list A) body :
  (forall x, keeps J E (body x)) -> keeps J E (for_each xs body).
Proof.
  intros H. induction xs as [|x xs IH]; simpl; intros w Hw.
  - by apply keeps_at_skip.
  - apply keeps_at_seq; [by apply H | done].
Qed.

Lemma runs_for_each {A} (xs : list A) body :
  (forall x, x ∈ xs -> runs J E (body x)) -> runs J E (for_each xs body).
Proof.
  induction xs as [|x xs IH]; simpl; intros H w Hw.
  - by apply runs_at_skip.
  - apply runs_at_seq.
    + apply H; [left | done].
    + apply IH. intros y Hy. apply H. by right.
Qed.

Lemma keeps_at_with_session k w :
  J w ->
  (forall s, session (replica (app w)) = Some s -> keeps_at J E (k s) w) ->
  keeps_at J E (with_session k) w.
Proof.
  intros Hw H. unfold keeps_at, with_session, get.
  destruct (session (replica (app w))) eqn:Hs; [by apply H|].
  by apply keeps_at_throw.
Qed.

Lemma runs_at_with_session k w s :
  session (replica (app w)) = Some s -> runs_at J E (k s) w ->
  runs_at J E (with_session k) w.
Proof. intros Hs H. unfold runs_at, with_session, get. by rewrite Hs. Qed.

Lemma keeps_at_setTimer rep cb ms k w :
  keeps_at J E (k (next_timer w))
    (set_timers
       (timers w ++ [{| tid := next_timer w; delay := ms; callback := cb;
                        repeating := rep |}])
       (S (next_timer w)) w) ->
  keeps_at J E (setTimer rep cb ms k) w.
Proof. done. Qed.

Lemma keeps_at_resume k c w :
  J w ->
  (forall ks, remove_first k (pending w) = Some ks -> J (set_pending ks w)) ->
  keeps J E c ->
  keeps_at J E (resume k c) w.
Proof.
  intros Hw H Hc. unfold keeps_at, resume.
  destruct (remove_first k (pending w)) as [ks|] eqn:Hr.
  - by apply (Hc (set_pending ks w)), H.
  - simpl. split; [done|]. exists []. by rewrite app_nil_r.
Qed.

Lemma keeps_seq c1 c2 : keeps J E c1 -> keeps J E c2 -> keeps J E (c1 ;; c2).
Proof. intros H1 H2 w Hw. apply keeps_at_seq; [by apply H1 | done]. Qed.

Lemma runs_seq c1 c2 : runs J E c1 -> runs J E c2 -> runs J E (c1 ;; c2).
Proof. intros H1 H2 w Hw. apply runs_at_seq; [by apply H1 | done]. Qed.

Lemma runs_skip : runs J E skip.
Proof. intros w Hw. by apply runs_at_skip. Qed.

Lemma keeps_skip : keeps J E skip.
Proof. intros w Hw. by apply keeps_at_skip. Qed.

Lemma keeps_throw e : keeps J E (throw e).
Proof. intros w Hw. by apply keeps_at_throw. Qed.
End Rules.

(** Sequencing when the invariant changes on the way, and weakening. *)
Lemma runs_at_seq_gen J1 J2 E c1 c2 w :
  runs_at J1 E c1 w -> (forall w1, J1 w1 -> runs_at J2 E c2 w1) ->
  runs_at J2 E (c1 ;; c2) w.
Proof.
  intros (w1 & Hc & Hi & new1 & Ht & Hf) H2. unfold runs_at, seq.
  rewrite Hc.
  destruct (H2 w1 Hi) as (w2 & -> & Hi2 & new2 & Ht2 & Hf2).
  exists w2. split; [done|]. split; [done|].
  exists (new1 ++ new2). rewrite Ht2, Ht, <- app_assoc. split; [done|].
  by apply Forall_app.
Qed.

Lemma runs_at_weaken (J J' : World -> Prop) (E E' : Effect * App -> Prop) c w :
  runs_at J E c w -> (forall w', J w' -> J' w') -> (forall x, E x -> E' x) ->
  runs_at J' E' c w.
Proof.
  intros (w1 & Hc & Hi & new1 & Ht & Hf) HJ HE.
  exists w1. split; [done|]. split; [auto|]. exists new1. split; [done|].
  eapply Forall_impl; eauto.
Qed.

Lemma keeps_at_weaken (J J' : World -> Prop) (E E' : Effect * App -> Prop) c w :
  keeps_at J E c w -> (forall w', J w' -> J' w') -> (forall x, E x -> E' x) ->
  keeps_at J' E' c w.
Proof.
  intros (Hi & new1 & Ht & Hf) HJ HE. split; [auto|].
  exists new1. split; [done|]. eapply Forall_impl; eauto.
Qed.

Lemma seq_assoc c1 c2 c3 w : ((c1 ;; c2) ;; c3) w = (c1 ;; (c2 ;; c3)) w.
Proof. unfold seq. by destruct (c1 w). Qed.

(** A command that ends with one more effect. *)
Lemma runs_at_then_emit (J : World -> Prop) (E : Effect * App -> Prop)
    (c : Cmd) (e : Effect) (w : World) :
  runs_at J E c w ->
  exists w1 mid,
    (c ;; emit e) w = Done (set_trace (trace w1 ++ [(e, app w1)]) w1) /\
    J w1 /\ trace w1 = trace w ++ mid /\ Forall E mid.
Proof.
  intros (w1 & Hc & Hi & mid & Ht & Hf). exists w1, mid.
  unfold seq. rewrite Hc. done.
Qed.

Lemma keeps_at_new_WebSocket (J : World -> Prop) (E : Effect * App -> Prop)
    (w : World) :
  J w ->
  J (set_next_sock (S (next_sock w))
       (upd_app (upd_conn (set_ws
          (Some {| sock := next_sock w; readyState := CONNECTING |}))) w)) ->
  keeps_at J E new_WebSocket w.
Proof.
  intros Hw H. unfold keeps_at, new_WebSocket.
  destruct (ws_constructible w); simpl.
  - split; [done|]. exists []. by rewrite app_nil_r.
  - split; [done|]. exists []. by rewrite app_nil_r.
Qed.

Lemma keeps_at_fire (J : World -> Prop) (E : Effect * App -> Prop)
    (t : TimerId) (w : World) :
  J w ->
  J (set_timers (List.filter (fun y => negb (Nat.eqb (tid y) t)) (timers w))
       (next_timer w) w) ->
  (forall cb, keeps J E (run_callback cb)) ->
  keeps_at J E (fire t) w.
Proof.
  intros Hw Hf H. unfold keeps_at, fire.
  destruct (List.find _ _) as [x|] eqn:Hx.
  - destruct (repeating x).
    + by apply (H (callback x) w).
    + by apply (H (callback x) _ Hf).
  - simpl. split; [done|]. exists []. by rewrite app_nil_r.
Qed.

(** ** Automation: walk through a command, leaving to [side] what the
    invariant has to say about each assignment and each effect. *)

Ltac head_of c :=
  lazymatch c with
  | ?f _ => head_of f
  | _ => c
  end.

Ltac keeps_step side :=
  lazymatch goal with
  | |- keeps _ _ _ =>
      let w := fresh "w" in let Hw := fresh "Hw" in intros w Hw
  | |- keeps_at _ _ (_ ;; _) _ => apply keeps_at_seq
  | |- keeps_at _ _ (get _) _ => apply keeps_at_get; cbv beta
  | |- keeps_at _ _ skip _ => apply keeps_at_skip; side
  | |- keeps_at _ _ (throw _) _ => apply keeps_at_throw; side
  | |- keeps_at _ _ (emit _) _ => apply runs_keeps_at, runs_at_emit; side
  | |- keeps_at _ _ (modify _) _ => apply runs_keeps_at, runs_at_modify; side
  | |- keeps_at _ _ (await _) _ => apply runs_keeps_at, runs_at_await; side
  | |- keeps_at _ _ (async _) _ =>
      apply runs_keeps_at, runs_at_async; [|intros ? ? ?; side]
  | |- keeps_at _ _ (try_catch _ _) _ =>
      apply keeps_at_try_catch; [|intros ?]
  | |- keeps_at _ _ (with_session _) _ =>
      apply keeps_at_with_session; [side | intros ? ?]
  | |- keeps_at _ _ (for_each _ _) _ =>
      apply keeps_for_each; [intros ? | side]
  | |- keeps_at _ _ (setTimer _ _ _ _) _ => apply keeps_at_setTimer
  | |- keeps_at _ _ (setTimeout _ _ _) _ => apply keeps_at_setTimer
  | |- keeps_at _ _ (setInterval _ _ _) _ => apply keeps_at_setTimer
  | |- keeps_at _ _ (clearTimer _) _ =>
      apply runs_keeps_at, runs_at_clearTimer; [side | intros ? ?; side]
  | |- keeps_at _ _ (resume _ _) _ =>
      apply keeps_at_resume; [side | intros ? ?; side |]
  | |- keeps_at _ _ new_WebSocket _ => apply keeps_at_new_WebSocket; side
  | |- keeps_at _ _ (fire _) _ =>
      apply keeps_at_fire; [side | side | intros ?]
  | |- keeps_at _ _ (match ?x with _ => _ end) _ => destruct x eqn:?
  | |- keeps_at _ _ ?c _ => let h := head_of c in unfold h
  end.

Ltac keeps_auto side := repeat (keeps_step side).

(** The same with lemmas about whole commands tried first. *)
Ltac keeps_with hook side := repeat (first [hook | keeps_step side]).

(** * The replica: navigation and optimistic mutations *)

Ltac use_facts :=
  repeat match goal with
  | H : replica (app ?w) = _ |- context [replica (app ?w)] => rewrite H
  | H : session ?R = _ |- context [session ?R] => rewrite H
  | H : currentImage ?R = _ |- context [currentImage ?R] => rewrite H
  end.

Ltac frozen_side :=
  unfold frozen, at_replica, on_app, in_state in *; simpl in *;
  first [done | intuition congruence].

Ltac runs_step side :=
  lazymatch goal with
  | |- runs _ _ _ =>
      let w := fresh "w" in let Hw := fresh "Hw" in
      intros w Hw; try (unfold frozen, on_app in Hw; destruct Hw)
  | |- runs_at _ _ (_ ;; _) _ => apply runs_at_seq
  | |- runs_at _ _ (get _) _ => apply runs_at_get; cbv beta; use_facts
  | |- runs_at _ _ skip _ => apply runs_at_skip; side
  | |- runs_at _ _ (emit _) _ => apply runs_at_emit; side
  | |- runs_at _ _ (modify _) _ => apply runs_at_modify; side
  | |- runs_at _ _ (await _) _ => apply runs_at_await; side
  | |- runs_at _ _ (async _) _ => apply runs_at_async_runs
  | |- runs_at _ _ (with_session _) _ =>
      eapply runs_at_with_session; [use_facts; reflexivity|]
  | |- runs_at _ _ (match ?x with _ => _ end) _ => destruct x eqn:?
  end.

Ltac runs_frozen := repeat (runs_step frozen_side).

Section Frozen.
Variable R : Replica.
Variable C : Conn.
Variable s : SessionState.
Hypothesis Hs : session R = Some s.

Lemma runs_updateUI : runs (frozen R C) (at_replica R C) updateUI.
Proof.
  unfold updateUI, displayCurrentImage, updateImageInfo,
    updateProgress, updateClassButtonStates, updateDeletedOverlay,
    updateCommitCount, updateCommitButton.
  runs_frozen.
Qed.

Lemma runs_sendWebSocketMessage m :
  background (EvSend m) ->
  runs (frozen R C) (at_replica R C) (sendWebSocketMessage m).
Proof. intros Hm. unfold sendWebSocketMessage. runs_frozen. Qed.

Lemma runs_updateFolderContext f :
  runs (frozen R C) (at_replica R C) (updateFolderContext f).
Proof. unfold updateFolderContext. runs_frozen. Qed.

Lemma runs_updateChangeCount :
  runs (frozen R C) (at_replica R C) updateChangeCount.
Proof. unfold updateChangeCount. runs_frozen. Qed.

Lemma runs_prefetchImage i :
  runs (frozen R C) (at_replica R C) (prefetchImage i).
Proof. unfold prefetchImage. runs_frozen. Qed.

Lemma runs_cleanImageCache :
  runs (frozen R C) (at_replica R C) cleanImageCache.
Proof. unfold cleanImageCache. runs_frozen. Qed.

Lemma runs_prefetchImageAt index :
  0 <= index < js_length (images s) ->
  runs (frozen R C) (at_replica R C) (prefetchImageAt index).
Proof.
  intros Hi. unfold prefetchImageAt. runs_frozen.
  - by apply runs_prefetchImage.
  - exfalso. unfold js_index, js_length in *.
    destruct (index <? 0) eqn:E; [lia|].
    apply lookup_ge_None in Heqo. lia.
Qed.

Lemma runs_prefetchImages :
  js_length (images s) = 0 \/ 0 <= current_index s < js_length (images s) ->
  runs (frozen R C) (at_replica R C) prefetchImages.
Proof.
  intros Hc. unfold prefetchImages. runs_frozen.
  - apply runs_for_each; [|frozen_side]. intros i Hi.
    apply elem_of_seqZ in Hi. unfold CONFIG.PREFETCH_COUNT in Hi.
    intros w' Hw'.
    destruct (current_index s + i <? js_length (images s)) eqn:E1.
    + apply runs_prefetchImageAt; [lia | done].
    + by apply runs_at_skip.
  - apply runs_prefetchImageAt; [lia | frozen_side].
  - apply runs_cleanImageCache. frozen_side.
Qed.
End Frozen.

Lemma js_index_Some {A} (xs : list A) i :
  0 <= i < js_length xs -> is_Some (js_index xs i).
Proof.
  intros H. unfold js_index, js_length in *.
  destruct (i <? 0) eqn:E; [lia|]. apply lookup_lt_is_Some. lia.
Qed.

Lemma js_index_None {A} (xs : list A) i :
  i < 0 \/ js_length xs <= i -> js_index xs i = None.
Proof.
  intros H. unfold js_index, js_length in *.
  destruct (i <? 0) eqn:E; [done|]. apply lookup_ge_None. lia.
Qed.

Lemma js_index_range {A} (xs : list A) i x :
  js_index xs i = Some x -> 0 <= i < js_length xs.
Proof.
  unfold js_index, js_length. destruct (i <? 0) eqn:E; [done|].
  intros H%lookup_lt_Some. lia.
Qed.

(** [navigateToIndex] with an index inside the list: it returns, the
    replica is the navigated one, and every effect happens after the
    cursor has moved. *)
Lemma navigateToIndex_runs (w : World) (s : SessionState) (index : Z) :
  session (replica (app w)) = Some s ->
  0 <= index < js_length (images s) ->
  runs_at (frozen (navigated index s (replica (app w))) (conn (app w)))
          (at_replica (navigated index s (replica (app w))) (conn (app w)))
          (navigateToIndex index) w.
Proof.
  intros Hs Hi. unfold navigateToIndex.
  apply runs_at_get; cbv beta. rewrite Hs.
  replace ((index <? 0) || (js_length (images s) <=? index)) with false
    by (symmetry; apply orb_false_intro; lia).
  set (R := navigated index s (replica (app w))).
  assert (HR : session R = Some (set_current_index index s)) by done.
  apply runs_at_seq; [apply runs_at_modify; frozen_side|].
  apply runs_seq; [by eapply runs_updateUI|].
  apply runs_seq; [eapply runs_prefetchImages; [done|right; simpl; lia]|].
  apply runs_seq.
  - destruct (currentImage (replica (app w))), (js_index (images s) index);
      try (intros ? ?; by apply runs_at_skip).
    destruct (String.eqb _ _).
    + intros ? ?; by apply runs_at_skip.
    + apply runs_updateFolderContext.
  - by apply runs_sendWebSocketMessage.
Qed.

Lemma set_current_index_same s : set_current_index (current_index s) s = s.
Proof. by destruct s. Qed.

(** Where [navigateNext] and [navigatePrevious] leave the cursor. *)
Lemma navigateNext_runs (w : World) (s : SessionState) :
  session (replica (app w)) = Some s ->
  valid_cursor s ->
  (next_index s = current_index s /\ navigateNext w = Done w) \/
  (next_index s = current_index s + 1 /\
   current_index s + 1 < js_length (images s) /\
   runs_at (frozen (navigated (next_index s) s (replica (app w)))
                   (conn (app w)))
           (at_replica (navigated (next_index s) s (replica (app w)))
                       (conn (app w)))
           navigateNext w).
Proof.
  intros Hs Hv. unfold valid_cursor, next_index in *.
  destruct (js_length (images s) =? 0) eqn:E0; [lia|].
  destruct (Z.min (current_index s + 1) (js_length (images s) - 1)
            =? current_index s) eqn:E1.
  - left. split; [lia|]. unfold navigateNext, get. by rewrite Hs, E0, E1.
  - right. split; [lia|]. split; [lia|].
    unfold runs_at, navigateNext, get. rewrite Hs, E0, E1.
    apply navigateToIndex_runs; [done | lia].
Qed.

Lemma navigatePrevious_runs (w : World) (s : SessionState) :
  session (replica (app w)) = Some s ->
  valid_cursor s ->
  (prev_index s = current_index s /\ navigatePrevious w = Done w) \/
  (prev_index s = current_index s - 1 /\ 0 < current_index s /\
   runs_at (frozen (navigated (prev_index s) s (replica (app w)))
                   (conn (app w)))
           (at_replica (navigated (prev_index s) s (replica (app w)))
                       (conn (app w)))
           navigatePrevious w).
Proof.
  intros Hs Hv. unfold valid_cursor, prev_index in *.
  destruct (js_length (images s) =? 0) eqn:E0; [lia|].
  destruct (Z.max (current_index s - 1) 0 =? current_index s) eqn:E1.
  - left. split; [lia|]. unfold navigatePrevious, get. by rewrite Hs, E0, E1.
  - right. split; [lia|]. split; [lia|].
    unfold runs_at, navigatePrevious, get. rewrite Hs, E0, E1.
    apply navigateToIndex_runs; [done | lia].
Qed.

(** Outside the list, or without a session, [navigateToIndex] is a
    no-op. *)
Lemma navigateToIndex_noop (w : World) (index : Z) :
  (session (replica (app w)) = None \/
   exists s, session (replica (app w)) = Some s /\
             (index < 0 \/ js_length (images s) <= index)) ->
  navigateToIndex index w = Done w.
Proof.
  intros [Hn | (s & Hs & Hi)]; unfold navigateToIndex, get.
  - by rewrite Hn.
  - rewrite Hs.
    replace ((index <? 0) || (js_length (images s) <=? index)) with true;
      [done|].
    symmetry. apply orb_true_iff. lia.
Qed.

Lemma sendWebSocketMessage_emit m w :
  sendWebSocketMessage m w = emit (dispatch (app w) m) w.
Proof. unfold sendWebSocketMessage, get, dispatch. by destruct (ws_is_open _). Qed.

(** An optimistic mutation followed by [navigateNext] and the send: the
    shape shared by [labelImage] and [deleteImage].  Every effect before
    the last happens with the mutation in place and is not an intent
    message; the last one is the dispatch of [m], in the final state. *)
Lemma optimistic_runs (w : World) (s : SessionState) (l : loc)
    (f : ImageInfo -> ImageInfo) (ui_updates : Cmd) (m : WSMessage) :
  session (replica (app w)) = Some s ->
  valid_cursor s ->
  (forall R C, is_Some (session R) ->
     runs (frozen R C) (at_replica R C) ui_updates) ->
  let O := alter f l (objs (replica (app w))) in
  exists w' mid,
    (assign l f ;; ui_updates ;; navigateNext ;; sendWebSocketMessage m) w
      = Done w' /\
    trace w' = trace w ++ mid ++ [(dispatch (app w) m, app w')] /\
    Forall (fun e => objs (replica (snd e)) = O /\ background (fst e)) mid /\
    objs (replica (app w')) = O /\
    session (replica (app w')) = Some (set_current_index (next_index s) s) /\
    currentImage (replica (app w')) =
      (if decide (next_index s = current_index s)
       then currentImage (replica (app w))
       else js_index (images s) (next_index s)) /\
    conn (app w') = conn (app w).
Proof.
  intros Hs Hv Hui O.
  set (R1 := set_objs O (replica (app w))).
  set (C := conn (app w)).
  assert (H1 : runs_at (frozen R1 C) (at_replica R1 C)
                 (assign l f ;; ui_updates) w).
  { apply runs_at_seq; [apply runs_at_modify; frozen_side|].
    apply Hui. by exists s. }
  destruct H1 as (w1 & Hc1 & [HR1 HC1] & mid1 & Ht1 & Hf1).
  assert (Hs1 : session (replica (app w1)) = Some s) by (by rewrite HR1).
  assert (Hpre : exists w2 mid2,
    navigateNext w1 = Done w2 /\ trace w2 = trace w1 ++ mid2 /\
    Forall (fun e => objs (replica (snd e)) = O /\ background (fst e)) mid2 /\
    objs (replica (app w2)) = O /\
    session (replica (app w2)) = Some (set_current_index (next_index s) s) /\
    currentImage (replica (app w2)) =
      (if decide (next_index s = current_index s)
       then currentImage (replica (app w))
       else js_index (images s) (next_index s)) /\
    conn (app w2) = C).
  { destruct (navigateNext_runs w1 s Hs1 Hv) as [[Hn Hd] | (Hn & Hlt & Hr)].
    - exists w1, []. rewrite app_nil_r, Hn, set_current_index_same.
      rewrite decide_True by done. rewrite HR1. repeat split; try done.
    - destruct Hr as (w2 & Hc2 & [HR2 HC2] & mid2 & Ht2 & Hf2).
      exists w2, mid2. rewrite HR2, HC2, HR1. simpl.
      rewrite decide_False by lia. repeat split; try done.
      eapply Forall_impl; [exact Hf2|]. intros [e a] (Ha & _ & Hb).
      simpl in *. rewrite Ha, HR1. done. }
  destruct Hpre as (w2 & mid2 & Hc2 & Ht2 & Hf2 & HO & Hs2 & Hci & HC2).
  exists (set_trace (trace w2 ++ [(dispatch (app w) m, app w2)]) w2),
         (mid1 ++ mid2).
  split.
  { rewrite <- seq_assoc. unfold seq at 1. rewrite Hc1.
    unfold seq. rewrite Hc2, sendWebSocketMessage_emit. unfold emit.
    do 3 f_equal. unfold dispatch, ws_is_open. by rewrite HC2. }
  simpl. split; [by rewrite Ht2, Ht1, <- !app_assoc|].
  split; [|done].
  apply Forall_app. split; [|done].
  eapply Forall_impl; [exact Hf1|]. intros [e a] (Ha & _ & Hb).
  simpl in *. by rewrite Ha.
Qed.

Lemma seq_ext (c1 c2 c2' : Cmd) w :
  (forall w', c2 w' = c2' w') -> (c1 ;; c2) w = (c1 ;; c2') w.
Proof. intros H. unfold seq. destruct (c1 w); [apply H | done]. Qed.

Lemma async_done c w w' : c w = Done w' -> async c w = Done w'.
Proof. intros H. unfold async, try_catch. by rewrite H. Qed.

Lemma labelImage_runs (w : World) (s : SessionState) (l : loc)
    (img : ImageInfo) (classIndex : Z) :
  session (replica (app w)) = Some s ->
  valid_cursor s ->
  currentImage (replica (app w)) = Some l ->
  objs (replica (app w)) !! l = Some img ->
  let f := labelled (Some classIndex) (class_entry s classIndex) in
  let O := alter f l (objs (replica (app w))) in
  exists w' mid,
    labelImage classIndex w = Done w' /\
    trace w' = trace w ++ mid ++
      [(dispatch (app w) (MsgLabel (id img) classIndex), app w')] /\
    Forall (fun e => objs (replica (snd e)) = O /\ background (fst e)) mid /\
    objs (replica (app w')) = O /\
    session (replica (app w')) = Some (set_current_index (next_index s) s) /\
    currentImage (replica (app w')) =
      (if decide (next_index s = current_index s)
       then currentImage (replica (app w))
       else js_index (images s) (next_index s)) /\
    conn (app w') = conn (app w).
Proof.
  intros Hs Hv Hc Hl f O.
  destruct (optimistic_runs w s l f
              (updateImageInfo ;; updateClassButtonStates ;;
               flashButton (RFlashClass classIndex))
              (MsgLabel (id img) classIndex) Hs Hv)
    as (w' & mid & Hrun & Hrest).
  { intros R C [s' Hs']. unfold updateImageInfo, updateClassButtonStates,
      flashButton. runs_frozen. }
  exists w', mid. split; [|exact Hrest].
  unfold labelImage. apply async_done. unfold get. rewrite Hc.
  unfold with_session, get. rewrite Hs.
  rewrite (lookup_total_correct _ _ _ Hl).
  rewrite <- Hrun. apply seq_ext. intros w1.
  unfold seq. destruct (updateImageInfo w1); [|done].
  by destruct (updateClassButtonStates w0).
Qed.

Lemma deleteImage_runs (w : World) (s : SessionState) (l : loc)
    (img : ImageInfo) :
  session (replica (app w)) = Some s ->
  valid_cursor s ->
  currentImage (replica (app w)) = Some l ->
  objs (replica (app w)) !! l = Some img ->
  let O := alter deleted l (objs (replica (app w))) in
  exists w' mid,
    deleteImage w = Done w' /\
    trace w' = trace w ++ mid ++
      [(dispatch (app w) (MsgDelete (id img)), app w')] /\
    Forall (fun e => objs (replica (snd e)) = O /\ background (fst e)) mid /\
    objs (replica (app w')) = O /\
    session (replica (app w')) = Some (set_current_index (next_index s) s) /\
    currentImage (replica (app w')) =
      (if decide (next_index s = current_index s)
       then currentImage (replica (app w))
       else js_index (images s) (next_index s)) /\
    conn (app w') = conn (app w).
Proof.
  intros Hs Hv Hc Hl O.
  destruct (optimistic_runs w s l deleted
              (updateImageInfo ;; updateDeletedOverlay ;;
               flashButton RFlashDelete)
              (MsgDelete (id img)) Hs Hv)
    as (w' & mid & Hrun & Hrest).
  { intros R C [s' Hs']. unfold updateImageInfo, updateDeletedOverlay,
      flashButton. runs_frozen. }
  exists w', mid. split; [|exact Hrest].
  unfold deleteImage. apply async_done. unfold get. rewrite Hc.
  rewrite (lookup_total_correct _ _ _ Hl).
  rewrite <- Hrun. apply seq_ext. intros w1.
  unfold seq. destruct (updateImageInfo w1); [|done].
  by destruct (updateDeletedOverlay w0).
Qed.

(** C1 (as amended).  On a session with a current image and the cursor
    inside the list, [labelImage] returns at once and: the current image
    carries the given class index, the matching entry of the class list
    and no deletion mark; every effect of the call happens with that
    mutation already in place; the cursor is on the next image, or still
    on the last one when there is no next; and the last effect of the call
    is the hand-over of the label message to the socket, in the final
    state: it is sent when the socket is open and dropped with a console
    warning otherwise.  No other effect of the call is an intent message.
    [deleteImage] does the same with the deletion mark set and label and
    class name null. *)
Theorem C1_optimistic_update_then_dispatch (w : World) (s : SessionState)
    (l : loc) (img : ImageInfo) (classIndex : Z) :
  session (replica (app w)) = Some s ->
  valid_cursor s ->
  currentImage (replica (app w)) = Some l ->
  objs (replica (app w)) !! l = Some img ->
  (exists w' mid,
     labelImage classIndex w = Done w' /\
     trace w' = trace w ++ mid ++
       [(dispatch (app w) (MsgLabel (id img) classIndex), app w')] /\
     Forall (fun e =>
       objs (replica (snd e)) !! l
         = Some (labelled (Some classIndex) (class_entry s classIndex) img)
       /\ background (fst e)) mid /\
     objs (replica (app w')) !! l
       = Some (labelled (Some classIndex) (class_entry s classIndex) img) /\
     (forall l', l' <> l ->
        objs (replica (app w')) !! l' = objs (replica (app w)) !! l') /\
     session (replica (app w')) = Some (set_current_index (next_index s) s))
  /\
  (exists w' mid,
     deleteImage w = Done w' /\
     trace w' = trace w ++ mid ++
       [(dispatch (app w) (MsgDelete (id img)), app w')] /\
     Forall (fun e =>
       objs (replica (snd e)) !! l = Some (deleted img)
       /\ background (fst e)) mid /\
     objs (replica (app w')) !! l = Some (deleted img) /\
     (forall l', l' <> l ->
        objs (replica (app w')) !! l' = objs (replica (app w)) !! l') /\
     session (replica (app w')) = Some (set_current_index (next_index s) s)).
Proof.
  intros Hs Hv Hc Hl. split.
  - destruct (labelImage_runs w s l img classIndex Hs Hv Hc Hl)
      as (w' & mid & Hrun & Ht & Hf & HO & Hs' & _).
    exists w', mid. split; [done|]. split; [done|].
    assert (Hl' : forall O, O = alter
              (labelled (Some classIndex) (class_entry s classIndex)) l
              (objs (replica (app w))) ->
            O !! l = Some (labelled (Some classIndex)
                             (class_entry s classIndex) img)).
    { intros O ->. by rewrite lookup_alter_eq, Hl. }
    split; [|split; [by apply Hl'|split; [|done]]].
    + eapply Forall_impl; [exact Hf|]. intros e [He Hb]. split; [|done].
      by apply Hl'.
    + intros l' Hne. rewrite HO. by apply lookup_alter_ne.
  - destruct (deleteImage_runs w s l img Hs Hv Hc Hl)
      as (w' & mid & Hrun & Ht & Hf & HO & Hs' & _).
    exists w', mid. split; [done|]. split; [done|].
    assert (Hl' : forall O, O = alter deleted l (objs (replica (app w))) ->
            O !! l = Some (deleted img)).
    { intros O ->. by rewrite lookup_alter_eq, Hl. }
    split; [|split; [by apply Hl'|split; [|done]]].
    + eapply Forall_impl; [exact Hf|]. intros e [He Hb]. split; [|done].
      by apply Hl'.
    + intros l' Hne. rewrite HO. by apply lookup_alter_ne.
Qed.

(** On the sample session, connected, the label goes out. *)
Lemma C1_optimistic_update_then_dispatch_witness :
  exists w' mid,
    labelImage 1 sample_world = Done w' /\
    trace w' = trace sample_world ++ mid ++
      [(dispatch (app sample_world) (MsgLabel "a/x.png" 1), app w')] /\
    objs (replica (app w')) !! 0%nat
      = Some (labelled (Some 1) (JStr "dog") (fresh_image "a/x.png")) /\
    session (replica (app w')) = Some (sample_session 1).
Proof.
  destruct (C1_optimistic_update_then_dispatch sample_world (sample_session 0)
              0%nat (fresh_image "a/x.png") 1)
    as [(w' & mid & H1 & H2 & _ & H4 & _ & H6) _].
  - reflexivity.
  - unfold valid_cursor, js_length. simpl. lia.
  - reflexivity.
  - reflexivity.
  - exists w', mid. repeat split; assumption.
Defined.

(** C1 as first stated fails without a connection: the label is applied
    locally but no message leaves, and on the last image the cursor does
    not move. *)
Lemma C1_counterexample :
  let w' := world_of (labelImage 0 offline_world) in
  currentImage (replica (app offline_world)) = Some 2%nat /\
  label (objs (replica (app w')) !!! 2%nat) = Some 0 /\
  sent w' = [] /\
  current_index <$> session (replica (app w')) = Some 2.
Proof. vm_compute. repeat split; reflexivity. Qed.

(** C9.  On a session with at least one image and the cursor inside the
    list, [navigateNext] and [navigatePrevious] return and leave the same
    image list with the cursor on [min (i+1) (n-1)] and [max (i-1) 0],
    both inside [0 .. n-1]; and [navigateToIndex] with an index outside
    the list, or without a session, returns the world it was given: no
    field changes and nothing is added to the history, so no message is
    sent. *)
Theorem C9_cursor_stays_valid (w : World) (s : SessionState) :
  session (replica (app w)) = Some s ->
  images s <> [] ->
  valid_cursor s ->
  (exists w',
     navigateNext w = Done w' /\
     session (replica (app w')) = Some (set_current_index (next_index s) s) /\
     valid_cursor (set_current_index (next_index s) s)) /\
  (exists w',
     navigatePrevious w = Done w' /\
     session (replica (app w')) = Some (set_current_index (prev_index s) s) /\
     valid_cursor (set_current_index (prev_index s) s)) /\
  (forall w0 index,
     (session (replica (app w0)) = None \/
      exists s0, session (replica (app w0)) = Some s0 /\
                 (index < 0 \/ js_length (images s0) <= index)) ->
     navigateToIndex index w0 = Done w0).
Proof.
  intros Hs _ Hv. split; [|split].
  - assert (Hr : valid_cursor (set_current_index (next_index s) s)).
    { unfold valid_cursor, next_index in *. simpl. lia. }
    destruct (navigateNext_runs w s Hs Hv) as [[Hn Hd] | (Hn & Hlt & Hrun)].
    + exists w. rewrite Hn, set_current_index_same in *. done.
    + destruct Hrun as (w' & Hc & [HR _] & _). exists w'.
      split; [done|]. split; [|done]. by rewrite HR.
  - assert (Hr : valid_cursor (set_current_index (prev_index s) s)).
    { unfold valid_cursor, prev_index in *. simpl. lia. }
    destruct (navigatePrevious_runs w s Hs Hv) as [[Hn Hd] | (Hn & Hlt & Hrun)].
    + exists w. rewrite Hn, set_current_index_same in *. done.
    + destruct Hrun as (w' & Hc & [HR _] & _). exists w'.
      split; [done|]. split; [|done]. by rewrite HR.
  - intros w0 index. apply navigateToIndex_noop.
Qed.

(** On the sample session: from the last image [navigateNext] stays on
    index 2, [navigatePrevious] goes to index 1, and index 3 is refused. *)
Lemma C9_cursor_stays_valid_witness :
  (exists w',
     navigateNext (world_with (sample_app 2 open_socket)) = Done w' /\
     session (replica (app w')) = Some (sample_session 2)) /\
  (exists w',
     navigatePrevious (world_with (sample_app 2 open_socket)) = Done w' /\
     session (replica (app w')) = Some (sample_session 1)) /\
  navigateToIndex 3 (world_with (sample_app 2 open_socket))
    = Done (world_with (sample_app 2 open_socket)).
Proof.
  destruct (C9_cursor_stays_valid (world_with (sample_app 2 open_socket))
              (sample_session 2))
    as ((w1 & H1 & H2 & _) & (w2 & H3 & H4 & _) & H5).
  - reflexivity.
  - discriminate.
  - unfold valid_cursor, js_length. simpl. lia.
  - split; [by exists w1|]. split; [by exists w2|].
    apply H5. right. exists (sample_session 2). split; [reflexivity|].
    right. unfold js_length. simpl. lia.
Defined.

Lemma handleClassKey_unfold (w : World) (s : SessionState) (k : Z) :
  session (replica (app w)) = Some s ->
  handleClassKey k w =
    if js_length (classes s) <=? class_of_key s k
    then showToast (ToastClassNotDefined (class_of_key s k + 1)) w
    else labelImage (class_of_key s k) w.
Proof.
  intros Hs. unfold handleClassKey, with_session, get. rewrite Hs.
  unfold class_of_key. by destruct (_ <=? _).
Qed.

(** C10.  With a class list of [c >= 1] names: a key [k] in [1 .. 9] with
    [k - 1 < c] is [labelImage (k - 1)]; with [k - 1 >= c] it only shows
    the warning and changes nothing else; key [0] is
    [labelImage (min 9 (c - 1))], an index inside the list.  So the index
    that reaches [labelImage] is always inside the class list, and the
    current image gets that index and the class name of that entry. *)
Theorem C10_class_keys (w : World) (s : SessionState) :
  session (replica (app w)) = Some s ->
  1 <= js_length (classes s) ->
  (forall k, 1 <= k <= 9 ->
     (k - 1 < js_length (classes s) ->
        handleClassKey k w = labelImage (k - 1) w) /\
     (js_length (classes s) <= k - 1 ->
        handleClassKey k w =
          Done (set_trace
                  (trace w ++ [(EvToast (ToastClassNotDefined k), app w)])
                  w))) /\
  (handleClassKey 0 w = labelImage (Z.min 9 (js_length (classes s) - 1)) w /\
   0 <= Z.min 9 (js_length (classes s) - 1) < js_length (classes s)) /\
  (forall k l img,
     0 <= k <= 9 -> class_of_key s k < js_length (classes s) ->
     valid_cursor s ->
     currentImage (replica (app w)) = Some l ->
     objs (replica (app w)) !! l = Some img ->
     exists w' c,
       handleClassKey k w = Done w' /\
       js_index (classes s) (class_of_key s k) = Some c /\
       objs (replica (app w')) !! l
         = Some (labelled (Some (class_of_key s k)) (JStr c) img)).
Proof.
  intros Hs Hc. split; [|split].
  - intros k Hk. rewrite (handleClassKey_unfold w s k Hs).
    unfold class_of_key. replace (k =? 0) with false by lia.
    split; intros H.
    + by replace (js_length (classes s) <=? k - 1) with false by lia.
    + replace (js_length (classes s) <=? k - 1) with true by lia.
      unfold showToast, emit. by replace (k - 1 + 1) with k by lia.
  - rewrite (handleClassKey_unfold w s 0 Hs). unfold class_of_key. simpl.
    split; [|lia].
    by replace (js_length (classes s) <=? Z.min 9 (js_length (classes s) - 1))
      with false by lia.
  - intros k l img Hk Hlt Hv Hcur Hl.
    assert (Hge : 0 <= class_of_key s k).
    { unfold class_of_key. destruct (k =? 0) eqn:E; lia. }
    destruct (js_index_Some (classes s) (class_of_key s k)) as [c Hcl]; [lia|].
    destruct (labelImage_runs w s l img (class_of_key s k) Hs Hv Hcur Hl)
      as (w' & mid & Hrun & _ & _ & HO & _).
    exists w', c. rewrite (handleClassKey_unfold w s k Hs).
    replace (js_length (classes s) <=? class_of_key s k) with false by lia.
    split; [done|]. split; [done|].
    rewrite HO, lookup_alter_eq, Hl. simpl. unfold class_entry. by rewrite Hcl.
Qed.

(** On the sample session (two classes): key 2 labels with index 1, key 3
    only warns, key 0 labels with index 1. *)
Lemma C10_class_keys_witness :
  handleClassKey 2 sample_world = labelImage 1 sample_world /\
  handleClassKey 3 sample_world =
    Done (set_trace
            (trace sample_world ++
               [(EvToast (ToastClassNotDefined 3), app sample_world)])
            sample_world) /\
  handleClassKey 0 sample_world = labelImage 1 sample_world /\
  exists w',
    handleClassKey 2 sample_world = Done w' /\
    objs (replica (app w')) !! 0%nat
      = Some (labelled (Some 1) (JStr "dog") (fresh_image "a/x.png")).
Proof.
  destruct (C10_class_keys sample_world (sample_session 0))
    as (H1 & [H2 _] & H3).
  - reflexivity.
  - unfold js_length. simpl. lia.
  - split; [apply (H1 2); unfold js_length; simpl; lia|].
    split; [apply (H1 3); unfold js_length; simpl; lia|].
    split; [exact H2|].
    destruct (H3 2 0%nat (fresh_image "a/x.png")) as (w' & c & Ha & Hb & Hc).
    + lia.
    + unfold class_of_key, js_length. simpl. lia.
    + unfold valid_cursor, js_length. simpl. lia.
    + reflexivity.
    + reflexivity.
    + exists w'. split; [done|].
      assert (c = "dog") as -> by (vm_compute in Hb; congruence).
      exact Hc.
Defined.

(** * Reconciliation *)

Lemma runs_updateProgress R C :
  runs (frozen R C) (at_replica R C) updateProgress.
Proof. unfold updateProgress. runs_frozen. Qed.

(** The shape shared by [handleImageLabeled] and [handleImageDeleted]. *)
Lemma reconcile_replica (f : ImageInfo -> ImageInfo) (image_id : string)
    (w : World) :
  replica (app (world_of
    (with_session (fun s =>
       get (fun this =>
         match find_image (objs (replica this)) (images s) image_id with
         | Some l => assign l f
         | None => skip
         end) ;;
       updateProgress ;; updateChangeCount) w)))
  = reconcile f image_id (replica (app w)).
Proof.
  unfold with_session, get, reconcile.
  destruct (session (replica (app w))) as [s|] eqn:Hs; [|done].
  set (R1 := match find_image (objs (replica (app w))) (images s) image_id with
             | Some l => set_objs (alter f l (objs (replica (app w))))
                           (replica (app w))
             | None => replica (app w)
             end).
  assert (H : runs_at (frozen R1 (conn (app w))) (at_replica R1 (conn (app w)))
    ((fun w0 => match find_image (objs (replica (app w0))) (images s) image_id with
                | Some l => assign l f
                | None => skip
                end w0) ;; updateProgress ;; updateChangeCount) w).
  { apply runs_at_seq.
    - unfold runs_at. cbv beta. subst R1. destruct (find_image _ _ _).
      + apply runs_at_modify. frozen_side.
      + apply runs_at_skip. frozen_side.
    - apply runs_seq; [apply runs_updateProgress|].
      apply runs_updateChangeCount. }
  destruct H as (w' & Hc & [HR _] & _). rewrite Hc. done.
Qed.

Lemma handleImageLabeled_replica (p : LabeledPayload) (w : World) :
  replica (app (world_of (handleImageLabeled p w)))
  = reconcile (labelled (lp_class_index p) (lp_class_name p))
      (lp_image_id p) (replica (app w)).
Proof. apply reconcile_replica. Qed.

Lemma handleImageDeleted_replica (p : DeletedPayload) (w : World) :
  replica (app (world_of (handleImageDeleted p w)))
  = reconcile deleted (dp_image_id p) (replica (app w)).
Proof. apply reconcile_replica. Qed.

(** Overwriting fields other than [id] does not change what [find]
    finds. *)
Lemma find_image_alter (f : ImageInfo -> ImageInfo) (o : gmap loc ImageInfo)
    (l : loc) (imgs : list loc) (image_id : string) :
  (forall img, id (f img) = id img) ->
  find_image (alter f l o) imgs image_id = find_image o imgs image_id.
Proof.
  intros Hid. unfold find_image. induction imgs as [|x xs IH]; [done|].
  simpl. rewrite IH.
  replace (id (alter f l o !!! x)) with (id (o !!! x)); [done|].
  destruct (decide (l = x)) as [->|Hne].
  - rewrite lookup_total_alter_eq, lookup_total_alt.
    destruct (o !! x); simpl; [by rewrite Hid | done].
  - by rewrite lookup_total_alter_ne.
Qed.

Lemma reconcile_idempotent (f : ImageInfo -> ImageInfo) (image_id : string)
    (R : Replica) :
  (forall img, id (f img) = id img) ->
  (forall img, f (f img) = f img) ->
  reconcile f image_id (reconcile f image_id R) = reconcile f image_id R.
Proof.
  intros Hid Hff. unfold reconcile.
  destruct (session R) as [s|] eqn:Hs; [|by rewrite Hs].
  destruct (find_image (objs R) (images s) image_id) as [l|] eqn:Hf.
  - simpl. rewrite Hs, find_image_alter, Hf by done. simpl.
    unfold set_objs. simpl. f_equal.
    rewrite alter_alter_eq. apply alter_ext. intros x _. apply Hff.
  - by rewrite Hs, Hf.
Qed.

(** C3.  Applying [handleImageLabeled] a second time with the same payload
    leaves the replica (every image object, the session and the current
    image) as the first application left it, whatever the replica was;
    and the image that the payload names ends with the payload's class
    index and class name and with no deletion mark, whatever it held
    before.  The same for [handleImageDeleted], which ends with the
    deletion mark set and label and class name null. *)
Theorem C3_reconciliation_idempotent (w : World) :
  (forall p : LabeledPayload,
     let w1 := world_of (handleImageLabeled p w) in
     replica (app (world_of (handleImageLabeled p w1))) = replica (app w1) /\
     forall s l img,
       session (replica (app w)) = Some s ->
       find_image (objs (replica (app w))) (images s) (lp_image_id p) = Some l ->
       objs (replica (app w)) !! l = Some img ->
       exists img',
         objs (replica (app w1)) !! l = Some img' /\
         id img' = id img /\
         label img' = lp_class_index p /\
         class_name img' = lp_class_name p /\
         marked_for_deletion img' = false) /\
  (forall p : DeletedPayload,
     let w1 := world_of (handleImageDeleted p w) in
     replica (app (world_of (handleImageDeleted p w1))) = replica (app w1) /\
     forall s l img,
       session (replica (app w)) = Some s ->
       find_image (objs (replica (app w))) (images s) (dp_image_id p) = Some l ->
       objs (replica (app w)) !! l = Some img ->
       exists img',
         objs (replica (app w1)) !! l = Some img' /\
         id img' = id img /\
         label img' = None /\
         class_name img' = JNull /\
         marked_for_deletion img' = true).
Proof.
  split; intros p w1; subst w1.
  - split.
    + rewrite !handleImageLabeled_replica. by apply reconcile_idempotent.
    + intros s l img Hs Hf Hl. rewrite handleImageLabeled_replica.
      unfold reconcile. rewrite Hs, Hf. simpl.
      rewrite lookup_alter_eq, Hl. simpl. eexists. split; [done|]. done.
  - split.
    + rewrite !handleImageDeleted_replica. by apply reconcile_idempotent.
    + intros s l img Hs Hf Hl. rewrite handleImageDeleted_replica.
      unfold reconcile. rewrite Hs, Hf. simpl.
      rewrite lookup_alter_eq, Hl. simpl. eexists. split; [done|]. done.
Qed.

(** * The invariants of the session's images *)

Lemma session_ok_navigated index s R :
  session R = Some s -> session_ok R ->
  session_ok (set_currentImage (js_index (images s) index)
                (set_session (Some (set_current_index index s)) R)).
Proof.
  intros Hs H s' l img Hs' Hl Ho. simpl in *. injection Hs' as <-.
  destruct (H s l img Hs Hl Ho) as [H1 H2]. split; [done|]. exact H2.
Qed.

Lemma session_ok_alter (f : ImageInfo -> ImageInfo) l R :
  session_ok R ->
  (forall s img, session R = Some s -> image_ok s (f img)) ->
  session_ok (set_objs (alter f l (objs R)) R).
Proof.
  intros H Hf s l' img Hs Hl Ho. simpl in *.
  destruct (decide (l = l')) as [->|Hne].
  - rewrite lookup_alter_eq in Ho.
    destruct (objs R !! l') as [img0|] eqn:E; [|done].
    simpl in Ho. injection Ho as <-. by apply Hf.
  - rewrite lookup_alter_ne in Ho by done. by eapply H.
Qed.

Lemma image_ok_labelled s v n img :
  (forall i, v = Some i -> 0 <= i < js_length (classes s)) ->
  image_ok s (labelled v n img).
Proof. intros H. split; [done|]. simpl. exact H. Qed.

Lemma image_ok_deleted s img : image_ok s (deleted img).
Proof. split; simpl; [done | discriminate]. Qed.

Ltac ok_side :=
  unfold ok_world, on_app, any_effect in *; simpl in *;
  first [ done
        | assumption
        | apply session_ok_navigated; assumption
        | apply session_ok_alter;
          [ assumption
          | intros; first [ apply image_ok_deleted
                          | apply image_ok_labelled; intros; simplify_eq; eauto ] ] ].

(** C2 (as amended).  Each of the four replica operations preserves the
    invariant that no image of the session has both a label and a
    deletion mark and that every label is an index of the class list,
    provided the class index it is given (the argument of [labelImage],
    the [class_index] of the broadcast) is an index of the class list;
    the replica itself does not check that index. *)
Theorem C2_label_delete_exclusive (w : World) :
  session_ok (replica (app w)) ->
  (forall classIndex,
     valid_class (replica (app w)) classIndex ->
     session_ok (replica (app (world_of (labelImage classIndex w))))) /\
  session_ok (replica (app (world_of (deleteImage w)))) /\
  (forall p : LabeledPayload,
     (forall i, lp_class_index p = Some i -> valid_class (replica (app w)) i) ->
     session_ok (replica (app (world_of (handleImageLabeled p w))))) /\
  (forall p : DeletedPayload,
     session_ok (replica (app (world_of (handleImageDeleted p w))))).
Proof.
  intros Hok. split; [|split; [|split]].
  - intros classIndex Hv.
    assert (H : keeps_at ok_world any_effect (labelImage classIndex) w).
    { keeps_auto ok_side. }
    apply H.
  - assert (H : keeps_at ok_world any_effect deleteImage w).
    { keeps_auto ok_side. }
    apply H.
  - intros p Hv. rewrite handleImageLabeled_replica. unfold reconcile.
    destruct (session (replica (app w))) as [s|] eqn:Hs; [|done].
    destruct (find_image _ _ _); [|done].
    apply session_ok_alter; [done|]. intros s' img Hs'.
    apply image_ok_labelled. intros i Hi. by apply (Hv i).
  - intros p. rewrite handleImageDeleted_replica. unfold reconcile.
    destruct (session (replica (app w))) as [s|] eqn:Hs; [|done].
    destruct (find_image _ _ _); [|done].
    apply session_ok_alter; [done|]. intros. apply image_ok_deleted.
Qed.

Lemma sample_session_ok : session_ok (replica (app sample_world)).
Proof.
  intros s l img Hs Hl Ho. injection Hs as <-. simpl in Hl.
  assert (img = fresh_image "a/x.png" \/ img = fresh_image "a/y.png" \/
          img = fresh_image "b/z.png") as Himg.
  { set_unfold. destruct Hl as [->|[->|[->|[]]]]; vm_compute in Ho;
      injection Ho as <-; auto. }
  destruct Himg as [->|[->| ->]]; split; simpl; done.
Qed.

(** On the sample session: labelling with class 1 and a broadcast with
    class 0 keep the invariant. *)
Lemma C2_label_delete_exclusive_witness :
  session_ok (replica (app (world_of (labelImage 1 sample_world)))) /\
  session_ok (replica (app (world_of
    (handleImageLabeled
       {| lp_image_id := "a/y.png"; lp_class_index := Some 0;
          lp_class_name := JStr "cat" |} sample_world)))).
Proof.
  destruct (C2_label_delete_exclusive sample_world sample_session_ok)
    as (H1 & _ & H3 & _).
  split.
  - apply H1. intros s Hs. injection Hs as <-. unfold js_length. simpl. lia.
  - apply H3. intros i Hi s Hs. injection Hi as <-. injection Hs as <-.
    unfold js_length. simpl. lia.
Defined.

(** C2 as first stated fails: the replica copies the class index of a
    broadcast without looking at the class list, so a broadcast with
    index 5 on a session of two classes leaves a label that is no index
    of the list. *)
Lemma C2_counterexample :
  session_ok (replica (app sample_world)) /\
  ~ session_ok (replica (app (world_of
      (handleImageLabeled stray_payload sample_world)))).
Proof.
  split; [exact sample_session_ok|]. intros H.
  destruct (H (sample_session 0) 1%nat
              (labelled (Some 5) (JStr "bird") (fresh_image "a/y.png")))
    as [_ H2].
  - reflexivity.
  - set_solver.
  - vm_compute. reflexivity.
  - specialize (H2 5 eq_refl). unfold js_length in H2. simpl in H2. lia.
Qed.

(** On the sample session: a broadcast for the second image. *)
Lemma C3_reconciliation_idempotent_witness :
  let p := {| lp_image_id := "a/y.png"; lp_class_index := Some 0;
              lp_class_name := JStr "cat" |} in
  let w1 := world_of (handleImageLabeled p sample_world) in
  replica (app (world_of (handleImageLabeled p w1))) = replica (app w1) /\
  exists img',
    objs (replica (app w1)) !! 1%nat = Some img' /\
    label img' = Some 0 /\ class_name img' = JStr "cat" /\
    marked_for_deletion img' = false.
Proof.
  intros p w1.
  destruct (C3_reconciliation_idempotent sample_world) as [H _].
  destruct (H p) as [H1 H2]. split; [exact H1|].
  destruct (H2 (sample_session 0) 1%nat (fresh_image "a/y.png"))
    as (img' & Ha & _ & Hb & Hc & Hd).
  - reflexivity.
  - vm_compute. reflexivity.
  - vm_compute. reflexivity.
  - exists img'. auto.
Defined.

(** * The prefetch cache *)

Lemma map_delete_first b m : map_delete (fst b) (b :: m) = m.
Proof. simpl. by rewrite String.eqb_refl. Qed.

(** The loop of [cleanImageCache] ends within one round per binding, and
    what it leaves is the list without its first [length - 10]
    bindings. *)
Lemma cleanImageCache_loop_enough (fuel : nat) (m : list (string * string)) :
  (length m - CONFIG.CACHE_MAX_SIZE < fuel)%nat ->
  cleanImageCache_loop fuel m
    = Some (drop (length m - CONFIG.CACHE_MAX_SIZE) m).
Proof.
  unfold CONFIG.CACHE_MAX_SIZE.
  revert m. induction fuel as [|fuel IH]; intros m Hf; [lia|].
  cbn [cleanImageCache_loop]. unfold CONFIG.CACHE_MAX_SIZE.
  destruct (10 <? length m)%nat eqn:E.
  - apply Nat.ltb_lt in E. destruct m as [|b m]; [cbn [length] in E; lia|].
    cbn [map_first_key]. cbn [length] in *.
    rewrite map_delete_first, IH by lia.
    f_equal.
    replace (S (length m) - 10)%nat with (S (length m - 10)) by lia.
    done.
  - apply Nat.ltb_ge in E.
    replace (length m - 10)%nat with 0%nat by lia. done.
Qed.

Lemma cleanImageCache_done (w : World) :
  cleanImageCache w =
    Done (upd_app (upd_cache (set_imageCache
            (drop (length (imageCache (cache (app w))) - CONFIG.CACHE_MAX_SIZE)
                  (imageCache (cache (app w)))))) w).
Proof.
  unfold cleanImageCache, get.
  by rewrite cleanImageCache_loop_enough by lia.
Qed.

(** Re-setting a key that is there keeps its place in the order. *)
Lemma map_set_keeps_order k v m :
  map_has k m = true -> map fst (map_set k v m) = map fst m.
Proof.
  induction m as [|b m IH]; [done|]. unfold map_has. simpl.
  destruct (String.eqb (fst b) k) eqn:E.
  - intros _. simpl. apply String.eqb_eq in E. by rewrite E.
  - simpl. intros H. f_equal. by apply IH.
Qed.

Lemma prefetchImage_request x w : prefetchImage x w = Done (request w x).
Proof.
  unfold prefetchImage, get, request, cached, in_flight_set.
  by destruct (_ || _).
Qed.

Lemma for_each_prefetchImage ids w :
  for_each ids prefetchImage w = Done (fold_left request ids w).
Proof.
  revert w. induction ids as [|x ids IH]; intros w; [done|].
  simpl. unfold seq. by rewrite prefetchImage_request, IH.
Qed.

Lemma request_replica w x : replica (app (request w x)) = replica (app w).
Proof. unfold request. by destruct (_ || _). Qed.

Lemma request_cache w x :
  imageCache (cache (app (request w x))) = imageCache (cache (app w)).
Proof. unfold request. by destruct (_ || _). Qed.

(** A run of requests starts one fetch for each id that is neither cached
    nor in flight, once. *)
Lemma fold_request_spec ids w :
  let w' := fold_left request ids w in
  replica (app w') = replica (app w) /\
  imageCache (cache (app w')) = imageCache (cache (app w)) /\
  exists started new,
    NoDup started /\
    (forall x, x ∈ started <->
       x ∈ ids /\ cached w x = false /\ x ∉ in_flight_set w) /\
    in_flight_set w' = in_flight_set w ∪ list_to_set started /\
    pending w' = pending w ++ map KImage started /\
    trace w' = trace w ++ new /\
    map fst new = map EvImageSrc started.
Proof.
  revert w. induction ids as [|x ids IH]; intros w; simpl.
  { split; [done|]. split; [done|]. exists [], []. simpl.
    rewrite !app_nil_r. split; [constructor|]. split; [set_solver|].
    split; [set_solver|]. done. }
  destruct (IH (request w x))
    as (HR & HC & started & new & Hnd & Hin & HP & Hp & Ht & Hm).
  rewrite request_replica in HR. rewrite request_cache in HC.
  split; [done|]. split; [done|].
  unfold request in *.
  destruct (cached w x || bool_decide (x ∈ in_flight_set w)) eqn:E.
  - exists started, new. split; [done|]. split; [|done].
    intros y. rewrite Hin. split; [set_solver|].
    intros (Hy & Hc & Hf). split; [|done].
    apply elem_of_cons in Hy as [->|Hy]; [|done].
    apply orb_true_iff in E as [E|E]; [congruence|].
    by apply bool_decide_eq_true in E.
  - apply orb_false_iff in E as [Ec Ef]. apply bool_decide_eq_false in Ef.
    assert (Hcs : forall y, cached (start_fetch x w) y = cached w y) by done.
    assert (Hfs : in_flight_set (start_fetch x w) = {[x]} ∪ in_flight_set w)
      by done.
    assert (Hxs : x ∉ started).
    { intros Hx. apply Hin in Hx as (_ & _ & Hx). rewrite Hfs in Hx.
      set_solver. }
    exists (x :: started), ((EvImageSrc x,
       upd_cache (fun c => set_prefetchingImages ({[x]} ∪ prefetchingImages c) c)
         (app w)) :: new).
    split; [by constructor|]. split.
    { intros y. rewrite elem_of_cons, Hin, Hcs, Hfs. split.
      - intros [->|(Hy & Hc & Hf)]; [set_solver|set_solver].
      - intros (Hy & Hc & Hf).
        destruct (decide (y = x)) as [->|Hne]; [by left|]. right.
        set_solver. }
    split; [rewrite HP, Hfs; set_solver|].
    split; [rewrite Hp; simpl; by rewrite <- app_assoc|].
    split; [rewrite Ht; simpl; by rewrite <- app_assoc|].
    simpl. by rewrite Hm.
Qed.

Lemma fold_request_replica ids w :
  replica (app (fold_left request ids w)) = replica (app w).
Proof. apply fold_request_spec. Qed.

Lemma fold_left_request_app ids1 ids2 w :
  fold_left request (ids1 ++ ids2) w
  = fold_left request ids2 (fold_left request ids1 w).
Proof. apply fold_left_app. Qed.

(** One turn of the loop, or the look behind: the image at [index], when
    the list has one there. *)
Lemma prefetch_one (w : World) (s : SessionState) (index : Z) (guard : bool) :
  session (replica (app w)) = Some s ->
  0 <= index ->
  guard = (index <? js_length (images s)) ->
  (if guard then prefetchImageAt index else skip) w
  = Done (fold_left request
            (omap (image_id_at (replica (app w)) s) [index]) w).
Proof.
  intros Hs Hi ->. unfold image_id_at. simpl.
  destruct (index <? js_length (images s)) eqn:E.
  - destruct (js_index_Some (images s) index) as [l Hl]; [lia|].
    unfold prefetchImageAt, with_session, get. rewrite Hs, Hl. simpl.
    apply prefetchImage_request.
  - by rewrite js_index_None by lia.
Qed.

(** With the cursor inside the list, [prefetchImages] is a request for
    each target in turn, followed by [cleanImageCache]. *)
Lemma prefetchImages_requests (w : World) (s : SessionState) :
  session (replica (app w)) = Some s ->
  valid_cursor s ->
  prefetchImages w
  = cleanImageCache
      (fold_left request (prefetch_targets (replica (app w)) s) w).
Proof.
  intros Hs Hv. unfold valid_cursor in Hv.
  unfold prefetchImages, get. rewrite Hs.
  set (R := replica (app w)) in *.
  replace (js_length (images s) =? 0) with false by lia.
  change (seqZ 1 CONFIG.PREFETCH_COUNT) with [1; 2; 3].
  unfold prefetch_targets. cbn [for_each].
  set (i := current_index s) in *.
  assert (Hstep : forall w1 index (guard : bool) (rest : Cmd) ids,
    replica (app w1) = R -> 0 <= index ->
    guard = (index <? js_length (images s)) ->
    (forall w2, replica (app w2) = R ->
       rest w2 = cleanImageCache (fold_left request (omap (image_id_at R s) ids) w2)) ->
    ((if guard then prefetchImageAt index else skip) ;; rest) w1
    = cleanImageCache
        (fold_left request (omap (image_id_at R s) (index :: ids)) w1)).
  { intros w1 index guard rest ids HR Hi Hg Hrest. unfold seq.
    rewrite (prefetch_one w1 s index guard) by (try done; by rewrite HR).
    rewrite HR. rewrite Hrest by (by rewrite fold_request_replica).
    f_equal. change (index :: ids) with ([index] ++ ids).
    by rewrite omap_app, fold_left_request_app. }
  rewrite seq_assoc.
  apply Hstep; [done | lia | done |]. intros w2 H2.
  rewrite seq_assoc.
  apply Hstep; [done | lia | done |]. intros w3 H3.
  rewrite seq_assoc.
  apply Hstep; [done | lia | done |]. intros w4 H4.
  change ((skip ;; (if 0 <? i then prefetchImageAt (i - 1) else skip) ;;
           cleanImageCache) w4)
    with (((if 0 <? i then prefetchImageAt (i - 1) else skip) ;;
           cleanImageCache) w4).
  destruct (0 <? i) eqn:E.
  - replace (prefetchImageAt (i - 1))
      with (if (i - 1 <? js_length (images s)) then prefetchImageAt (i - 1)
            else skip)
      by (by replace (i - 1 <? js_length (images s)) with true by lia).
    apply Hstep; [done | lia | done |]. intros w5 H5. done.
  - unfold seq. done.
Qed.

(** C6 (as amended).  [cleanImageCache] always returns; it removes the
    bindings at the front of the insertion order, and only as many as it
    takes to leave at most 10.  So after [prefetchImages] on a session
    with at least one image and the cursor inside the list, the cache
    holds at most 10 entries.  Reading the cache ([displayCurrentImage])
    changes nothing in it and setting a key that is present keeps its
    place, so what is evicted never depends on the last access. *)
Theorem C6_cache_bounded_insertion_order :
  (forall w, exists evicted kept,
     cleanImageCache w = Done (upd_app (upd_cache (set_imageCache kept)) w) /\
     imageCache (cache (app w)) = evicted ++ kept /\
     length kept
       = Nat.min (length (imageCache (cache (app w)))) CONFIG.CACHE_MAX_SIZE) /\
  (forall w s,
     session (replica (app w)) = Some s -> valid_cursor s ->
     exists w',
       prefetchImages w = Done w' /\
       (length (imageCache (cache (app w'))) <= CONFIG.CACHE_MAX_SIZE)%nat) /\
  (forall w, cache (app (world_of (displayCurrentImage w))) = cache (app w)) /\
  (forall k v m, map_has k m = true -> map fst (map_set k v m) = map fst m).
Proof.
  split; [|split; [|split]].
  - intros w. set (m := imageCache (cache (app w))).
    exists (take (length m - CONFIG.CACHE_MAX_SIZE) m),
           (drop (length m - CONFIG.CACHE_MAX_SIZE) m).
    split; [apply cleanImageCache_done|]. split; [by rewrite take_drop|].
    rewrite length_drop. lia.
  - intros w s Hs Hv. rewrite (prefetchImages_requests w s Hs Hv).
    rewrite cleanImageCache_done. eexists. split; [done|]. simpl.
    rewrite length_drop. lia.
  - intros w. unfold displayCurrentImage, get.
    destruct (currentImage (replica (app w))); [|done].
    by destruct (map_has _ _).
  - apply map_set_keeps_order.
Qed.

(** Eleven cached images under the sample session: one is evicted. *)
Lemma C6_cache_bounded_insertion_order_witness :
  exists w',
    prefetchImages crowded_sample = Done w' /\
    (length (imageCache (cache (app w'))) <= CONFIG.CACHE_MAX_SIZE)%nat.
Proof.
  destruct C6_cache_bounded_insertion_order as (_ & H & _).
  apply (H crowded_sample (sample_session 0)).
  - reflexivity.
  - unfold valid_cursor, js_length. simpl. lia.
Defined.

(** C6 as first stated fails on a session without images:
    [prefetchImages] returns before it reaches [cleanImageCache], and a
    cache of eleven entries stays as it is. *)
Lemma C6_counterexample :
  prefetchImages crowded_world = Done crowded_world /\
  length (imageCache (cache (app crowded_world))) = 11%nat.
Proof. split; reflexivity. Qed.

(** ** No two prefetches of one image at the same time *)













(** ** A cursor move and its prefetch *)













(** * The [gg] combo *)

(** Idle, [g] arms a timer of 300 ms and waits for the second key. *)
Lemma handleGKey_idle (w : World) :
  idle w ->
  handleGKey w =
    Done (upd_app (upd_keys (set_keyComboTimeout (Some (next_timer w))))
            (set_timers (timers w ++ [combo_timer (next_timer w)])
               (S (next_timer w))
               (upd_app (upd_keys (set_lastKey (Some "g"))) w))).
Proof.
  unfold idle, handleGKey, get. intros H.
  destruct (lastKey (keys (app w))) as [k|] eqn:E; [|done].
  destruct (decide (k = "g")) as [->|Hne]; [done|].
  destruct k as [|a k]; [done|].
  destruct a as [[] [] [] [] [] [] [] []]; try done.
  destruct k; [by destruct Hne | done].
Qed.

(** The expiry of that timer brings the machine back to idle. *)
Lemma combo_timer_expires (w : World) (t : TimerId) :
  List.find (fun x => Nat.eqb (tid x) t) (timers w) = Some (combo_timer t) ->
  exists w', fire t w = Done w' /\ lastKey (keys (app w')) = None.
Proof. intros H. unfold fire. rewrite H. simpl. eexists. split; done. Qed.

(** Awaiting, [g] cancels the timer, goes back to idle and navigates to
    the first image of the folder of the current image. *)
Lemma handleGKey_awaiting (w : World) :
  awaiting w ->
  handleGKey w =
    (clearTimer (keyComboTimeout (keys (app w))) ;;
     modify (upd_keys (set_lastKey None)) ;;
     navigateToFirstInFolder) w.
Proof. unfold awaiting, handleGKey, get. by intros ->. Qed.

Lemma navigateToFirstInFolder_scan (w : World) (s : SessionState) (c : loc) :
  session (replica (app w)) = Some s ->
  currentImage (replica (app w)) = Some c ->
  navigateToFirstInFolder w =
    navigateToScan
      (first_in_folder (objs (replica (app w))) (images s)
         (parentFolder (id (objs (replica (app w)) !!! c))))
      skip w.
Proof.
  intros Hs Hc. unfold navigateToFirstInFolder, get, with_session, get.
  by rewrite Hc, Hs.
Qed.

(** What the scan finds is the least index in the folder. *)
Lemma scan_first o imgs test idxs i :
  scan o imgs test idxs = ScanFound i ->
  exists pre post l,
    idxs = pre ++ i :: post /\ js_index imgs i = Some l /\
    test (o !!! l) = true /\
    forall j, j ∈ pre ->
      exists l', js_index imgs j = Some l' /\ test (o !!! l') = false.
Proof.
  induction idxs as [|j idxs IH]; [done|]. simpl.
  destruct (js_index imgs j) as [l|] eqn:Hj; [|done].
  destruct (test (o !!! l)) eqn:Ht.
  - intros [= <-]. exists [], idxs, l. split; [done|]. split; [done|].
    split; [done|]. intros ? H. by apply elem_of_nil in H.
  - intros H. destruct (IH H) as (pre & post & l' & -> & Hl & Hl' & Hpre).
    exists (j :: pre), post, l'. split; [done|]. split; [done|].
    split; [done|]. intros k [->|Hk]%elem_of_cons; [by exists l | auto].
Qed.

(** A key that is no shortcut changes nothing, in particular not the
    state of the combo. *)
Lemma other_key_noop (w : World) (event : KeyboardEvent) :
  String.eqb (target_tagName event) "INPUT"
    || String.eqb (target_tagName event) "TEXTAREA" = false ->
  activeOverlay (ui (app w)) = None ->
  filterMode (keys (app w)) = false ->
  shortcut_of (key event) = KeyOther ->
  handleKeyDown event w = Done w.
Proof.
  intros Ht Ho Hf Hk. unfold handleKeyDown, get, mainShortcut.
  by rewrite Ht, Ho, Hf, Hk.
Qed.

(** C8 at its failing input.  On the sample session with the cursor on
    the second image: [g] then [x].  The machine is still awaiting the
    second key and its timer is still armed; a [g] that follows completes
    the combo and navigates to the first image of the folder. *)
Theorem C8_other_key_leaves_combo_armed :
  let w0 := world_with (sample_app 1 open_socket) in
  let w1 := run w0 [press "g"; press "x"] in
  let w2 := step w1 (press "g") in
  awaiting w1 /\
  timers w1 = [combo_timer 1%nat] /\
  current_index <$> session (replica (app w1)) = Some 1 /\
  current_index <$> session (replica (app w2)) = Some 0 /\
  sent w2 = [MsgNavigate 0] /\
  lastKey (keys (app w2)) = None.
Proof. vm_compute. repeat split; reflexivity. Qed.

(** No key other than [g] takes the machine out of the awaiting state:
    only [handleGKey] and the timer write [lastKey]. *)
Lemma awaiting_survives_other_keys (w : World) (event : KeyboardEvent) :
  shortcut_of (key event) <> KeyG ->
  awaiting w ->
  awaiting (step w (InKeyDown event)).
Proof.
  intros Hne Hw. unfold step.
  assert (H : keeps_at (on_app (fun a => lastKey (keys a) = Some "g"))
                any_effect
                (try_catch (react (InKeyDown event))
                   (fun e => emit (EvUncaughtError e))) w).
  { keeps_with ltac:(solve [exfalso; congruence])
               ltac:(unfold on_app, any_effect, awaiting in *; simpl in *;
                     first [done | assumption]). }
  apply H.
Qed.

(** * Reconnection with backoff *)

(** The delays of the attempts 0, 1, 2, ... *)
Lemma reconnect_delay_table (n : Z) :
  0 <= n ->
  reconnect_delay n =
    if n =? 0 then 1000 else if n =? 1 then 2000 else if n =? 2 then 4000
    else if n =? 3 then 8000 else if n =? 4 then 16000 else 30000.
Proof.
  intros Hn. unfold reconnect_delay.
  change (js_length CONFIG.WS_RECONNECT_DELAYS - 1) with 5.
  destruct (Z.min_spec n 5) as [[Hlt ->]|[Hge ->]].
  - assert (n = 0 \/ n = 1 \/ n = 2 \/ n = 3 \/ n = 4) as Hc by lia.
    destruct Hc as [->|[->|[->|[->| ->]]]]; reflexivity.
  - destruct (n =? 0) eqn:E0; [lia|]. destruct (n =? 1) eqn:E1; [lia|].
    destruct (n =? 2) eqn:E2; [lia|]. destruct (n =? 3) eqn:E3; [lia|].
    destruct (n =? 4) eqn:E4; [lia|]. reflexivity.
Qed.

Lemma find_fresh_timer (ts : list Timer) (x : Timer) :
  Forall (fun y => (0 < tid y < tid x)%nat) ts ->
  List.find (fun y => Nat.eqb (tid y) (tid x)) (ts ++ [x]) = Some x.
Proof.
  induction ts as [|y ts IH]; intros H; simpl.
  - by rewrite Nat.eqb_refl.
  - apply Forall_cons in H as [Hy H].
    replace (tid y =? tid x)%nat with false by (symmetry; apply Nat.eqb_neq; lia).
    by apply IH.
Qed.

Lemma Forall_filter_timers (P : Timer -> Prop) (f : Timer -> bool) ts :
  Forall P ts -> Forall P (List.filter f ts).
Proof.
  induction ts as [|y ts IH]; [done|]. intros [Hy H]%Forall_cons. simpl.
  destruct (f y); [constructor|]; auto.
Qed.

(** [scheduleReconnect] from a state with fresh timers and [n] attempts
    made: the machine waits for the attempt [n]. *)
Lemma scheduleReconnect_waiting (w : World) :
  timers_fresh w ->
  exists w', scheduleReconnect w = Done w' /\
             waiting (wsReconnectAttempt (conn (app w))) w' /\
             ws_constructible w' = ws_constructible w /\
             ws (conn (app w')) = ws (conn (app w)).
Proof.
  intros [Hpos Hf]. eexists. split; [reflexivity|]. simpl.
  split; [|done]. split; [|split; [done|split; [done|]]].
  - split; [simpl; lia|]. simpl. apply Forall_app. split.
    + eapply Forall_impl; [exact Hf|]. simpl. lia.
    + constructor; [simpl; lia | constructor].
  - exists (next_timer w). split; [done|]. simpl.
    by apply (find_fresh_timer (timers w) (reconnect_timer (next_timer w) _)).
Qed.

Lemma stopHeartbeat_fresh (w : World) :
  timers_fresh w ->
  exists w', stopHeartbeat w = Done w' /\ timers_fresh w' /\
             wsReconnectAttempt (conn (app w')) = wsReconnectAttempt (conn (app w)) /\
             ws_constructible w' = ws_constructible w /\
             ws (conn (app w')) = ws (conn (app w)).
Proof.
  intros [Hpos Hf]. unfold stopHeartbeat, get.
  destruct (truthy (wsHeartbeatInterval (conn (app w)))) eqn:E.
  - destruct (wsHeartbeatInterval (conn (app w))) as [t|]; [|done].
    eexists. split; [reflexivity|]. simpl. split; [|done].
    split; [done|]. simpl. by apply Forall_filter_timers.
  - by exists w.
Qed.

(** A close schedules the attempt whose number is the current count. *)
Lemma close_waiting (w : World) (k : nat) :
  timers_fresh w ->
  waiting (wsReconnectAttempt (conn (app w))) (step w (InWsClose k)) /\
  ws_constructible (step w (InWsClose k)) = ws_constructible w.
Proof.
  intros Hf. unfold step, react, try_catch.
  set (w1 := world_of (emit (EvConsole CWsDisconnected)
                         (world_of (socket_becomes k CLOSED w)))).
  assert (Hf1 : timers_fresh w1) by done.
  assert (Ha1 : wsReconnectAttempt (conn (app w1))
                = wsReconnectAttempt (conn (app w))).
  { subst w1. simpl. destruct (ws (conn (app w))) as [s|]; [|done].
    by destruct (sock s =? k)%nat. }
  destruct (stopHeartbeat_fresh w1 Hf1) as (w2 & H2 & Hf2 & Ha2 & Hc2 & _).
  destruct (scheduleReconnect_waiting w2 Hf2) as (w3 & H3 & Hw3 & Hc3 & _).
  assert (Hrun : (socket_becomes k CLOSED ;; ws_onclose) w = Done w3).
  { change ((socket_becomes k CLOSED ;; ws_onclose) w)
      with ((stopHeartbeat ;; scheduleReconnect) w1).
    unfold seq. by rewrite H2, H3. }
  rewrite Hrun. simpl. rewrite Ha2, Ha1 in Hw3. split; [done|].
  by rewrite Hc3, Hc2.
Qed.

Lemma find_timer_id (ts : list Timer) (t : TimerId) (x : Timer) :
  List.find (fun y => Nat.eqb (tid y) t) ts = Some x -> tid x = t /\ In x ts.
Proof.
  intros H. apply find_some in H as [Hin Ht]. by apply Nat.eqb_eq in Ht.
Qed.

(** The timer of a waiting machine fires: the count goes up by one and a
    new connection is attempted.  When the socket cannot even be created
    the next attempt is scheduled at once; otherwise the new socket is
    there, connecting, and the indicator is still shown. *)
Lemma reconnect_timer_fires (w : World) (n : Z) (t : TimerId) :
  waiting n w ->
  wsReconnectTimeout (conn (app w)) = Some t ->
  let w1 := step w (InTimer t) in
  ws_constructible w1 = ws_constructible w /\
  timers_fresh w1 /\
  wsReconnectAttempt (conn (app w1)) = n + 1 /\
  connectionStatus_hidden (conn (app w1)) = false /\
  (ws_constructible w = true -> is_Some (ws (conn (app w1)))) /\
  (ws_constructible w = false -> waiting (n + 1) w1).
Proof.
  intros ([Hpos Hf] & Hn & Hh & t' & Ht' & Hfind) Ht w1.
  rewrite Ht in Ht'. injection Ht' as <-.
  destruct (find_timer_id _ _ _ Hfind) as [_ Hin].
  assert (Htpos : (0 < t)%nat).
  { rewrite Forall_forall in Hf. apply list_elem_of_In, Hf in Hin.
    simpl in Hin. lia. }
  set (wa := set_timers
               (List.filter (fun y => negb (Nat.eqb (tid y) t)) (timers w))
               (next_timer w) w).
  set (wb := upd_app (upd_conn (set_wsReconnectTimeout None))
      (set_timers
         (List.filter (fun y => negb (Nat.eqb (tid y) t))
            (List.filter (fun y => negb (Nat.eqb (tid y) t)) (timers w)))
         (next_timer w)
         (upd_app (upd_conn (fun c =>
            set_wsReconnectAttempt (wsReconnectAttempt c + 1) c)) wa))).
  assert (Hfb : timers_fresh wb).
  { split; [done|]. simpl. by do 2 apply Forall_filter_timers. }
  assert (Hab : wsReconnectAttempt (conn (app wb)) = n + 1)
    by (simpl; by rewrite Hn).
  assert (Hfire : fire t w = try_catch new_WebSocket
     (fun error => emit (EvConsole CWsConnectionFailed) ;; scheduleReconnect) wb).
  { unfold fire. rewrite Hfind. simpl. fold wa.
    unfold seq. simpl. unfold connectWebSocket, seq, get. simpl.
    rewrite Ht. destruct t as [|t]; [lia|]. simpl. done. }
  assert (Hstep : step w (InTimer t) = world_of (try_catch new_WebSocket
     (fun error => emit (EvConsole CWsConnectionFailed) ;; scheduleReconnect) wb)).
  { unfold step, react. unfold try_catch at 1. rewrite Hfire.
    unfold try_catch, new_WebSocket. by destruct (ws_constructible wb). }
  subst w1. rewrite Hstep. clear Hstep Hfire.
  unfold try_catch, new_WebSocket.
  change (ws_constructible wb) with (ws_constructible w).
  destruct (ws_constructible w) eqn:Hc.
  - simpl. split; [done|]. split; [by destruct Hfb|].
    split; [by rewrite Hn|]. split; [done|]. split; [by eexists | done].
  - set (wc := set_trace
                  (trace wb ++ [(EvConsole CWsConnectionFailed, app wb)]) wb).
    destruct (scheduleReconnect_waiting wc) as (w3 & H3 & Hw3 & Hc3 & _);
      [exact Hfb|].
    change ((emit (EvConsole CWsConnectionFailed) ;; scheduleReconnect) wb)
      with (scheduleReconnect wc).
    rewrite H3. cbn [world_of].
    change (wsReconnectAttempt (conn (app wc)))
      with (wsReconnectAttempt (conn (app w)) + 1) in Hw3.
    rewrite Hn in Hw3.
    split; [by rewrite Hc3|]. destruct Hw3 as (Hf3 & Ha3 & Hh3 & Ht3).
    split; [done|]. split; [done|]. split; [done|]. split; [done|].
    intros _. done.
Qed.

(** A failed attempt takes a machine waiting for the attempt [n] to one
    waiting for the attempt [n + 1]. *)
Lemma attempt_fails_waiting (w : World) (n : Z) :
  waiting n w ->
  waiting (n + 1) (attempt_fails w) /\
  ws_constructible (attempt_fails w) = ws_constructible w.
Proof.
  intros Hw. pose proof Hw as (_ & _ & _ & t & Ht & _).
  destruct (reconnect_timer_fires w n t Hw Ht)
    as (Hc1 & Hf1 & Ha1 & Hh1 & Hyes & Hno).
  unfold attempt_fails. rewrite Ht. cbv zeta.
  destruct (ws_constructible w) eqn:Hc.
  - destruct (Hyes eq_refl) as [sk Hsk]. rewrite Hsk.
    destruct (close_waiting (step w (InTimer t)) (sock sk) Hf1) as [Hw2 Hc2].
    rewrite Ha1 in Hw2. split; [done|]. by rewrite Hc2.
  - split; [by apply Hno | done].
Qed.

Lemma failures_waiting (w : World) (k : nat) (n : nat) :
  timers_fresh w ->
  wsReconnectAttempt (conn (app w)) = 0 ->
  waiting (Z.of_nat n) (Nat.iter n attempt_fails (step w (InWsClose k))).
Proof.
  intros Hf H0. induction n as [|n IH].
  - simpl. destruct (close_waiting w k Hf) as [Hw _]. by rewrite H0 in Hw.
  - rewrite Nat2Z.inj_succ. unfold Z.succ. simpl.
    by apply attempt_fails_waiting.
Qed.

(** A successful open resets the count and hides the indicator. *)
Lemma open_resets (w : World) (k : nat) :
  wsReconnectAttempt (conn (app (step w (InWsOpen k)))) = 0 /\
  connectionStatus_hidden (conn (app (step w (InWsOpen k)))) = true.
Proof.
  set (J := on_app (fun a => wsReconnectAttempt (conn a) = 0 /\
                            connectionStatus_hidden (conn a) = true)).
  set (w3 := world_of ((socket_becomes k OPEN ;; emit (EvConsole CWsConnected) ;;
                        modify (upd_conn (set_wsReconnectAttempt 0)) ;;
                        hideConnectionStatus) w)).
  change (step w (InWsOpen k))
    with (world_of (try_catch (startHeartbeat ;; sendWebSocketMessage MsgSync)
                      (fun e => emit (EvUncaughtError e)) w3)).
  assert (H : keeps J any_effect
                (try_catch (startHeartbeat ;; sendWebSocketMessage MsgSync)
                   (fun e => emit (EvUncaughtError e)))).
  { subst J.
    keeps_auto ltac:(unfold on_app, any_effect in *; simpl in *;
                     first [done | assumption]). }
  apply (H w3). subst J w3. unfold on_app. simpl.
  destruct (ws (conn (app w))) as [s|]; [|done].
  by destruct (sock s =? k)%nat.
Qed.

(** C5.  From a state with no failed attempt on the count, a close
    followed by [n] failed reconnection attempts leaves the machine
    waiting for the attempt [n]: the indicator is shown and the pending
    timer has the delay of the attempt [n], which is the [n]-th of 1000,
    2000, 4000, 8000, 16000, 30000 ms and 30000 ms from the fifth on.  The
    indicator stays shown when that timer fires.  A successful open sets
    the count to 0 and hides the indicator. *)
Theorem C5_reconnect_backoff (w : World) (k : nat) :
  timers_fresh w ->
  wsReconnectAttempt (conn (app w)) = 0 ->
  (forall n : nat,
     let wn := Nat.iter n attempt_fails (step w (InWsClose k)) in
     waiting (Z.of_nat n) wn /\
     forall t, wsReconnectTimeout (conn (app wn)) = Some t ->
       connectionStatus_hidden (conn (app (step wn (InTimer t)))) = false /\
       wsReconnectAttempt (conn (app (step wn (InTimer t)))) = Z.of_nat n + 1) /\
  (forall n, 0 <= n ->
     reconnect_delay n =
       if n =? 0 then 1000 else if n =? 1 then 2000 else if n =? 2 then 4000
       else if n =? 3 then 8000 else if n =? 4 then 16000 else 30000) /\
  (forall w' k',
     wsReconnectAttempt (conn (app (step w' (InWsOpen k')))) = 0 /\
     connectionStatus_hidden (conn (app (step w' (InWsOpen k')))) = true).
Proof.
  intros Hf H0. split; [|split].
  - intros n wn. pose proof (failures_waiting w k n Hf H0) as Hw. fold wn in Hw.
    split; [done|]. intros t Ht.
    destruct (reconnect_timer_fires wn (Z.of_nat n) t Hw Ht)
      as (_ & _ & Ha & Hh & _). done.
  - apply reconnect_delay_table.
  - apply open_resets.
Qed.

(** From the sample state: the first close and two failed attempts leave
    the machine waiting for the attempt 2, with a delay of 4000 ms. *)
Lemma C5_reconnect_backoff_witness :
  waiting 2 (Nat.iter 2 attempt_fails (step sample_world (InWsClose 0))) /\
  reconnect_delay 2 = 4000.
Proof.
  destruct (C5_reconnect_backoff sample_world 0) as (H1 & H2 & _).
  - split; [simpl; lia | constructor].
  - reflexivity.
  - split; [apply (H1 2%nat) | apply (H2 2); lia].
Defined.

(** * Preview, confirmation, commit *)

Ltac commit_side :=
  unfold on_app, any_effect, overlay_of, preview_of, commit_request in *;
  simpl in *;
  first [ done | assumption | congruence | intros ?; congruence ].

Ltac absurd_hook :=
  solve [ exfalso;
          unfold on_app, overlay_of, preview_of, is_confirmation in *;
          simpl in *; congruence ].

(** Without the commit overlay nothing but the end of [showCommitModal]
    opens it, and no commit request is made. *)
Lemma no_commit_without_overlay (i : Input) :
  i <> InShowCommitModal ->
  keeps (on_app (fun a => overlay_of a <> Some commit))
        (fun e => fst e <> commit_request)
        (try_catch (react i) (fun e => emit (EvUncaughtError e))).
Proof.
  intros Hi w Hw. destruct i; try done.
  all: keeps_with absurd_hook commit_side.
Qed.

(** [confirmCommit] makes the commit request only under the commit
    overlay. *)
Lemma confirmCommit_under_overlay :
  keeps (fun _ => True)
        (fun e => fst e = commit_request -> overlay_of (snd e) = Some commit)
        confirmCommit.
Proof.
  intros w _.
  unfold keeps_at, confirmCommit, async, try_catch, get, seq, showToast,
    executeCommit, emit, await, skip.
  destruct (activeOverlay (ui (app w))) as [[]|] eqn:Ho; simpl;
    (split; [done|]);
    try (exists []; split; [by rewrite app_nil_r | constructor]).
  eexists [_; _]. split; [by rewrite <- app_assoc|].
  constructor; [intros H; discriminate H|].
  constructor; [|constructor]. intros _. exact Ho.
Qed.

Ltac under_side :=
  unfold any_effect, overlay_of, commit_request in *; simpl in *;
  first [ done | intros H; discriminate H ].

(** Every commit request is made under the commit overlay. *)
Lemma commit_only_under_overlay (i : Input) :
  keeps (fun _ => True)
        (fun e => fst e = commit_request -> overlay_of (snd e) = Some commit)
        (try_catch (react i) (fun e => emit (EvUncaughtError e))).
Proof.
  intros w Hw. destruct i.
  all: keeps_with ltac:(apply confirmCommit_under_overlay; exact I) under_side.
Qed.

(** An input that is no confirmation makes no commit request. *)
Lemma commit_only_on_confirmation (i : Input) :
  ~ is_confirmation i ->
  keeps (fun _ => True) (fun e => fst e <> commit_request)
        (try_catch (react i) (fun e => emit (EvUncaughtError e))).
Proof.
  intros Hi w Hw. destruct i as [event|b| | | | | | | | | | | | | | | | |];
    try destruct b; try (by destruct Hi).
  all: try (assert (String.eqb (key event) "Enter" = false)
              by (apply String.eqb_neq; exact Hi)).
  all: keeps_with absurd_hook commit_side.
Qed.

(** The stored preview changes only when a preview reply arrives. *)
Lemma preview_only_from_reply (i : Input) (v : option PreviewSummary) :
  (forall p, i <> InPreview (Ok p)) ->
  keeps (on_app (fun a => preview_of a = v)) any_effect
        (try_catch (react i) (fun e => emit (EvUncaughtError e))).
Proof.
  intros Hi w Hw. destruct i as [| | | | | | | | |r| | | | | | | | |];
    try (destruct r as [p|]; [by destruct (Hi p)|]).
  all: keeps_with absurd_hook commit_side.
Qed.

(** The end of [showCommitModal] opens the commit overlay only for a
    stored preview with changes. *)
Lemma showCommitModal_opens (w : World) :
  overlay_of (app (step w InShowCommitModal)) = Some commit ->
  overlay_of (app w) = Some commit \/
  exists p, preview_of (app w) = Some p /\ total_changes p <> 0.
Proof.
  unfold step, react, resume, try_catch.
  destruct (remove_first KShowCommitModal (pending w)) as [ks|]; [|by left].
  unfold showCommitModal_resume, try_catch, get. simpl.
  unfold preview_of.
  destruct (commitPreview (ui (app w))) as [p|]; [|by left].
  destruct (total_changes p =? 0) eqn:E; [by left|].
  intros _. right. exists p. split; [done|]. lia.
Qed.

(** With a stored preview of no changes it leaves the overlay as it
    is. *)
Lemma showCommitModal_zero (w : World) (p : PreviewSummary) :
  preview_of (app w) = Some p -> total_changes p = 0 ->
  overlay_of (app (step w InShowCommitModal)) = overlay_of (app w).
Proof.
  unfold preview_of. intros Hp H0. unfold step, react, resume, try_catch.
  destruct (remove_first KShowCommitModal (pending w)) as [ks|]; [|done].
  unfold showCommitModal_resume, try_catch, get. simpl. rewrite Hp, H0. done.
Qed.

Lemma preview_reply_stored (w : World) (p q : PreviewSummary) :
  preview_of (app (step w (InPreview (Ok p)))) = Some q ->
  preview_of (app w) = Some q \/ q = p.
Proof.
  unfold step, react, resume, try_catch.
  destruct (remove_first KPreview (pending w)) as [ks|]; [|by left].
  simpl. intros [= <-]. by right.
Qed.

Lemma run_snoc (w : World) (ins : list Input) (i : Input) :
  run w (ins ++ [i]) = step (run w ins) i.
Proof. unfold run. by rewrite fold_left_app. Qed.

Lemma classic_reply (i : Input) :
  (exists p, i = InPreview (Ok p)) \/ (forall p, i <> InPreview (Ok p)).
Proof.
  destruct i as [| | | | | | | | |r| | | | | | | | |]; try (by right).
  destruct r as [p|]; [left; by exists p | by right].
Qed.

Lemma is_confirmation_dec (i : Input) :
  is_confirmation i \/ ~ is_confirmation i.
Proof.
  destruct i as [event|b| | | | | | | | | | | | | | | | |];
    try (right; by intros []).
  - simpl. destruct (decide (key event = "Enter")); auto.
  - destruct b; try (right; by intros []). by left.
Qed.

Lemma is_show_dec (i : Input) :
  i = InShowCommitModal \/ i <> InShowCommitModal.
Proof. destruct i; try (by right). by left. Qed.

Lemma commit_inv_step (ins : list Input) (w : World) (i : Input) :
  commit_inv ins w -> commit_inv (ins ++ [i]) (step w i).
Proof.
  intros (Hov & Hpv & Htr).
  (* what a confirmation under the overlay can rely on *)
  assert (Hpre : overlay_of (app w) = Some commit ->
                 exists p, InPreview (Ok p) ∈ ins ++ [i] /\ total_changes p <> 0).
  { intros Ho. destruct (Hov Ho) as (p & Hp & Ht). exists p.
    split; [|done]. apply elem_of_app. by left. }
  assert (Hstored : forall q, preview_of (app (step w i)) = Some q ->
                              InPreview (Ok q) ∈ ins ++ [i]).
  { intros q Hq. apply elem_of_app.
    destruct (classic_reply i) as [[p ->]|Hi].
    - apply preview_reply_stored in Hq as [Hq| ->].
      + left. by apply Hpv.
      + right. by apply list_elem_of_singleton.
    - left. apply Hpv.
      destruct (preview_of (app w)) as [q0|] eqn:E.
      + destruct (preview_only_from_reply i (Some q0) Hi w E) as [H _].
        unfold on_app in H. unfold step in Hq. congruence.
      + destruct (preview_only_from_reply i None Hi w E) as [H _].
        unfold on_app in H. unfold step in Hq. congruence. }
  split; [|split; [exact Hstored|]].
  - intros Ho. destruct (decide (overlay_of (app w) = Some commit)) as [Hw|Hw];
      [by apply Hpre|].
    destruct (is_show_dec i) as [->|Hi].
    + apply showCommitModal_opens in Ho as [Ho|(p & Hp & Ht)]; [done|].
      exists p. split; [|done]. apply elem_of_app. left. by apply Hpv.
    + destruct (no_commit_without_overlay i Hi w Hw) as [H _].
      unfold on_app in H. unfold step in Ho. done.
  - intros e He Hreq.
    destruct (commit_only_under_overlay i w I) as (_ & new & Hnew & Hunder).
    fold (step w i) in Hnew. rewrite Hnew in He.
    apply elem_of_app in He as [He|He].
    + destruct (Htr e He Hreq) as (Ho & ins1 & c & ins2 & p & -> & Hc & Hp & Ht).
      split; [done|]. exists ins1, c, (ins2 ++ [i]), p.
      by rewrite <- app_assoc.
    + rewrite Forall_forall in Hunder. split; [by apply Hunder|].
      assert (Hconf : is_confirmation i).
      { destruct (is_confirmation_dec i) as [Hc|Hc]; [done|].
        destruct (commit_only_on_confirmation i Hc w I) as (_ & new' & Hnew' & Hno).
        fold (step w i) in Hnew'. rewrite Hnew in Hnew'.
        apply app_inv_head in Hnew' as <-.
        rewrite Forall_forall in Hno. by destruct (Hno e He). }
      assert (Hw : overlay_of (app w) = Some commit).
      { destruct (decide (overlay_of (app w) = Some commit)) as [Hw|Hw]; [done|].
        assert (Hi : i <> InShowCommitModal) by (by intros ->).
        destruct (no_commit_without_overlay i Hi w Hw) as (_ & new' & Hnew' & Hno).
        fold (step w i) in Hnew'. rewrite Hnew in Hnew'.
        apply app_inv_head in Hnew' as <-.
        rewrite Forall_forall in Hno. by destruct (Hno e He). }
      destruct (Hov Hw) as (p & Hp & Ht).
      exists ins, i, [], p. done.
Qed.

Lemma commit_inv_run (w0 : World) (inputs : list Input) :
  commit_inv [] w0 -> commit_inv inputs (run w0 inputs).
Proof.
  intros H0. induction inputs as [|i inputs IH] using rev_ind; [done|].
  rewrite run_snoc. by apply commit_inv_step.
Qed.

(** C4.  Start from a world with no overlay, no stored preview and no
    commit request in its history, and let the browser deliver any
    inputs.  Every commit request in the history was then made while the
    commit overlay was the active overlay, by a confirmation (the confirm
    button or the Enter key) that came after a preview reply with a
    non-zero number of changes; the commit overlay is active only after
    such a reply; a step opens the commit overlay only as the end of
    [showCommitModal] on a stored preview with changes; and on a stored
    preview with zero changes that step leaves the overlay as it was. *)
Theorem C4_commit_needs_preview_and_confirmation (w0 : World)
    (inputs : list Input) :
  overlay_of (app w0) = None ->
  preview_of (app w0) = None ->
  (forall e, e ∈ trace w0 -> fst e <> commit_request) ->
  (forall e, e ∈ trace (run w0 inputs) -> fst e = commit_request ->
     overlay_of (snd e) = Some commit /\
     exists ins1 c ins2 p,
       inputs = ins1 ++ c :: ins2 /\ is_confirmation c /\
       InPreview (Ok p) ∈ ins1 /\ total_changes p <> 0) /\
  (overlay_of (app (run w0 inputs)) = Some commit ->
     exists p, InPreview (Ok p) ∈ inputs /\ total_changes p <> 0) /\
  (forall w i,
     overlay_of (app w) <> Some commit ->
     overlay_of (app (step w i)) = Some commit ->
     i = InShowCommitModal /\
     exists p, preview_of (app w) = Some p /\ total_changes p <> 0) /\
  (forall w p,
     preview_of (app w) = Some p -> total_changes p = 0 ->
     overlay_of (app (step w InShowCommitModal)) = overlay_of (app w)).
Proof.
  intros Ho Hp Ht.
  assert (H0 : commit_inv [] w0).
  { split; [by rewrite Ho|]. split; [by rewrite Hp|].
    intros e He Hreq. by destruct (Ht e He). }
  destruct (commit_inv_run w0 inputs H0) as (H1 & _ & H3).
  split; [exact H3|]. split; [exact H1|]. split.
  - intros w i Hw Hs. destruct (is_show_dec i) as [->|Hi].
    + split; [done|]. by apply showCommitModal_opens in Hs as [Hs|Hs].
    + destruct (no_commit_without_overlay i Hi w Hw) as [H _].
      unfold on_app in H. unfold step in Hs. done.
  - apply showCommitModal_zero.
Qed.

(** Enter, the preview reply, the modal, Enter again: the commit request
    goes out, and the theorem accounts for it. *)
Lemma C4_commit_needs_preview_and_confirmation_witness :
  let ins := [press "Enter"; InPreview (Ok sample_preview);
              InShowCommitModal; press "Enter"] in
  fst <$> trace (run sample_world ins) !! 6%nat = Some commit_request /\
  forall e, e ∈ trace (run sample_world ins) -> fst e = commit_request ->
    overlay_of (snd e) = Some commit /\
    exists ins1 c ins2 p,
      ins = ins1 ++ c :: ins2 /\ is_confirmation c /\
      InPreview (Ok p) ∈ ins1 /\ total_changes p <> 0.
Proof.
  intros ins. split; [vm_compute; reflexivity|].
  apply (C4_commit_needs_preview_and_confirmation sample_world ins).
  - reflexivity.
  - reflexivity.
  - intros e He. by apply elem_of_nil in He.
Defined.
(** * Paths and breadcrumbs *)

Lemma slash_free_cons c s :
  slash_free (String c s) <-> c <> "/"%char /\ slash_free s.
Proof.
  split.
  - intros H. split.
    + intros ->. by apply (H "" s).
    + intros a b ->. by apply (H (String c a) b).
  - intros [Hc Hs] a b. destruct a as [|x a]; simpl.
    + intros [= ? ?]. done.
    + intros [= ? ?]. by apply (Hs a b).
Qed.

Lemma slash_free_empty : slash_free "".
Proof. intros [|] b; done. Qed.

Lemma lastIndexOf_from_free s pos best :
  slash_free s -> lastIndexOf_from "/"%char s pos best = best.
Proof.
  revert pos best. induction s as [|c s IH]; intros pos best H; [done|].
  apply slash_free_cons in H as [Hc Hs]. simpl.
  rewrite IH by done. by rewrite (proj2 (Ascii.eqb_neq _ _) Hc).
Qed.

Lemma lastIndexOf_from_last a b pos best :
  slash_free b ->
  lastIndexOf_from "/"%char (a ++ String "/"%char b)%string pos best
    = pos + Z.of_nat (String.length a).
Proof.
  revert pos best. induction a as [|c a IH]; intros pos best H; simpl.
  - rewrite lastIndexOf_from_free by done. lia.
  - rewrite IH by done. lia.
Qed.

Lemma substring_prefix a b :
  String.substring 0 (String.length a) (a ++ b)%string = a.
Proof.
  induction a as [|c a IH]; simpl.
  - by destruct b.
  - by rewrite IH.
Qed.

(** The folder part of [dir/name]. *)
Lemma parentFolder_slash a b :
  slash_free b -> parentFolder (a ++ String "/"%char b)%string = a.
Proof.
  intros H. unfold parentFolder, lastIndexOf, substring0.
  rewrite lastIndexOf_from_last by done.
  rewrite Z.add_0_l, Nat2Z.id. apply substring_prefix.
Qed.

Lemma parentFolder_free s : slash_free s -> parentFolder s = "".
Proof.
  intros H. unfold parentFolder, lastIndexOf, substring0.
  rewrite lastIndexOf_from_free by done. simpl. by destruct s.
Qed.

Lemma js_split_not_nil sep s : js_split sep s <> [].
Proof.
  destruct s as [|c s]; [done|]. simpl.
  destruct (Ascii.eqb c sep); [done|]. by destruct (js_split sep s).
Qed.

Lemma js_split_free s : slash_free s -> js_split "/"%char s = [s].
Proof.
  induction s as [|c s IH]; [done|]. intros H.
  apply slash_free_cons in H as [Hc Hs]. simpl.
  rewrite (proj2 (Ascii.eqb_neq _ _) Hc). by rewrite IH.
Qed.

Lemma js_split_slash a b :
  js_split "/"%char (a ++ String "/"%char b)%string
    = js_split "/"%char a ++ js_split "/"%char b.
Proof.
  induction a as [|c a IH]; simpl.
  - done.
  - destruct (Ascii.eqb c "/"%char); [by rewrite IH|].
    rewrite IH. destruct (js_split "/"%char a) eqn:E; [|done].
    by destruct (js_split_not_nil "/"%char a).
Qed.

(** Every string is slash-free or ends in a slash-free part after its
    last slash. *)
Lemma last_slash s :
  slash_free s \/
  exists a b, s = (a ++ String "/"%char b)%string /\ slash_free b.
Proof.
  induction s as [|c s IH]; [left; apply slash_free_empty|].
  destruct IH as [Hf | (a & b & -> & Hb)].
  - destruct (decide (c = "/"%char)) as [->|Hc].
    + right. by exists "", s.
    + left. by apply slash_free_cons.
  - right. by exists (String c a), b.
Qed.

Lemma string_app_assoc (a b c : string) :
  (a ++ (b ++ c))%string = ((a ++ b) ++ c)%string.
Proof.
  induction a as [|x a IH]; [done|].
  change (String x (a ++ (b ++ c)) = String x ((a ++ b) ++ c))%string.
  by rewrite IH.
Qed.

Lemma js_join_snoc parts p :
  parts <> [] ->
  js_join "/" (parts ++ [p]) = (js_join "/" parts ++ String "/"%char p)%string.
Proof.
  induction parts as [|q parts IH]; [done|]. intros _.
  destruct parts as [|r parts]; [done|].
  change (js_join "/" ((q :: r :: parts) ++ [p]))
    with (q ++ "/" ++ js_join "/" ((r :: parts) ++ [p]))%string.
  rewrite IH by done.
  change (js_join "/" (q :: r :: parts))
    with (q ++ "/" ++ js_join "/" (r :: parts))%string.
  by rewrite !string_app_assoc.
Qed.

(** Splitting at the slashes and joining again gives the path back. *)
Lemma js_join_split s : js_join "/" (js_split "/"%char s) = s.
Proof.
  remember (String.length s) as n eqn:Hn.
  revert s Hn. induction (lt_wf n) as [n _ IH]. intros s Hn.
  destruct (last_slash s) as [Hf | (a & b & -> & Hb)].
  - by rewrite js_split_free.
  - rewrite js_split_slash, (js_split_free b) by done.
    rewrite js_join_snoc by apply js_split_not_nil.
    rewrite (IH (String.length a)) with (s := a); [done | | done].
    rewrite Hn. clear. induction a; simpl; lia.
Qed.

Lemma removelast_snoc {A} (xs : list A) x : removelast (xs ++ [x]) = xs.
Proof. apply removelast_last. Qed.

(** X15.  The parent that [navigateToParentFolder] computes with
    [split('/').slice(0, -1).join('/')] is, for every path, the folder
    that [navigateToIndex] and the other image code compute with
    [substring(0, lastIndexOf('/'))]. *)
Theorem X15_parentPath_parentFolder (folder : string) :
  parentPath folder = parentFolder folder.
Proof.
  unfold parentPath.
  destruct (last_slash folder) as [Hf | (a & b & -> & Hb)].
  - by rewrite js_split_free, parentFolder_free.
  - rewrite js_split_slash, (js_split_free b), removelast_snoc by done.
    by rewrite js_join_split, parentFolder_slash.
Qed.

Lemma js_split_parts_free s : Forall slash_free (js_split "/"%char s).
Proof.
  induction s as [|c s IH]; simpl.
  - constructor; [apply slash_free_empty | constructor].
  - destruct (Ascii.eqb c "/"%char) eqn:E.
    + constructor; [apply slash_free_empty | done].
    + destruct (js_split "/"%char s) as [|p ps]; inversion IH; subst.
      all: constructor; [|done].
      all: apply slash_free_cons; split;
        [by apply Ascii.eqb_neq | first [done | apply slash_free_empty]].
Qed.

Lemma js_split_head c s :
  c <> "/"%char ->
  exists p ps, js_split "/"%char (String c s) = String c p :: ps.
Proof.
  intros Hc. simpl. rewrite (proj2 (Ascii.eqb_neq _ _) Hc).
  destruct (js_split "/"%char s) as [|p ps] eqn:E; eauto.
Qed.

Lemma string_app_nonempty a b : a <> "" -> (a ++ b)%string <> "".
Proof. by destruct a. Qed.

Lemma string_eqb_empty a : a <> "" -> String.eqb a "" = false.
Proof. by destruct a. Qed.

Lemma next_accumulated_parent acc part :
  slash_free part -> parentFolder (next_accumulated acc part) = acc.
Proof.
  intros Hp. unfold next_accumulated.
  destruct (String.eqb acc "") eqn:E.
  - apply String.eqb_eq in E as ->. by apply parentFolder_free.
  - by apply (parentFolder_slash acc part).
Qed.

Lemma next_accumulated_nonempty acc part :
  (acc = "" -> part <> "") -> next_accumulated acc part <> "".
Proof.
  intros H. unfold next_accumulated.
  destruct (String.eqb acc "") eqn:E.
  - apply String.eqb_eq in E. auto.
  - apply String.eqb_neq in E. by apply string_app_nonempty.
Qed.

(** Each crumb is the parent of the next one. *)
Lemma breadcrumbs_from_chain parts idx len acc :
  Forall slash_free parts ->
  (acc = "" -> forall p ps, parts = p :: ps -> p <> "") ->
  let L := breadcrumbs_from parts idx len acc in
  (forall c, L !! 0%nat = Some c -> parentFolder (crumb_path c) = acc) /\
  (forall i c c', L !! i = Some c -> L !! S i = Some c' ->
     crumb_path c = parentFolder (crumb_path c')).
Proof.
  revert idx acc. induction parts as [|p ps IH]; intros idx acc Hf Hne L.
  { split; intros; done. }
  inversion Hf as [|? ? Hp Hps]; subst.
  fold (next_accumulated acc p) in L.
  destruct (IH (idx + 1) (next_accumulated acc p) Hps) as [IH0 IHS].
  { intros He. exfalso. revert He. apply next_accumulated_nonempty.
    intros Ha. by eapply Hne. }
  split.
  - intros c [= <-]. simpl. fold (next_accumulated acc p).
    by apply next_accumulated_parent.
  - intros [|i] c c' Hc Hc'.
    + injection Hc as <-. simpl. fold (next_accumulated acc p).
      symmetry. by apply IH0.
    + by apply (IHS i).
Qed.

Lemma breadcrumbs_from_length parts idx len acc :
  length (breadcrumbs_from parts idx len acc) = length parts.
Proof.
  revert idx acc. induction parts as [|p ps IH]; intros; simpl; [done|].
  by rewrite IH.
Qed.

(** Only the crumb of the last part is the current one. *)
Lemma breadcrumbs_from_current parts idx len acc i c :
  len = idx + js_length parts ->
  breadcrumbs_from parts idx len acc !! i = Some c ->
  is_current c = bool_decide (S i = length parts).
Proof.
  revert idx acc i. induction parts as [|p ps IH]; intros idx acc i Hl; [done|].
  unfold js_length in Hl. simpl length in Hl.
  destruct i as [|i]; simpl.
  - intros [= <-]. simpl. case_bool_decide as Hd.
    + apply Z.eqb_eq. destruct ps; [simpl in *; lia | done].
    + apply Z.eqb_neq. destruct ps; [done | simpl in *; lia].
  - intros Hc. rewrite (IH (idx + 1) _ i ltac:(unfold js_length; lia) Hc).
    apply bool_decide_ext. lia.
Qed.

(** The last crumb carries the whole path. *)
Lemma breadcrumbs_from_last parts idx len acc :
  parts <> [] ->
  (acc = "" -> forall p ps, parts = p :: ps -> p <> "") ->
  crumb_path <$> last (breadcrumbs_from parts idx len acc)
    = Some (if String.eqb acc "" then js_join "/" parts
            else (acc ++ "/" ++ js_join "/" parts)%string).
Proof.
  revert idx acc. induction parts as [|p ps IH]; intros idx acc Hn Hne; [done|].
  destruct ps as [|q ps]; [done|].
  change (breadcrumbs_from (p :: q :: ps) idx len acc)
    with ({| crumb_path := next_accumulated acc p; crumb_name := p;
             is_current := idx =? len - 1 |}
          :: breadcrumbs_from (q :: ps) (idx + 1) len (next_accumulated acc p)).
  assert (Hacc : next_accumulated acc p <> "").
  { apply next_accumulated_nonempty. intros Ha. by eapply Hne. }
  rewrite last_cons.
  specialize (IH (idx + 1) (next_accumulated acc p)).
  destruct (last (breadcrumbs_from (q :: ps) (idx + 1) len
                    (next_accumulated acc p))) as [c|] eqn:El.
  - simpl. simpl in IH. rewrite IH; [|done|done].
    rewrite string_eqb_empty by done. f_equal.
    unfold next_accumulated.
    change (js_join "/" (p :: q :: ps))
      with (p ++ "/" ++ js_join "/" (q :: ps))%string.
    destruct (String.eqb acc ""); [done|].
    by rewrite !string_app_assoc.
  - simpl in IH. by specialize (IH ltac:(done) ltac:(done)).
Qed.

(** X16.  [getBreadcrumbs]: at the root there is the single crumb [root],
    which is current.  Inside a folder whose path does not begin with a
    slash there is one crumb more than the path has parts; the first is
    the root, the last carries the whole path, only the last is current,
    and every crumb is the parent folder of the next one. *)
Theorem X16_breadcrumbs_chain (this : App) :
  let folder := currentFolder (folders this) in
  let crumbs := getBreadcrumbs this in
  (folder = "" ->
   crumbs = [{| crumb_path := ""; crumb_name := "root"; is_current := true |}])
  /\
  (folder <> "" -> (forall rest, folder <> String "/"%char rest) ->
   length crumbs = S (length (js_split "/"%char folder)) /\
   crumb_path <$> crumbs !! 0%nat = Some "" /\
   crumb_path <$> last crumbs = Some folder /\
   (forall i c, crumbs !! i = Some c ->
      is_current c = bool_decide (S i = length crumbs)) /\
   (forall i c c', crumbs !! i = Some c -> crumbs !! S i = Some c' ->
      crumb_path c = parentFolder (crumb_path c'))).
Proof.
  intros folder crumbs. subst crumbs. unfold getBreadcrumbs. fold folder.
  split; [by intros ->|]. intros Hne Hs.
  rewrite string_eqb_empty by done.
  set (parts := js_split "/"%char folder).
  assert (Hhead : forall p ps, parts = p :: ps -> p <> "").
  { destruct folder as [|c f]; [done|].
    destruct (js_split_head c f) as (p & ps & E).
    { intros ->. by apply (Hs f). }
    unfold parts. rewrite E. by intros ? ? [= <- <-]. }
  destruct (breadcrumbs_from_chain parts 0 (js_length parts) "")
    as [H0 HS]; [apply js_split_parts_free | by intros _ |].
  split; [|split; [|split; [|split]]].
  - simpl. by rewrite breadcrumbs_from_length.
  - done.
  - rewrite last_cons.
    pose proof (breadcrumbs_from_last parts 0 (js_length parts) "") as Hl.
    destruct (last (breadcrumbs_from parts 0 (js_length parts) "")) as [c|].
    + simpl in *. rewrite Hl; [|apply js_split_not_nil|by intros _].
      f_equal. apply js_join_split.
    + simpl in Hl. by specialize (Hl (js_split_not_nil _ _) ltac:(by intros _)).
  - intros [|i] c Hc.
    + injection Hc as <-. simpl. rewrite breadcrumbs_from_length.
      pose proof (js_split_not_nil "/"%char folder). fold parts in H.
      destruct parts; [done|].
      symmetry. apply bool_decide_eq_false. simpl. lia.
    + simpl in Hc. rewrite (breadcrumbs_from_current parts 0 (js_length parts) "" i c
                 ltac:(lia) Hc).
      simpl. rewrite breadcrumbs_from_length. apply bool_decide_ext. lia.
  - intros [|i] c c' Hc Hc'.
    + injection Hc as <-. simpl in *. symmetry. by apply H0.
    + by apply (HS i).
Qed.

(** In the folder [a/b]: three crumbs, the last with the whole path. *)
Lemma X16_breadcrumbs_chain_witness :
  crumb_path <$> last (getBreadcrumbs nested_app) = Some "a/b" /\
  length (getBreadcrumbs nested_app) = 3%nat.
Proof.
  destruct (X16_breadcrumbs_chain nested_app) as [_ H].
  destruct H as (H1 & _ & H3 & _).
  - simpl. discriminate.
  - simpl. intros rest. discriminate.
  - split; [exact H3 | exact H1].
Defined.

(** * The event loop as a whole *)

Lemma step_trace (E : Effect * App -> Prop) :
  (forall i, keeps (fun _ => True) E
               (try_catch (react i) (fun e => emit (EvUncaughtError e)))) ->
  forall inputs w,
    exists new, trace (run w inputs) = trace w ++ new /\ Forall E new.
Proof.
  intros H inputs. induction inputs as [|i inputs IH]; intros w.
  - exists []. by rewrite app_nil_r.
  - destruct (H i w I) as (_ & new1 & Ht1 & Hf1).
    destruct (IH (step w i)) as (new2 & Ht2 & Hf2).
    exists (new1 ++ new2). split; [|by apply Forall_app].
    simpl. unfold step at 2 in Ht2. by rewrite Ht2, Ht1, <- app_assoc.
Qed.

Ltac effect_side :=
  unfold sent_when_open, navigate_at_cursor in *; simpl in *;
  first [ done | exact I ].

Lemma sendWebSocketMessage_when_open m :
  keeps (fun _ => True) sent_when_open (sendWebSocketMessage m).
Proof.
  intros w _. unfold sendWebSocketMessage. apply keeps_at_get; cbv beta.
  destruct (ws_is_open (app w)) eqn:E;
    apply runs_keeps_at, runs_at_emit; effect_side.
Qed.

Ltac send_hook :=
  idtac;
  lazymatch goal with
  | |- keeps_at _ _ (sendWebSocketMessage _) _ =>
      apply sendWebSocketMessage_when_open; exact I
  end.

Lemma sent_when_open_step (i : Input) :
  keeps (fun _ => True) sent_when_open
        (try_catch (react i) (fun e => emit (EvUncaughtError e))).
Proof.
  intros w Hw. destruct i.
  all: keeps_with send_hook effect_side.
Qed.

(** X1.  Whatever the browser delivers, every message that goes out on the
    socket goes out at a moment when [this.ws] exists and is OPEN:
    [sendWebSocketMessage] is the only place that sends, and it sends
    under that test. *)
Theorem X1_sends_only_when_open (w : World) (inputs : list Input) :
  exists new,
    trace (run w inputs) = trace w ++ new /\ Forall sent_when_open new.
Proof. apply step_trace, sent_when_open_step. Qed.

Lemma keeps_at_noop (J : World -> Prop) (E : Effect * App -> Prop) c w :
  c w = Done w -> J w -> keeps_at J E c w.
Proof.
  intros Hc Hw. unfold keeps_at. rewrite Hc. split; [done|].
  exists []. by rewrite app_nil_r.
Qed.

Lemma navigateToIndex_sends_index index :
  keeps (fun _ => True)
        (fun e => forall j, fst e = EvSend (MsgNavigate j) -> j = index)
        (navigateToIndex index).
Proof.
  intros w _.
  keeps_auto ltac:(simpl; first [done | intros ? [=]; done | intros ? ?; done]).
Qed.

Lemma navigateToIndex_at_cursor index :
  keeps (fun _ => True) navigate_at_cursor (navigateToIndex index).
Proof.
  intros w _.
  destruct (session (replica (app w))) as [s|] eqn:Hs.
  - destruct (decide (0 <= index < js_length (images s))) as [Hi|Hi].
    + destruct (navigateToIndex_runs w s index Hs Hi)
        as (w' & Hc & _ & new & Ht & Hf).
      destruct (navigateToIndex_sends_index index w I)
        as (_ & new' & Ht' & Hf').
      rewrite Hc in Ht'. simpl in Ht'. rewrite Ht in Ht'.
      apply app_inv_head in Ht' as <-.
      split; [done|]. exists new. rewrite Hc. split; [done|].
      apply Forall_forall. intros [e a] He.
      rewrite Forall_forall in Hf, Hf'.
      specialize (Hf _ He) as (HR & _ & _). specialize (Hf' _ He).
      unfold navigate_at_cursor. simpl in *.
      destruct e as [m| | | | | | | |]; try done. destruct m; try done.
      rewrite HR. eexists. split; [reflexivity|]. simpl.
      rewrite (Hf' index0 eq_refl). split; [done|].
      unfold valid_cursor. simpl. lia.
    + apply keeps_at_noop; [|done]. apply navigateToIndex_noop.
      right. exists s. split; [done|]. lia.
  - apply keeps_at_noop; [|done]. apply navigateToIndex_noop. by left.
Qed.

Ltac navigate_hook :=
  idtac;
  lazymatch goal with
  | |- keeps_at _ _ (navigateToIndex _) _ =>
      apply navigateToIndex_at_cursor; exact I
  end.

Lemma navigate_at_cursor_step (i : Input) :
  keeps (fun _ => True) navigate_at_cursor
        (try_catch (react i) (fun e => emit (EvUncaughtError e))).
Proof.
  intros w Hw. destruct i.
  all: keeps_with navigate_hook effect_side.
Qed.

(** X2.  Whatever the browser delivers, every navigate message that goes
    out carries the value that [session.current_index] has at that
    moment, and that value is an index of the image list. *)
Theorem X2_navigate_messages_at_cursor (w : World) (inputs : list Input) :
  exists new,
    trace (run w inputs) = trace w ++ new /\ Forall navigate_at_cursor new.
Proof. apply step_trace, navigate_at_cursor_step. Qed.

(** * Heartbeat *)

Lemma filter_filter_comm {A} (f g : A -> bool) (xs : list A) :
  List.filter f (List.filter g xs) = List.filter g (List.filter f xs).
Proof.
  induction xs as [|x xs IH]; [done|]. simpl.
  destruct (f x) eqn:Ef, (g x) eqn:Eg; simpl; rewrite ?Ef, ?Eg, ?IH; done.
Qed.

Lemma timers_fresh_filter (f : Timer -> bool) (w : World) :
  timers_fresh w ->
  timers_fresh (set_timers (List.filter f (timers w)) (next_timer w) w).
Proof. intros [Hp Hf]. split; [done|]. by apply Forall_filter_timers. Qed.

Lemma timers_fresh_add (x : Timer) (w : World) :
  timers_fresh w -> tid x = next_timer w ->
  timers_fresh (set_timers (timers w ++ [x]) (S (next_timer w)) w).
Proof.
  intros [Hp Hf] Hx. split; [simpl; lia|]. simpl. apply Forall_app. split.
  - eapply Forall_impl; [exact Hf|]. simpl. lia.
  - constructor; [lia | constructor].
Qed.

(** Clearing timers keeps the invariant. *)
Lemma heartbeat_inv_filter (f : Timer -> bool) (w : World) :
  heartbeat_inv w ->
  heartbeat_inv (set_timers (List.filter f (timers w)) (next_timer w) w).
Proof.
  intros [Hf H]. split; [by apply timers_fresh_filter|].
  unfold heartbeats in *. simpl. rewrite filter_filter_comm.
  destruct H as [-> | (t & Ht & ->)]; [by left|].
  simpl. destruct (f (heartbeat_timer t)); [right; by exists t | by left].
Qed.

(** So does a timer that is no heartbeat. *)
Lemma heartbeat_inv_add (x : Timer) (w : World) :
  heartbeat_inv w -> tid x = next_timer w -> is_heartbeat x = false ->
  heartbeat_inv (set_timers (timers w ++ [x]) (S (next_timer w)) w).
Proof.
  intros [Hf H] Hx Hh. split; [by apply timers_fresh_add|].
  unfold heartbeats in *. simpl. rewrite List.filter_app. simpl.
  rewrite Hh, app_nil_r. done.
Qed.

Lemma heartbeat_inv_app (f : App -> App) (w : World) :
  wsHeartbeatInterval (conn (f (app w))) = wsHeartbeatInterval (conn (app w)) ->
  heartbeat_inv w -> heartbeat_inv (upd_app f w).
Proof. intros Hf [? H]. split; [done|]. unfold heartbeats. simpl. by rewrite Hf. Qed.

Ltac heartbeat_side :=
  idtac;
  lazymatch goal with
  | |- any_effect _ => exact I
  | |- _ /\ _ => split; [exact I | assumption]
  | |- heartbeat_inv (upd_app _ _) =>
      apply heartbeat_inv_app; [reflexivity | assumption]
  | |- heartbeat_inv (set_timers (List.filter _ _) _ _) =>
      apply heartbeat_inv_filter; assumption
  | |- heartbeat_inv _ => assumption
  end.

Lemma in_heartbeats x w : In x (heartbeats w) -> In x (timers w).
Proof. unfold heartbeats. intros H. by apply List.filter_In in H as [? _]. Qed.

Lemma keeps_heartbeat_stopHeartbeat :
  keeps heartbeat_inv any_effect stopHeartbeat.
Proof.
  intros w Hw. unfold stopHeartbeat. apply keeps_at_get; cbv beta.
  destruct (truthy (wsHeartbeatInterval (conn (app w)))) eqn:E;
    [|by apply keeps_at_skip].
  destruct (wsHeartbeatInterval (conn (app w))) as [t|] eqn:Et; [|done].
  apply runs_keeps_at.
  eexists. split; [reflexivity|]. split; [|exists []; simpl; by rewrite app_nil_r].
  destruct (heartbeat_inv_filter (fun x => negb (Nat.eqb (tid x) t)) w Hw)
    as [Hf H].
  split; [exact Hf|]. left.
  destruct Hw as [_ [H0 | (t' & Ht' & H1)]];
    unfold heartbeats in *; simpl in *; rewrite filter_filter_comm.
  - by rewrite H0.
  - rewrite H1. simpl. rewrite Et in Ht'. injection Ht' as <-.
    by rewrite Nat.eqb_refl.
Qed.

(** After [stopHeartbeat] no heartbeat runs. *)
Lemma stopHeartbeat_none (w : World) :
  heartbeat_inv w ->
  exists w', stopHeartbeat w = Done w' /\ timers_fresh w' /\
             heartbeats w' = [] /\ trace w' = trace w.
Proof.
  intros Hw. unfold stopHeartbeat, get.
  destruct (truthy (wsHeartbeatInterval (conn (app w)))) eqn:E.
  - destruct (wsHeartbeatInterval (conn (app w))) as [t|] eqn:Et; [|done].
    eexists. split; [reflexivity|].
    split; [apply (timers_fresh_filter _ w), Hw|]. split; [|done].
    destruct Hw as [_ [H0 | (t' & Ht' & H1)]];
      unfold heartbeats in *; simpl in *; rewrite filter_filter_comm.
    + by rewrite H0.
    + rewrite H1. simpl. rewrite Et in Ht'. injection Ht' as <-.
      by rewrite Nat.eqb_refl.
  - exists w. split; [done|]. split; [apply Hw|]. split; [|done].
    destruct Hw as [[_ Hf] [H0 | (t' & Ht' & H1)]]; [done|].
    exfalso. rewrite Ht' in E.
    assert (Hin : In (heartbeat_timer t') (timers w)).
    { apply in_heartbeats. rewrite H1. by left. }
    rewrite Forall_forall in Hf. apply list_elem_of_In, Hf in Hin.
    simpl in Hin. destruct t'; [lia | done].
Qed.

Lemma keeps_heartbeat_startHeartbeat :
  keeps heartbeat_inv any_effect startHeartbeat.
Proof.
  intros w Hw. destruct (stopHeartbeat_none w Hw) as (w' & Hc & Hf & Hn & Ht).
  unfold keeps_at, startHeartbeat, seq. rewrite Hc. simpl.
  split; [|exists []; by rewrite app_nil_r].
  split; [by apply (timers_fresh_add (heartbeat_timer (next_timer w')) w')|].
  right. exists (next_timer w'). split; [done|].
  unfold heartbeats in *. simpl. rewrite List.filter_app, Hn. done.
Qed.

Lemma keeps_heartbeat_setTimeout (cb : Callback) (ms : Z) (k : TimerId -> Cmd) :
  cb <> CbHeartbeat ->
  (forall t, keeps heartbeat_inv any_effect (k t)) ->
  keeps heartbeat_inv any_effect (setTimeout cb ms k).
Proof.
  intros Hcb Hk w Hw. apply keeps_at_setTimer. apply Hk.
  apply heartbeat_inv_add; [done | done |]. unfold is_heartbeat. simpl.
  by destruct cb.
Qed.

Lemma keeps_heartbeat_socket_becomes (k : nat) (st : ReadyState) :
  keeps heartbeat_inv any_effect (socket_becomes k st).
Proof.
  intros w Hw. apply runs_keeps_at, runs_at_modify.
  destruct Hw as [Hf H]. split; [done|].
  unfold heartbeats in *. simpl.
  destruct (ws (conn (app w))) as [s|]; [|done].
  by destruct (Nat.eqb (sock s) k).
Qed.

Ltac heartbeat_hook :=
  idtac;
  lazymatch goal with
  | |- keeps_at _ _ startHeartbeat _ =>
      apply keeps_heartbeat_startHeartbeat; assumption
  | |- keeps_at _ _ stopHeartbeat _ =>
      apply keeps_heartbeat_stopHeartbeat; assumption
  | |- keeps_at _ _ (socket_becomes _ _) _ =>
      apply keeps_heartbeat_socket_becomes; assumption
  | |- keeps_at _ _ (setTimeout _ _ _) _ =>
      apply keeps_heartbeat_setTimeout; [done | intros ? | assumption]
  end.

Lemma keeps_heartbeat_react (i : Input) :
  keeps heartbeat_inv any_effect
        (try_catch (react i) (fun e => emit (EvUncaughtError e))).
Proof.
  intros w Hw. destruct i.
  all: keeps_with heartbeat_hook heartbeat_side.
Qed.

(** X3.  From a state where no heartbeat interval runs besides the one
    that [this.wsHeartbeatInterval] names, no sequence of inputs leads to
    two running heartbeat intervals: [startHeartbeat] stops the old one
    before it sets a new one, also when the socket opens twice. *)
Theorem X3_heartbeat_single (w : World) (inputs : list Input) :
  heartbeat_inv w ->
  heartbeat_inv (run w inputs) /\
  (length (heartbeats (run w inputs)) <= 1)%nat.
Proof.
  intros Hw.
  assert (H : heartbeat_inv (run w inputs)).
  { revert w Hw. induction inputs as [|i inputs IH]; intros w Hw; [done|].
    simpl. apply IH. apply (keeps_heartbeat_react i w Hw). }
  split; [done|]. destruct H as [_ [-> | (t & _ & ->)]]; simpl; lia.
Qed.

(** The socket opens twice: still one heartbeat. *)
Lemma X3_heartbeat_single_witness :
  (length (heartbeats (run sample_world [InWsOpen 0; InWsOpen 0])) <= 1)%nat.
Proof.
  apply (X3_heartbeat_single sample_world [InWsOpen 0; InWsOpen 0]).
  split; [split; [simpl; lia | constructor] | left; reflexivity].
Defined.

(** * The cursor and the current image *)

Lemma in_sync_app (f : App -> App) (w : World) :
  session (replica (f (app w))) = session (replica (app w)) ->
  currentImage (replica (f (app w))) = currentImage (replica (app w)) ->
  in_sync w -> in_sync (upd_app f w).
Proof. intros Hs Hc H s. simpl. rewrite Hs, Hc. apply H. Qed.

Ltac sync_side :=
  idtac;
  lazymatch goal with
  | |- any_effect _ => exact I
  | |- _ /\ _ => split; [exact I | assumption]
  | |- in_sync (upd_app _ _) =>
      apply in_sync_app; [reflexivity | reflexivity | assumption]
  | |- in_sync _ => assumption
  end.

Lemma keeps_sync_navigateToIndex index :
  keeps in_sync any_effect (navigateToIndex index).
Proof.
  intros w Hw.
  destruct (session (replica (app w))) as [s|] eqn:Hs.
  - destruct (decide (0 <= index < js_length (images s))) as [Hi|Hi].
    + apply runs_keeps_at.
      eapply runs_at_weaken; [by apply (navigateToIndex_runs w s index) | |done].
      intros w' [HR _] s'. rewrite HR. simpl. by intros [= <-].
    + apply keeps_at_noop; [|done]. apply navigateToIndex_noop.
      right. exists s. split; [done|]. lia.
  - apply keeps_at_noop; [|done]. apply navigateToIndex_noop. by left.
Qed.

Lemma keeps_sync_navigateToFolder_finish folderPath :
  keeps in_sync any_effect (navigateToFolder_finish folderPath).
Proof.
  intros w Hw. unfold navigateToFolder_finish.
  apply keeps_at_with_session; [done|]. intros s Hs.
  apply keeps_at_seq.
  - apply runs_keeps_at, runs_at_modify. intros s'. simpl.
    destruct (findIndex _ _ =? -1); [by apply Hw|]. simpl. by intros [= <-].
  - intros w' Hw'. keeps_auto sync_side.
Qed.

Lemma keeps_sync_socket_becomes (k : nat) (st : ReadyState) :
  keeps in_sync any_effect (socket_becomes k st).
Proof.
  intros w Hw. apply runs_keeps_at, runs_at_modify. exact Hw.
Qed.

Ltac sync_hook :=
  idtac;
  lazymatch goal with
  | |- keeps_at _ _ (navigateToIndex _) _ =>
      apply keeps_sync_navigateToIndex; assumption
  | |- keeps_at _ _ (navigateToFolder_finish _) _ =>
      apply keeps_sync_navigateToFolder_finish; assumption
  | |- keeps_at _ _ (socket_becomes _ _) _ =>
      apply keeps_sync_socket_becomes; assumption
  end.

Lemma keeps_sync_react (i : Input) :
  keeps_cursor i ->
  keeps in_sync any_effect
        (try_catch (react i) (fun e => emit (EvUncaughtError e))).
Proof.
  intros Hi w Hw.
  destruct i as [| | |event| | | | | | | | | | | |r|? r|? r|];
    try destruct event; try destruct r; try (by destruct Hi).
  all: keeps_with sync_hook sync_side.
Qed.

(** X4.  [this.currentImage] stays the image at
    [session.images[session.current_index]] under every input except a
    [state_update] frame and the reply to a request for the session (the
    two places that take the cursor from the server): keys, clicks,
    timers, socket events, the other frames and replies keep the two in
    step. *)
Theorem X4_cursor_in_sync (w : World) (inputs : list Input) :
  in_sync w -> Forall keeps_cursor inputs -> in_sync (run w inputs).
Proof.
  intros Hw Hi. revert w Hw.
  induction Hi as [|i inputs Hi _ IH]; intros w Hw; [done|].
  simpl. apply IH. apply (keeps_sync_react i Hi w Hw).
Qed.

(** Next image, a label, a timer: the current image is the one under the
    cursor. *)
Lemma X4_cursor_in_sync_witness :
  in_sync (run sample_world [press "j"; press "1"; InTimer 1%nat]).
Proof.
  apply (X4_cursor_in_sync sample_world [press "j"; press "1"; InTimer 1%nat]).
  - intros s Hs. simpl in Hs. injection Hs as <-. reflexivity.
  - repeat constructor.
Defined.

(** * Keys under an overlay and in filter mode *)

Lemma on_page_eqb event :
  on_page event ->
  String.eqb (target_tagName event) "INPUT"
  || String.eqb (target_tagName event) "TEXTAREA" = false.
Proof.
  intros [H1 H2]. apply orb_false_intro; by apply String.eqb_neq.
Qed.

Lemma sent_emit (w : World) (e : Effect) (a : App) :
  sent (set_trace (trace w ++ [(e, a)]) w)
    = sent w ++ match e with EvSend m => [m] | _ => [] end.
Proof. unfold sent. simpl. rewrite omap_app. simpl. by destruct e. Qed.

(** X5.  A key pressed on the page while an overlay is open never reaches
    the shortcuts: the replica and the keyboard state are unchanged and no
    message is sent.  Under the help or stats overlay, and for Escape
    under any overlay, the overlay is closed and no request is started;
    under the commit overlay a key other than Escape and Enter changes
    nothing at all. *)
Theorem X5_keys_under_overlay (w : World) (event : KeyboardEvent) (o : Overlay) :
  on_page event ->
  activeOverlay (ui (app w)) = Some o ->
  let w' := step w (InKeyDown event) in
  replica (app w') = replica (app w) /\
  keys (app w') = keys (app w) /\
  sent w' = sent w /\
  (o <> commit \/ key event = "Escape" ->
     activeOverlay (ui (app w')) = None /\ pending w' = pending w) /\
  (o = commit -> key event <> "Escape" -> key event <> "Enter" -> w' = w).
Proof.
  intros Hp Ho w'. subst w'.
  unfold step, react, handleKeyDown, try_catch.
  rewrite (on_page_eqb _ Hp). unfold get. rewrite Ho.
  assert (Hclose :
    let w' := world_of (match (preventDefault ;; closeOverlay) w with
                        | Done w0 => Done w0
                        | Threw e w0 => emit (EvUncaughtError e) w0
                        end) in
    replica (app w') = replica (app w) /\ keys (app w') = keys (app w) /\
    sent w' = sent w /\
    activeOverlay (ui (app w')) = None /\ pending w' = pending w).
  { unfold seq, preventDefault, emit, closeOverlay, get. simpl.
    rewrite Ho. unfold seq, emit, modify. simpl.
    repeat split. unfold sent. simpl. by rewrite !omap_app, !app_nil_r. }
  destruct Hclose as (H1 & H2 & H3 & H4 & H5).
  destruct (String.eqb (key event) "Escape") eqn:E.
  - assert (Hk := E). apply String.eqb_eq in Hk.
    destruct o; (split; [done|]; split; [done|]; split; [done|]; split; [done|]);
      intros; done.
  - apply String.eqb_neq in E.
    destruct o.
    + split; [done|]. split; [done|]. split; [done|]. split; [done|]. done.
    + split; [done|]. split; [done|]. split; [done|]. split; [done|]. done.
    + destruct (String.eqb (key event) "Enter") eqn:En.
      * unfold seq, preventDefault, emit, confirmCommit, async, try_catch, get.
        simpl. rewrite Ho. unfold seq, showToast, executeCommit, emit, await.
        simpl. split; [done|]. split; [done|].
        split; [unfold sent; simpl; by rewrite !omap_app, !app_nil_r|].
        split; [intros [?|?]; done|]. intros _ _ Hn.
        apply String.eqb_eq in En. done.
      * simpl. split; [done|]. split; [done|]. split; [done|].
        split; [intros [?|?]; done|]. done.
Qed.

(** [d] under the help overlay closes the overlay and deletes nothing. *)
Lemma X5_keys_under_overlay_witness :
  replica (app (step help_world (press "d"))) = replica (app help_world) /\
  activeOverlay (ui (app (step help_world (press "d")))) = None.
Proof.
  destruct (X5_keys_under_overlay help_world
              {| key := "d"; target_tagName := "BODY"; shiftKey := false |}
              help)
    as (H1 & _ & _ & H4 & _).
  - split; simpl; discriminate.
  - reflexivity.
  - split; [exact H1|]. apply H4. left. discriminate.
Defined.

Ltac filter_done :=
  eexists; split;
  [ rewrite <- ?app_assoc; reflexivity | simpl; repeat constructor ].

(** X6.  In filter mode (after [f]) the next key pressed on the page, with
    a session loaded and no overlay, ends filter mode and does nothing
    else to the application: whatever the key, nothing is labelled,
    nothing moves, nothing is sent or requested; the page only gets
    [preventDefault] and at most a toast. *)
Theorem X6_filter_mode_one_shot (w : World) (event : KeyboardEvent) :
  on_page event ->
  activeOverlay (ui (app w)) = None ->
  filterMode (keys (app w)) = true ->
  is_Some (session (replica (app w))) ->
  exists new,
    step w (InKeyDown event)
      = set_trace (trace w ++ new)
          (upd_app (upd_keys (set_filterMode false)) w) /\
    Forall page_only new.
Proof.
  intros Hp Ho Hf [s Hs].
  unfold step, react, handleKeyDown, try_catch.
  rewrite (on_page_eqb _ Hp). unfold get. rewrite Ho, Hf.
  destruct (String.leb "0" (key event) && String.leb (key event) "9").
  - unfold applyFilter.
    destruct (parseInt (key event)) as [[|p|p]|];
      unfold seq, preventDefault, emit, showToast, with_session, get, emit,
        modify, skip; simpl; rewrite ?Hs; simpl.
    + filter_done.
    + destruct (js_index (classes s) (Z.pos p - 1)) as [c|]; simpl;
        [destruct (String.eqb c ""); simpl|]; filter_done.
    + destruct (js_index (classes s) (Z.neg p - 1)) as [c|]; simpl;
        [destruct (String.eqb c ""); simpl|]; filter_done.
    + filter_done.
  - unfold seq, preventDefault, emit, modify, skip. simpl. filter_done.
Qed.

(** [1] in filter mode labels nothing. *)
Lemma X6_filter_mode_one_shot_witness :
  exists new,
    step filter_world (press "1")
      = set_trace (trace filter_world ++ new)
          (upd_app (upd_keys (set_filterMode false)) filter_world) /\
    Forall page_only new.
Proof.
  apply (X6_filter_mode_one_shot filter_world
           {| key := "1"; target_tagName := "BODY"; shiftKey := false |}).
  - split; simpl; discriminate.
  - reflexivity.
  - reflexivity.
  - eexists. reflexivity.
Defined.

(** * Jumps: the last image of the folder, the next unlabeled image *)

Lemma scan_in_range o imgs test idxs :
  (forall j, j ∈ idxs -> 0 <= j < js_length imgs) ->
  scan o imgs test idxs <> ScanThrow.
Proof.
  induction idxs as [|j idxs IH]; [done|]. intros H. simpl.
  destruct (js_index_Some imgs j) as [l ->]; [apply H; left|].
  destruct (test (o !!! l)); [done|]. apply IH. intros k Hk. apply H. by right.
Qed.

Lemma scan_app o imgs test xs ys :
  scan o imgs test (xs ++ ys) =
    match scan o imgs test xs with
    | ScanNone => scan o imgs test ys
    | r => r
    end.
Proof.
  induction xs as [|x xs IH]; [done|]. simpl.
  destruct (js_index imgs x) as [l|]; [|done]. by destruct (test (o !!! l)).
Qed.

(** An upward scan stops at the least index of its range that passes the
    test. *)
Lemma scan_up o imgs test (len : nat) (a : Z) :
  match scan o imgs test (seqZ a (Z.of_nat len)) with
  | ScanFound i =>
      a <= i < a + Z.of_nat len /\ tested o imgs test i true /\
      forall j, a <= j < i -> tested o imgs test j false
  | ScanNone => forall j, a <= j < a + Z.of_nat len -> tested o imgs test j false
  | ScanThrow => True
  end.
Proof.
  revert a. induction len as [|len IH]; intros a.
  { simpl. intros j Hj. lia. }
  rewrite seqZ_cons by lia. simpl.
  replace (Z.pred (Z.of_nat (S len))) with (Z.of_nat len) by lia.
  destruct (js_index imgs a) as [l|] eqn:Ha; [|done].
  destruct (test (o !!! l)) eqn:Ht.
  - split; [lia|]. split; [by exists l|]. intros j Hj. lia.
  - specialize (IH (Z.succ a)).
    destruct (scan o imgs test (seqZ (Z.succ a) (Z.of_nat len))) as [i| |].
    + destruct IH as (Hi & Hti & Hbefore). split; [lia|]. split; [done|].
      intros j Hj. destruct (decide (j = a)) as [->|]; [by exists l|].
      apply Hbefore. lia.
    + done.
    + intros j Hj. destruct (decide (j = a)) as [->|]; [by exists l|].
      apply IH. lia.
Qed.

(** A downward scan from [k - 1] to [0] stops at the greatest index that
    passes the test. *)
Lemma scan_down o imgs test (k : nat) :
  match scan o imgs test (reverse (seqZ 0 (Z.of_nat k))) with
  | ScanFound i =>
      0 <= i < Z.of_nat k /\ tested o imgs test i true /\
      forall j, i < j < Z.of_nat k -> tested o imgs test j false
  | ScanNone => forall j, 0 <= j < Z.of_nat k -> tested o imgs test j false
  | ScanThrow => True
  end.
Proof.
  induction k as [|k IH].
  { simpl. intros j Hj. lia. }
  replace (Z.of_nat (S k)) with (Z.of_nat k + 1) by lia.
  rewrite seqZ_app by lia. rewrite reverse_app. simpl.
  replace (Z.of_nat 0 + (0 + Z.of_nat k)) with (Z.of_nat k) by lia.
  destruct (js_index imgs (Z.of_nat k)) as [l|] eqn:Ha; [|done].
  destruct (test (o !!! l)) eqn:Ht.
  - split; [lia|]. split; [by exists l|]. intros j Hj. lia.
  - destruct (scan o imgs test (reverse (seqZ 0 (Z.of_nat k)))) as [i| |].
    + destruct IH as (Hi & Hti & Hafter). split; [lia|]. split; [done|].
      intros j Hj. destruct (decide (j = Z.of_nat k)) as [->|]; [by exists l|].
      apply Hafter. lia.
    + done.
    + intros j Hj. destruct (decide (j = Z.of_nat k)) as [->|]; [by exists l|].
      apply IH. lia.
Qed.

(** Where [navigateToIndex] leaves the replica. *)
Lemma navigateToIndex_lands (w : World) (s : SessionState) (index : Z) :
  session (replica (app w)) = Some s ->
  0 <= index < js_length (images s) ->
  exists w',
    navigateToIndex index w = Done w' /\
    replica (app w') = navigated index s (replica (app w)).
Proof.
  intros Hs Hi.
  destruct (navigateToIndex_runs w s index Hs Hi) as (w' & Hc & [HR _] & _).
  by exists w'.
Qed.

(** X8.  When the current image is the one under the cursor,
    [navigateToLastInFolder] moves the cursor to the last image of the
    list that lies in the folder of the current image: an index at or
    after the cursor, in that folder, with no image of the folder after
    it. *)
Theorem X8_navigateToLastInFolder_last (w : World) (s : SessionState) (c : loc) :
  session (replica (app w)) = Some s ->
  currentImage (replica (app w)) = Some c ->
  js_index (images s) (current_index s) = Some c ->
  let o := objs (replica (app w)) in
  let parent := parentFolder (id (o !!! c)) in
  exists i w',
    navigateToLastInFolder w = Done w' /\
    replica (app w') = navigated i s (replica (app w)) /\
    current_index s <= i < js_length (images s) /\
    tested o (images s) (sameFolder parent) i true /\
    forall j, i < j < js_length (images s) ->
      tested o (images s) (sameFolder parent) j false.
Proof.
  intros Hs Hc Hcur o parent.
  unfold navigateToLastInFolder, get, with_session, get. rewrite Hc, Hs.
  fold o parent.
  pose proof (js_index_range _ _ _ Hcur) as Hrange.
  assert (Hself : ~ tested o (images s) (sameFolder parent) (current_index s) false).
  { intros (l & Hl & Hf). rewrite Hcur in Hl. injection Hl as <-.
    unfold sameFolder, parent in Hf. by rewrite String.eqb_refl in Hf. }
  pose proof (scan_down o (images s) (sameFolder parent) (length (images s)))
    as Hscan.
  fold (js_length (images s)) in Hscan.
  destruct (scan o (images s) (sameFolder parent)
              (reverse (seqZ 0 (js_length (images s))))) as [i| |] eqn:E.
  - destruct Hscan as (Hi & Ht & Hafter).
    destruct (navigateToIndex_lands w s i Hs Hi) as (w' & Hrun & HR).
    exists i, w'. simpl. split; [done|]. split; [done|].
    split; [|done]. split; [|lia].
    destruct (decide (current_index s <= i)) as [|Hlt]; [done|].
    destruct Hself. apply Hafter. lia.
  - exfalso. revert E. apply scan_in_range.
    intros j Hj%elem_of_reverse%elem_of_seqZ. lia.
  - destruct Hself. apply Hscan. lia.
Qed.

(** On the sample session, from the first image. *)
Lemma X8_navigateToLastInFolder_last_witness :
  exists i w',
    navigateToLastInFolder sample_world = Done w' /\
    replica (app w')
      = navigated i (sample_session 0) (replica (app sample_world)) /\
    0 <= i < 3.
Proof.
  destruct (X8_navigateToLastInFolder_last sample_world (sample_session 0) 0%nat)
    as (i & w' & H1 & H2 & H3 & _).
  - reflexivity.
  - reflexivity.
  - reflexivity.
  - exists i, w'. split; [exact H1|]. split; [exact H2|]. exact H3.
Defined.

(** X9.  With the cursor inside the list, [navigateToNextUnlabeled] moves
    to the first image, going forward from the cursor and wrapping at the
    end, that has no label and no deletion mark; the current image itself
    is never a candidate.  When every other image is labelled or marked,
    it only shows the toast and leaves everything else as it is. *)
Theorem X9_navigateToNextUnlabeled_next (w : World) (s : SessionState) :
  session (replica (app w)) = Some s ->
  valid_cursor s ->
  let o := objs (replica (app w)) in
  let n := js_length (images s) in
  let ci := current_index s in
  (exists i w',
     navigateToNextUnlabeled w = Done w' /\
     replica (app w') = navigated i s (replica (app w)) /\
     0 <= i < n /\ i <> ci /\
     tested o (images s) unlabeled i true /\
     forall j, (if decide (ci < i) then ci < j < i
                else ci < j < n \/ 0 <= j < i) ->
       tested o (images s) unlabeled j false)
  \/
  (navigateToNextUnlabeled w
     = Done (set_trace (trace w ++ [(EvToast ToastNoUnlabeled, app w)]) w) /\
   forall j, 0 <= j < n -> j <> ci -> tested o (images s) unlabeled j false).
Proof.
  intros Hs Hv o n ci. unfold valid_cursor in Hv. fold n ci in Hv.
  unfold navigateToNextUnlabeled, get. rewrite Hs. fold o n ci.
  rewrite scan_app.
  pose proof (scan_up o (images s) unlabeled (Z.to_nat (n - (ci + 1))) (ci + 1))
    as H1.
  rewrite Z2Nat.id in H1 by lia.
  pose proof (scan_up o (images s) unlabeled (Z.to_nat ci) 0) as H2.
  rewrite Z2Nat.id in H2 by lia.
  destruct (scan o (images s) unlabeled (seqZ (ci + 1) (n - (ci + 1))))
    as [i| |] eqn:E1.
  - left. destruct H1 as (Hi & Ht & Hb).
    destruct (navigateToIndex_lands w s i Hs ltac:(lia)) as (w' & Hrun & HR).
    exists i, w'. simpl. split; [done|]. split; [done|]. split; [lia|].
    split; [lia|]. split; [done|]. intros j Hj.
    rewrite decide_True in Hj by lia. apply Hb. lia.
  - exfalso. revert E1. apply scan_in_range.
    intros j Hj%elem_of_seqZ. fold n. lia.
  - destruct (scan o (images s) unlabeled (seqZ 0 ci)) as [i| |] eqn:E2.
    + left. destruct H2 as (Hi & Ht & Hb).
      destruct (navigateToIndex_lands w s i Hs ltac:(lia)) as (w' & Hrun & HR).
      exists i, w'. simpl. split; [done|]. split; [done|]. split; [lia|].
      split; [lia|]. split; [done|]. intros j Hj.
      rewrite decide_False in Hj by lia.
      destruct Hj as [Hj|Hj]; [apply H1 | apply Hb]; lia.
    + exfalso. revert E2. apply scan_in_range.
      intros j Hj%elem_of_seqZ. fold n. lia.
    + right. split; [done|]. intros j Hj Hne.
      destruct (decide (j < ci)); [apply H2 | apply H1]; lia.
Qed.

(** On the sample session, from the first image. *)
Lemma X9_navigateToNextUnlabeled_next_witness :
  (exists i w',
     navigateToNextUnlabeled sample_world = Done w' /\
     replica (app w')
       = navigated i (sample_session 0) (replica (app sample_world))) \/
  navigateToNextUnlabeled sample_world
    = Done (set_trace (trace sample_world
                       ++ [(EvToast ToastNoUnlabeled, app sample_world)])
              sample_world).
Proof.
  destruct (X9_navigateToNextUnlabeled_next sample_world (sample_session 0))
    as [(i & w' & H1 & H2 & _) | [H1 _]].
  - reflexivity.
  - unfold valid_cursor, js_length. simpl. lia.
  - left. exists i, w'. split; [exact H1 | exact H2].
  - right. exact H1.
Defined.

(** * Undo *)

Lemma findIndex_from_first {A} (p : A -> bool) (xs : list A) (k : Z)
    (i : nat) (x : A) :
  xs !! i = Some x -> p x = true ->
  (forall j y, (j < i)%nat -> xs !! j = Some y -> p y = false) ->
  findIndex_from p xs k = k + Z.of_nat i.
Proof.
  revert k i. induction xs as [|y xs IH]; intros k i Hx Hp Hb; [done|].
  destruct i as [|i]; simpl in *.
  - injection Hx as ->. rewrite Hp. lia.
  - rewrite (Hb 0%nat y) by (done || lia).
    rewrite (IH (k + 1) i); [lia | done | done |].
    intros j z Hj Hz. apply (Hb (S j)); [lia | done].
Qed.

Lemma find_first {A} (p : A -> bool) (xs : list A) (i : nat) (x : A) :
  xs !! i = Some x -> p x = true ->
  (forall j y, (j < i)%nat -> xs !! j = Some y -> p y = false) ->
  List.find p xs = Some x.
Proof.
  revert i. induction xs as [|y xs IH]; intros i Hx Hp Hb; [done|].
  destruct i as [|i]; simpl in *.
  - injection Hx as ->. by rewrite Hp.
  - rewrite (Hb 0%nat y) by (done || lia).
    apply (IH i); [done | done |].
    intros j z Hj Hz. apply (Hb (S j)); [lia | done].
Qed.

Lemma js_index_lookup {A} (xs : list A) (i : Z) (x : A) :
  js_index xs i = Some x -> xs !! Z.to_nat i = Some x /\ 0 <= i.
Proof.
  unfold js_index. destruct (i <? 0) eqn:E; [done|]. intros H. split; [done|lia].
Qed.

Lemma lookup_js_index {A} (xs : list A) (j : nat) (x : A) :
  xs !! j = Some x -> js_index xs (Z.of_nat j) = Some x.
Proof.
  intros H. unfold js_index.
  destruct (Z.of_nat j <? 0) eqn:E; [apply Z.ltb_lt in E; lia|].
  by rewrite Nat2Z.id.
Qed.

Lemma lookup_total_alter_Some (f : ImageInfo -> ImageInfo)
    (o : gmap loc ImageInfo) (l : loc) (x : ImageInfo) :
  o !! l = Some x -> alter f l o !!! l = f x.
Proof. intros H. by rewrite lookup_total_alt, lookup_alter_eq, H. Qed.

Lemma lookup_total_alter_other (f : ImageInfo -> ImageInfo)
    (o : gmap loc ImageInfo) (l x : loc) :
  x <> l -> alter f l o !!! x = o !!! x.
Proof. intros H. by rewrite !lookup_total_alt, lookup_alter_ne. Qed.

Section UndoCompleted.
Variable w1 : World.
Variable s : SessionState.
Variable l : loc.
Variable img : ImageInfo.
Variable changed : ImageInfo.
Variable action : string.
Variable n : Z.
Hypothesis Hs1 : session (replica (app w1)) = Some (set_current_index n s).
Hypothesis Hcur : js_index (images s) (current_index s) = Some l.
Hypothesis Hl : objs (replica (app w1)) !! l = Some changed.
Hypothesis Hid : id changed = id img.
Hypothesis Hname : filename changed = filename img.
Hypothesis Hfirst :
  first_with_id (objs (replica (app w1))) (images s) (id img) (current_index s).

Lemma object_assign_restored :
  object_assign (restored_from img) changed = img.
Proof.
  unfold object_assign, restored_from, set_label, set_class_name,
    set_marked_for_deletion. simpl. rewrite Hid, Hname. by destruct img.
Qed.

Lemma undo_find_image :
  find_image (objs (replica (app w1))) (images s) (id img) = Some l.
Proof.
  destruct (js_index_lookup _ _ _ Hcur) as [Hc Hpos].
  apply (find_first _ _ (Z.to_nat (current_index s))); [done | |].
  - rewrite (lookup_total_correct _ _ _ Hl), Hid. apply String.eqb_refl.
  - intros j y Hj Hy. apply String.eqb_neq.
    apply (Hfirst (Z.of_nat j)); [lia|]. by apply lookup_js_index.
Qed.

Lemma undo_findIndex (o : gmap loc ImageInfo) :
  (forall x, id (o !!! x) = id (objs (replica (app w1)) !!! x)) ->
  findIndex (fun x => String.eqb (id (o !!! x)) (id img)) (images s)
    = current_index s.
Proof.
  intros Ho. destruct (js_index_lookup _ _ _ Hcur) as [Hc Hpos].
  unfold findIndex.
  rewrite (findIndex_from_first _ _ 0 (Z.to_nat (current_index s)) l);
    [lia | done | |].
  - rewrite Ho, (lookup_total_correct _ _ _ Hl), Hid. apply String.eqb_refl.
  - intros j y Hj Hy. rewrite Ho. apply String.eqb_neq.
    apply (Hfirst (Z.of_nat j)); [lia|]. by apply lookup_js_index.
Qed.

(** The handler puts the fields back and returns the cursor to the
    image. *)
Lemma handleUndoCompleted_restores :
  exists w2,
    handleUndoCompleted (undo_payload img action) w1 = Done w2 /\
    replica (app w2) =
      {| objs := <[l := img]> (objs (replica (app w1)));
         session := Some s;
         currentImage := Some l |}.
Proof.
  pose proof (js_index_range _ _ _ Hcur) as Hrange.
  set (O := alter (object_assign (restored_from img)) l
              (objs (replica (app w1)))).
  assert (HO : O = <[l := img]> (objs (replica (app w1)))).
  { apply map_eq. intros x. unfold O.
    destruct (decide (x = l)) as [->|Hne].
    - rewrite lookup_alter_eq, lookup_insert_eq, Hl. simpl.
      by rewrite object_assign_restored.
    - by rewrite lookup_alter_ne, lookup_insert_ne. }
  set (wa := upd_app (upd_replica (set_objs O)) w1).
  assert (Hsa : session (replica (app wa)) = Some (set_current_index n s))
    by done.
  destruct (navigateToIndex_runs wa _ (current_index s) Hsa Hrange)
    as (wb & Hnav & [HRb HCb] & _).
  set (Rb := navigated (current_index s) (set_current_index n s)
               (replica (app wa))) in *.
  assert (Hrest : runs_at (frozen Rb (conn (app wa))) (at_replica Rb (conn (app wa)))
            (showToast (ToastUndid action (id img)) ;; updateUI ;;
             updateChangeCount) wb).
  { apply runs_at_seq; [apply runs_at_emit; frozen_side|].
    apply runs_seq; [by eapply runs_updateUI | apply runs_updateChangeCount]. }
  destruct Hrest as (w2 & Hrun & [HR2 _] & _).
  exists w2. split.
  - unfold handleUndoCompleted, with_session, get. rewrite Hs1.
    unfold seq at 1. unfold get.
    change (images (set_current_index n s)) with (images s).
    change (up_image_id (undo_payload img action)) with (id img).
    change (up_restored_state (undo_payload img action))
      with (Some (restored_from img)).
    change (up_undone_action (undo_payload img action)) with action.
    rewrite undo_find_image.
    change (assign l (object_assign (restored_from img)) w1) with (Done wa).
    unfold seq at 1. unfold get.
    rewrite (undo_findIndex (objs (replica (app wa)))).
    2: { intros x. simpl. unfold O. destruct (decide (x = l)) as [->|Hne].
         - rewrite (lookup_total_alter_Some _ _ _ _ Hl).
           rewrite object_assign_restored.
           by rewrite (lookup_total_correct _ _ _ Hl), Hid.
         - by rewrite lookup_total_alter_other. }
    replace (current_index s =? -1) with false by (symmetry; apply Z.eqb_neq; lia).
    rewrite Hnav. exact Hrun.
  - rewrite HR2. unfold Rb, navigated, set_currentImage, set_session. simpl.
    change (images (set_current_index n s)) with (images s).
    rewrite Hcur, <- HO.
    replace (set_current_index (current_index s) (set_current_index n s))
      with s by (by destruct s).
    done.
Qed.
End UndoCompleted.

Lemma insert_alter_id (f : ImageInfo -> ImageInfo) (o : gmap loc ImageInfo)
    (l : loc) (img : ImageInfo) :
  o !! l = Some img -> <[l := img]> (alter f l o) = o.
Proof.
  intros H. apply map_eq. intros x. destruct (decide (x = l)) as [->|Hne].
  - by rewrite lookup_insert_eq.
  - by rewrite lookup_insert_ne, lookup_alter_ne.
Qed.

Lemma undo_after (w w1 : World) (s : SessionState) (l : loc)
    (img : ImageInfo) (f : ImageInfo -> ImageInfo) (action : string) (n : Z) :
  session (replica (app w)) = Some s ->
  currentImage (replica (app w)) = Some l ->
  js_index (images s) (current_index s) = Some l ->
  objs (replica (app w)) !! l = Some img ->
  first_with_id (objs (replica (app w))) (images s) (id img) (current_index s) ->
  (forall x, id (f x) = id x /\ filename (f x) = filename x) ->
  objs (replica (app w1)) = alter f l (objs (replica (app w))) ->
  session (replica (app w1)) = Some (set_current_index n s) ->
  exists w2,
    handleUndoCompleted (undo_payload img action) w1 = Done w2 /\
    replica (app w2) = replica (app w).
Proof.
  intros Hs Hc Hcur Hl Hfirst Hf HO Hs1.
  destruct (handleUndoCompleted_restores w1 s l img (f img) action n)
    as (w2 & Hrun & HR); try done.
  - by rewrite HO, lookup_alter_eq, Hl.
  - apply Hf.
  - apply Hf.
  - intros j l' Hj Hl'. rewrite HO.
    destruct (decide (l' = l)) as [->|Hne].
    + exfalso. apply (Hfirst j l Hj Hl').
      by rewrite (lookup_total_correct _ _ _ Hl).
    + rewrite lookup_total_alter_other by done. by apply (Hfirst j).
  - exists w2. split; [done|]. rewrite HR, HO, insert_alter_id by done.
    destruct (replica (app w)). simpl in *. by subst.
Qed.

(** X10.  Undo round trip.  When the current image is the one under the
    cursor and no earlier image of the list has its identifier, an
    optimistic [deleteImage] or [labelImage] followed by the frame
    [undo_completed] that carries the three fields of the image as they
    were brings the whole replica back: the fields of the image, the
    cursor and the current image are as before the mutation. *)
Theorem X10_undo_round_trip (w : World) (s : SessionState) (l : loc)
    (img : ImageInfo) :
  session (replica (app w)) = Some s ->
  valid_cursor s ->
  currentImage (replica (app w)) = Some l ->
  js_index (images s) (current_index s) = Some l ->
  objs (replica (app w)) !! l = Some img ->
  first_with_id (objs (replica (app w))) (images s) (id img) (current_index s) ->
  (exists w1 w2,
     deleteImage w = Done w1 /\
     handleUndoCompleted (undo_payload img "delete") w1 = Done w2 /\
     replica (app w2) = replica (app w)) /\
  (forall classIndex, exists w1 w2,
     labelImage classIndex w = Done w1 /\
     handleUndoCompleted (undo_payload img "label") w1 = Done w2 /\
     replica (app w2) = replica (app w)).
Proof.
  intros Hs Hv Hc Hcur Hl Hfirst. split.
  - destruct (deleteImage_runs w s l img Hs Hv Hc Hl)
      as (w1 & mid & Hrun & _ & _ & HO & Hs1 & _).
    destruct (undo_after w w1 s l img deleted "delete" (next_index s))
      as (w2 & H2 & HR); try done.
    by exists w1, w2.
  - intros classIndex.
    destruct (labelImage_runs w s l img classIndex Hs Hv Hc Hl)
      as (w1 & mid & Hrun & _ & _ & HO & Hs1 & _).
    destruct (undo_after w w1 s l img
                (labelled (Some classIndex) (class_entry s classIndex))
                "label" (next_index s))
      as (w2 & H2 & HR); try done.
    by exists w1, w2.
Qed.

(** Delete the first image of the sample session, then undo. *)
Lemma X10_undo_round_trip_witness :
  exists w1 w2,
    deleteImage sample_world = Done w1 /\
    handleUndoCompleted (undo_payload (fresh_image "a/x.png") "delete") w1
      = Done w2 /\
    replica (app w2) = replica (app sample_world).
Proof.
  destruct (X10_undo_round_trip sample_world (sample_session 0) 0%nat
              (fresh_image "a/x.png")) as [H _].
  - reflexivity.
  - unfold valid_cursor, js_length. simpl. lia.
  - reflexivity.
  - reflexivity.
  - reflexivity.
  - intros j l' Hj. simpl in Hj. lia.
  - exact H.
Defined.

(** * Class buttons *)

(** X7.  The key that [renderClassButtons] prints on the button of a class
    does what a click on the button does, for the first ten classes: the
    button of the class [index] calls [labelImage index], and so does the
    key [keyNumber index] when [index <= 9].  From the eleventh class on
    the button shows the key 0, which labels with the class 9. *)
Theorem X7_class_button_key (w : World) (s : SessionState) (index : Z) :
  session (replica (app w)) = Some s ->
  0 <= index < js_length (classes s) ->
  click (BtnClass index) w = labelImage index w /\
  (index <= 9 -> handleClassKey (keyNumber index) w = labelImage index w) /\
  (9 < index -> handleClassKey (keyNumber index) w = labelImage 9 w).
Proof.
  intros Hs Hi. split; [|split].
  - unfold click, get. rewrite Hs.
    by replace ((0 <=? index) && (index <? js_length (classes s))) with true
      by (symmetry; apply andb_true_intro; lia).
  - intros H9. unfold handleClassKey, with_session, get, keyNumber. rewrite Hs.
    destruct (index <? 9) eqn:E.
    + replace (index + 1 =? 0) with false by lia.
      replace (index + 1 - 1) with index by lia.
      by replace (js_length (classes s) <=? index) with false by lia.
    + assert (index = 9) as -> by lia. simpl.
      replace (Z.min 9 (js_length (classes s) - 1)) with 9 by lia.
      by replace (js_length (classes s) <=? 9) with false by lia.
  - intros H9. unfold handleClassKey, with_session, get, keyNumber. rewrite Hs.
    replace (index <? 9) with false by lia. simpl.
    replace (Z.min 9 (js_length (classes s) - 1)) with 9 by lia.
    by replace (js_length (classes s) <=? 9) with false by lia.
Qed.

(** The button of the class 1 shows the key 2. *)
Lemma X7_class_button_key_witness :
  handleClassKey (keyNumber 1) sample_world = labelImage 1 sample_world.
Proof.
  destruct (X7_class_button_key sample_world (sample_session 0) 1) as (_ & H & _).
  - reflexivity.
  - unfold js_length. simpl. lia.
  - apply H. lia.
Defined.

(** * The position in the folder and the progress counter *)

Lemma findIndex_from_found {A} (p : A -> bool) (xs : list A) (k : Z) (x : A) :
  x ∈ xs -> p x = true ->
  k <= findIndex_from p xs k < k + js_length xs.
Proof.
  revert k. induction xs as [|y xs IH]; intros k Hx Hp.
  { by apply elem_of_nil in Hx. }
  unfold js_length. simpl. destruct (p y) eqn:Hy; [lia|].
  apply elem_of_cons in Hx as [->|Hx]; [congruence|].
  specialize (IH (k + 1) Hx Hp). unfold js_length in IH. lia.
Qed.

Lemma findIndex_from_none {A} (p : A -> bool) (xs : list A) (k : Z) :
  (forall x, x ∈ xs -> p x = false) -> findIndex_from p xs k = -1.
Proof.
  revert k. induction xs as [|y xs IH]; intros k H; [done|]. simpl.
  rewrite (H y) by left. apply IH. intros x Hx. apply H. by right.
Qed.

(** X17.  [updateImageInfo]: when the current image is in the image list,
    the position shown lies between 1 and the number of images of its
    folder; when no image of the list has its identifier, the position
    shown is 0. *)
Theorem X17_folder_position_bounds (R : Replica) (s : SessionState) (c : loc) :
  let currentPath := id (objs R !!! c) in
  (c ∈ images s ->
   1 <= fst (folderPosition R s c) <= snd (folderPosition R s c)) /\
  ((forall l, l ∈ images s -> id (objs R !!! l) <> currentPath) ->
   fst (folderPosition R s c) = 0).
Proof.
  intros currentPath. unfold folderPosition. fold currentPath. simpl. split.
  - intros Hc.
    assert (Hin : c ∈ imagesInFolder (objs R) (images s)
                        (parentFolder currentPath)).
    { unfold imagesInFolder. apply list_elem_of_In, List.filter_In.
      split; [by apply list_elem_of_In|]. unfold sameFolder.
      apply String.eqb_refl. }
    pose proof (findIndex_from_found
                  (fun l => String.eqb (id (objs R !!! l)) currentPath)
                  _ 0 c Hin (String.eqb_refl _)) as H.
    unfold findIndex. lia.
  - intros Hno. unfold findIndex. rewrite findIndex_from_none; [done|].
    intros x Hx. apply String.eqb_neq, Hno.
    unfold imagesInFolder in Hx.
    apply list_elem_of_In, List.filter_In in Hx as [Hx _].
    by apply list_elem_of_In.
Qed.

(** The second image of the sample session, in its folder. *)
Lemma X17_folder_position_bounds_witness :
  1 <= fst (folderPosition (sample_replica 1) (sample_session 1) 1%nat)
    <= snd (folderPosition (sample_replica 1) (sample_session 1) 1%nat).
Proof.
  apply (X17_folder_position_bounds (sample_replica 1) (sample_session 1) 1%nat).
  simpl. repeat constructor.
Defined.

Lemma count_progress_from (o : gmap loc ImageInfo) (imgs : list loc)
    (a b : Z) :
  let r := fold_left (count_image o) imgs (a, b) in
  snd r - b
    = js_length (List.filter (fun l => marked_for_deletion (o !!! l)) imgs) /\
  (fst r - a) + (snd r - b)
    + js_length (List.filter (fun l => unlabeled (o !!! l)) imgs)
    = js_length imgs /\
  a <= fst r.
Proof.
  revert a b. induction imgs as [|l imgs IH]; intros a b r; subst r.
  { unfold js_length. simpl. lia. }
  cbn [fold_left List.filter].
  assert (Hstep : count_image o (a, b) l =
            if marked_for_deletion (o !!! l) then (a, b + 1)
            else match label (o !!! l) with
                 | Some _ => (a + 1, b)
                 | None => (a, b)
                 end) by done.
  rewrite Hstep. unfold unlabeled at 1.
  destruct (marked_for_deletion (o !!! l)) eqn:Em.
  - destruct (IH a (b + 1)) as (H1 & H2 & H3).
    unfold js_length in *.
    destruct (label (o !!! l)); simpl negb; cbn [length]; lia.
  - destruct (label (o !!! l)) eqn:El.
    + destruct (IH (a + 1) b) as (H1 & H2 & H3).
      unfold js_length in *. cbn [length]. lia.
    + destruct (IH a b) as (H1 & H2 & H3).
      unfold js_length in *. simpl negb. cbn [length]. lia.
Qed.

(** X18.  [updateProgress]: the counter [processed/total] counts every
    image of the folder (of the whole list without a current image) once:
    [processed] plus the number of images with neither label nor deletion
    mark is [total]; so [0 <= processed <= total], with equality exactly
    when no such image is left. *)
Theorem X18_progress_counts (R : Replica) (s : SessionState) :
  let imgs :=
    match currentImage R with
    | Some c =>
        imagesInFolder (objs R) (images s) (parentFolder (id (objs R !!! c)))
    | None => images s
    end in
  let processed := fst (progress R s) in
  let total := snd (progress R s) in
  total = js_length imgs /\
  processed
    + js_length (List.filter (fun l => unlabeled (objs R !!! l)) imgs)
    = total /\
  0 <= processed <= total /\
  (processed = total <->
   forall l, l ∈ imgs -> unlabeled (objs R !!! l) = false).
Proof.
  intros imgs processed total. subst processed total.
  unfold progress. fold imgs. cbn [fst snd].
  destruct (count_progress_from (objs R) imgs 0 0) as (H1 & H2 & H3).
  fold (count_progress (objs R) imgs) in H1, H2, H3.
  assert (H0 : 0 <= js_length (List.filter
                      (fun l => unlabeled (objs R !!! l)) imgs))
    by (unfold js_length; lia).
  assert (Hd : 0 <= js_length (List.filter
                      (fun l => marked_for_deletion (objs R !!! l)) imgs))
    by (unfold js_length; lia).
  split; [done|]. split; [lia|]. split; [lia|]. split.
  - intros Heq l Hl.
    destruct (unlabeled (objs R !!! l)) eqn:E; [|done]. exfalso.
    assert (Hin : In l (List.filter (fun l => unlabeled (objs R !!! l)) imgs)).
    { apply List.filter_In. split; [by apply list_elem_of_In | done]. }
    unfold js_length in *.
    destruct (List.filter (fun l => unlabeled (objs R !!! l)) imgs);
      [done | simpl in *; lia].
  - intros Hall.
    assert (List.filter (fun l => unlabeled (objs R !!! l)) imgs = []) as Hnil.
    { clear -Hall. induction imgs as [|x xs IH]; [done|]. simpl.
      rewrite (Hall x) by left. apply IH. intros l Hl. apply Hall. by right. }
    rewrite Hnil in H2. unfold js_length in *. simpl in H2. lia.
Qed.

(** * Folder navigation *)

Lemma navigateToSubfolder_at (w : World) (idx : Z) (f : Subfolder) :
  js_index (subfolders (folders (app w))) idx = Some f ->
  navigateToSubfolder idx w = navigateToFolder (path f) w.
Proof. intros H. unfold navigateToSubfolder, get. by rewrite H. Qed.

(** X13.  [navigateToNextFolder] and [navigateToPrevFolder] go round the
    list of subfolders: from the [k]-th they ask for the one at
    [(k + 1) mod n] and [(k - 1) mod n]; when the current folder is not in
    the list they ask for the first and for the last; with no subfolders
    they do nothing.  The index they read is always inside the list. *)
Theorem X13_folder_cycle (w : World) :
  let sf := subfolders (folders (app w)) in
  let n := js_length sf in
  let cur := currentFolder (folders (app w)) in
  (sf = [] -> navigateToNextFolder w = Done w /\ navigateToPrevFolder w = Done w)
  /\
  (forall k f,
     js_index sf k = Some f -> path f = cur ->
     (forall j g, 0 <= j < k -> js_index sf j = Some g -> path g <> cur) ->
     exists fn fp,
       js_index sf ((k + 1) mod n) = Some fn /\
       js_index sf ((k - 1) mod n) = Some fp /\
       navigateToNextFolder w = navigateToFolder (path fn) w /\
       navigateToPrevFolder w = navigateToFolder (path fp) w)
  /\
  (sf <> [] -> (forall g, g ∈ sf -> path g <> cur) ->
   exists f0 fl,
     js_index sf 0 = Some f0 /\ js_index sf (n - 1) = Some fl /\
     navigateToNextFolder w = navigateToFolder (path f0) w /\
     navigateToPrevFolder w = navigateToFolder (path fl) w).
Proof.
  intros sf n cur. split; [|split].
  - intros H. unfold navigateToNextFolder, navigateToPrevFolder, get.
    fold sf. by rewrite H.
  - intros k f Hk Hf Hfirst.
    pose proof (js_index_range _ _ _ Hk) as Hr. fold n in Hr.
    destruct (js_index_lookup _ _ _ Hk) as [Hlk _].
    assert (Hidx : findIndex (samePath cur) sf = k).
    { unfold findIndex.
      rewrite (findIndex_from_first _ _ 0 (Z.to_nat k) f); [lia | done | |].
      - unfold samePath. rewrite Hf. apply String.eqb_refl.
      - intros j g Hj Hg. unfold samePath. apply String.eqb_neq.
        apply (Hfirst (Z.of_nat j)); [lia|]. by apply lookup_js_index. }
    destruct (js_index_Some sf ((k + 1) mod n)) as [fn Hn].
    { fold n. apply Z.mod_pos_bound. lia. }
    destruct (js_index_Some sf ((k - 1) mod n)) as [fp Hp].
    { fold n. apply Z.mod_pos_bound. lia. }
    exists fn, fp. split; [done|]. split; [done|]. split.
    + unfold navigateToNextFolder, get. fold sf n cur.
      replace (n =? 0) with false by lia. rewrite Hidx.
      apply navigateToSubfolder_at. fold sf.
      rewrite Z.rem_mod_nonneg by lia. done.
    + unfold navigateToPrevFolder, get. fold sf n cur.
      replace (n =? 0) with false by lia. rewrite Hidx.
      apply navigateToSubfolder_at. fold sf.
      destruct (k <=? 0) eqn:E.
      * assert (k = 0) as -> by lia. rewrite <- Hp. f_equal.
        change (0 - 1) with (-1). rewrite <- (Z.mod_add _ 1) by lia.
        rewrite Z.mod_small; lia.
      * rewrite <- Hp. f_equal. rewrite Z.mod_small; lia.
  - intros Hne Hno.
    assert (Hn : 0 < n).
    { unfold n, js_length. destruct sf; [done | simpl; lia]. }
    assert (Hidx : findIndex (samePath cur) sf = -1).
    { apply findIndex_from_none. intros g Hg. apply String.eqb_neq.
      by apply Hno. }
    destruct (js_index_Some sf 0) as [f0 H0]; [fold n; lia|].
    destruct (js_index_Some sf (n - 1)) as [fl Hl]; [fold n; lia|].
    exists f0, fl. split; [done|]. split; [done|]. split.
    + unfold navigateToNextFolder, get. fold sf n cur.
      replace (n =? 0) with false by lia. rewrite Hidx.
      apply navigateToSubfolder_at. fold sf.
      change (-1 + 1) with 0. by rewrite Z.rem_0_l by lia.
    + unfold navigateToPrevFolder, get. fold sf n cur.
      replace (n =? 0) with false by lia. rewrite Hidx.
      by apply navigateToSubfolder_at.
Qed.

(** Two subfolders, the first current: next and previous are the second. *)
Lemma X13_folder_cycle_witness :
  exists fn fp,
    navigateToNextFolder folders_world = navigateToFolder (path fn) folders_world /\
    navigateToPrevFolder folders_world = navigateToFolder (path fp) folders_world /\
    path fn = "b" /\ path fp = "b".
Proof.
  destruct (X13_folder_cycle folders_world) as (_ & H & _).
  destruct (H 0 {| path := "a"; name := "a"; image_count := 2 |})
    as (fn & fp & Hn & Hp & H1 & H2).
  - reflexivity.
  - reflexivity.
  - intros j g Hj. lia.
  - exists fn, fp. split; [exact H1|]. split; [exact H2|].
    injection Hn as <-. injection Hp as <-. split; reflexivity.
Defined.

Lemma findIndex_from_spec {A} (p : A -> bool) (xs : list A) (k : Z) :
  0 <= k ->
  (findIndex_from p xs k = -1 /\ forall x, x ∈ xs -> p x = false) \/
  (exists (i : nat) (x : A),
     findIndex_from p xs k = k + Z.of_nat i /\
     xs !! i = Some x /\ p x = true /\
     forall (j : nat) y, (j < i)%nat -> xs !! j = Some y -> p y = false).
Proof.
  revert k. induction xs as [|y xs IH]; intros k Hk.
  { left. split; [done|]. by intros x ?%elem_of_nil. }
  simpl. destruct (p y) eqn:Hy.
  - right. exists 0%nat, y. split; [lia|]. split; [done|]. split; [done|].
    intros j z Hj. lia.
  - destruct (IH (k + 1) ltac:(lia)) as [[Hn Hall] | (i & x & Hi & Hx & Hp & Hb)].
    + left. split; [done|]. intros x [->|Hx]%elem_of_cons; auto.
    + right. exists (S i), x. split; [lia|]. split; [done|]. split; [done|].
      intros [|j] z Hj Hz; simpl in Hz; [by injection Hz as <-|].
      apply (Hb j); [lia | done].
Qed.

Lemma sent_unchanged (w w' : World) (new : list (Effect * App)) :
  trace w' = trace w ++ new -> Forall no_send new -> sent w' = sent w.
Proof.
  intros Ht Hf. unfold sent. rewrite Ht, omap_app.
  assert (Hnil : omap (fun e : Effect * App =>
                         match fst e with EvSend m => Some m | _ => None end)
                   new = []).
  { clear Ht. induction Hf as [|[e a] new He _ IH]; [done|].
    destruct e as [m| | | | | | | |]; simpl; try exact IH. by destruct (He m). }
  by rewrite Hnil, app_nil_r.
Qed.

Ltac no_send_side :=
  idtac;
  lazymatch goal with
  | |- no_send _ => intros ? ?; discriminate
  | |- _ /\ _ => split; [intros ? ?; discriminate | exact I]
  | |- _ => exact I
  end.

Lemma navigateToFolder_finish_no_send folderPath :
  keeps (fun _ => True) no_send (navigateToFolder_finish folderPath).
Proof. intros w _. keeps_auto no_send_side. Qed.

(** X14.  The end of [navigateToFolder]: the cursor goes to the first image
    of the list whose identifier starts with [folderPath/] (any image,
    for the root), and stays where it is when there is none; in both
    cases the call returns and no message is sent to the server. *)
Theorem X14_navigateToFolder_finish_lands (w : World) (s : SessionState)
    (folderPath : string) :
  session (replica (app w)) = Some s ->
  js_length (images s) = 0 \/ valid_cursor s ->
  let o := objs (replica (app w)) in
  exists w',
    navigateToFolder_finish folderPath w = Done w' /\
    sent w' = sent w /\
    ((exists i,
        tested o (images s) (in_folder folderPath) i true /\
        (forall j, 0 <= j < i ->
           tested o (images s) (in_folder folderPath) j false) /\
        replica (app w') = navigated i s (replica (app w)))
     \/
     ((forall l, l ∈ images s -> in_folder folderPath (o !!! l) = false) /\
      replica (app w') = replica (app w))).
Proof.
  intros Hs Hv o.
  set (test := fun l : loc =>
         String.eqb folderPath ""
         || startsWith (if String.eqb folderPath "" then ""
                        else (folderPath ++ "/")%string) (id (o !!! l))).
  assert (Htest : forall l, test l = in_folder folderPath (o !!! l)).
  { intros l. unfold test, in_folder. by destruct (String.eqb folderPath ""). }
  set (R' := if findIndex test (images s) =? -1 then replica (app w)
             else navigated (findIndex test (images s)) s (replica (app w))).
  assert (Hcase :
    (R' = replica (app w) /\
     forall l, l ∈ images s -> in_folder folderPath (o !!! l) = false) \/
    (exists i,
       R' = navigated i s (replica (app w)) /\ 0 <= i < js_length (images s) /\
       tested o (images s) (in_folder folderPath) i true /\
       forall j, 0 <= j < i ->
         tested o (images s) (in_folder folderPath) j false)).
  { unfold R', findIndex.
    destruct (findIndex_from_spec test (images s) 0 ltac:(lia))
      as [[-> Hall] | (i & x & -> & Hx & Hp & Hb)].
    - left. split; [done|]. intros l Hl. rewrite <- Htest. by apply Hall.
    - right. exists (Z.of_nat i).
      assert (E : (0 + Z.of_nat i =? -1) = false) by (apply Z.eqb_neq; lia).
      rewrite E, Z.add_0_l. split; [done|].
      pose proof (lookup_lt_Some _ _ _ Hx). split; [unfold js_length; lia|].
      split.
      + exists x. split; [by apply lookup_js_index|]. by rewrite <- Htest.
      + intros j Hj. destruct (js_index_Some (images s) j) as [y Hy].
        { unfold js_length. lia. }
        exists y. split; [done|]. rewrite <- Htest.
        apply js_index_lookup in Hy as [Hy _]. apply (Hb (Z.to_nat j)); [lia|done]. }
  assert (Hrun : runs_at (frozen R' (conn (app w))) (at_replica R' (conn (app w)))
                   (navigateToFolder_finish folderPath) w).
  { unfold navigateToFolder_finish.
    eapply runs_at_with_session; [done|].
    apply runs_at_seq.
    - apply runs_at_modify. split; [|done]. simpl. unfold R'. fold o test.
      by destruct (findIndex test (images s) =? -1).
    - destruct Hcase as [[HR _] | (i & HR & Hi & _)]; rewrite HR.
      + apply runs_seq; [by eapply runs_updateUI|].
        eapply runs_prefetchImages; [done|].
        destruct Hv as [?|?]; [by left | by right].
      + apply runs_seq; [by eapply runs_updateUI|].
        eapply runs_prefetchImages; [done|]. right. simpl. lia. }
  destruct Hrun as (w' & Hc & [HR _] & new & Ht & _).
  destruct (navigateToFolder_finish_no_send folderPath w I)
    as (_ & new' & Ht' & Hf').
  rewrite Hc in Ht'. simpl in Ht'.
  exists w'. split; [done|]. split; [by eapply sent_unchanged|].
  rewrite HR.
  destruct Hcase as [[HR' Hall] | (i & HR' & Hi & Hti & Hb)].
  - right. by split.
  - left. by exists i.
Qed.

(** Into the folder [b] of the sample session. *)
Lemma X14_navigateToFolder_finish_lands_witness :
  exists w',
    navigateToFolder_finish "b" sample_world = Done w' /\
    sent w' = sent sample_world.
Proof.
  destruct (X14_navigateToFolder_finish_lands sample_world (sample_session 0) "b")
    as (w' & H1 & H2 & _).
  - reflexivity.
  - right. unfold valid_cursor, js_length. simpl. lia.
  - exists w'. split; [exact H1 | exact H2].
Defined.

(** * Frames of the server *)

Ltac answer_side :=
  idtac;
  lazymatch goal with
  | |- no_send _ => intros ? ?; discriminate
  | |- no_send _ /\ _ => split; [intros ? ?; discriminate | exact I]
  | |- _ /\ _ => split; exact I
  | |- _ => exact I
  end.

Lemma handleWebSocketMessage_answers (event : ServerMessage) :
  runs (fun _ => True) answer_allowed (handleWebSocketMessage event).
Proof.
  intros w _. unfold handleWebSocketMessage.
  apply runs_at_try_catch.
  - destruct event; keeps_auto answer_side.
  - intros e w' _. apply runs_at_emit; exact I.
Qed.

Lemma handleWebSocketMessage_silent (event : ServerMessage) :
  ~ is_undo event ->
  runs (fun _ => True) no_send (handleWebSocketMessage event).
Proof.
  intros Hu w _. unfold handleWebSocketMessage.
  apply runs_at_try_catch.
  - destruct event; try (by destruct Hu); keeps_auto answer_side.
  - intros e w' _. apply runs_at_emit; [intros ? ?; discriminate | exact I].
Qed.

(** X11.  [handleWebSocketMessage] returns for every frame and in every
    state: a failure inside a handler is logged, not raised.  The only
    message a frame can make the client send is a navigate message, and
    only [undo_completed] does so; a frame of unknown type, an [error]
    frame and text that is no JSON leave the application object as it
    is. *)
Theorem X11_frames_never_raise (event : ServerMessage) (w : World) :
  exists w' new,
    handleWebSocketMessage event w = Done w' /\
    trace w' = trace w ++ new /\
    Forall answer_allowed new /\
    (~ is_undo event -> sent w' = sent w) /\
    (stateless event -> app w' = app w).
Proof.
  destruct (handleWebSocketMessage_answers event w I)
    as (w' & Hc & _ & new & Ht & Hf).
  exists w', new. split; [done|]. split; [done|]. split; [done|]. split.
  - intros Hu.
    destruct (handleWebSocketMessage_silent event Hu w I)
      as (w2 & Hc2 & _ & new2 & Ht2 & Hf2).
    rewrite Hc in Hc2. injection Hc2 as <-. by eapply sent_unchanged.
  - intros Hs. destruct event; try (by destruct Hs).
    all: by injection Hc as <-.
Qed.

(** A frame that is no JSON. *)
Lemma X11_frames_never_raise_witness :
  exists w',
    handleWebSocketMessage SMalformed sample_world = Done w' /\
    sent w' = sent sample_world /\ app w' = app sample_world.
Proof.
  destruct (X11_frames_never_raise SMalformed sample_world)
    as (w' & new & H1 & _ & _ & H4 & H5).
  exists w'. split; [exact H1|]. split.
  - apply H4. simpl. intros H. exact H.
  - apply H5. simpl. exact I.
Defined.

(** * Loading the session *)

Lemma alloc_all_spec (imgs : list ImageInfo) (o : gmap loc ImageInfo) :
  let o' := fst (alloc_all imgs o) in
  let ls := snd (alloc_all imgs o) in
  length ls = length imgs /\
  NoDup ls /\
  (forall l, l ∈ ls -> l ∉ dom o) /\
  (forall i l, ls !! i = Some l -> o' !! l = imgs !! i) /\
  (forall l, l ∈ dom o -> o' !! l = o !! l) /\
  (forall l, l ∈ ls -> l ∈ dom o').
Proof.
  revert o. induction imgs as [|img imgs IH]; intros o.
  { simpl. repeat split; try done; try constructor.
    all: by intros ? ?%elem_of_nil. }
  simpl. set (l0 := fresh (dom o)).
  assert (Hl0 : l0 ∉ dom o) by apply is_fresh.
  specialize (IH (<[l0 := img]> o)).
  destruct (alloc_all imgs (<[l0 := img]> o)) as [o2 ls] eqn:E. simpl in *.
  destruct IH as (Hlen & Hnd & Hfresh & Hget & Hold & Hdom).
  assert (Hl0' : l0 ∉ ls).
  { intros Hin. apply (Hfresh _ Hin). rewrite dom_insert. set_solver. }
  assert (Hl0o : o2 !! l0 = Some img).
  { rewrite Hold; [apply lookup_insert_eq|]. rewrite dom_insert. set_solver. }
  split; [by rewrite Hlen|]. split; [by constructor|]. split; [|split; [|split]].
  - intros l [->|Hin]%elem_of_cons; [done|].
    intros Hd. apply (Hfresh _ Hin). rewrite dom_insert. set_solver.
  - intros [|i] l; simpl; [by intros [= <-] | apply Hget].
  - intros l Hl. rewrite Hold by (rewrite dom_insert; set_solver).
    apply lookup_insert_ne. intros ->. done.
  - intros l [->|Hin]%elem_of_cons; [|by apply Hdom].
    apply elem_of_dom. by exists img.
Qed.

(** X12.  The assignment of the reply in [loadSession]: the session is
    replaced by the reply; its images are objects of their own, so that
    no object of the previous session is changed or shared; with at least
    one image [currentImage] becomes [images[current_index]], and with an
    empty list [currentImage] is left as it was. *)
Theorem X12_loadSession_fresh_objects (data : SessionData) (w : World) :
  exists w' ls,
    loadSession_assign data w = Done w' /\
    trace w' = trace w /\
    session (replica (app w'))
      = Some {| classes := sd_classes data; images := ls;
                current_index := sd_current_index data |} /\
    length ls = length (sd_images data) /\
    NoDup ls /\
    (forall l, l ∈ ls -> l ∉ dom (objs (replica (app w)))) /\
    (forall i l, ls !! i = Some l ->
       objs (replica (app w')) !! l = sd_images data !! i) /\
    (forall l, l ∈ dom (objs (replica (app w))) ->
       objs (replica (app w')) !! l = objs (replica (app w)) !! l) /\
    currentImage (replica (app w'))
      = (if 0 <? js_length ls then js_index ls (sd_current_index data)
         else currentImage (replica (app w))).
Proof.
  pose proof (alloc_all_spec (sd_images data) (objs (replica (app w))))
    as (Hlen & Hnd & Hfresh & Hget & Hold & _).
  unfold loadSession_assign, modify. eexists. 
  exists (snd (alloc_all (sd_images data) (objs (replica (app w))))).
  split; [reflexivity|]. simpl.
  destruct (alloc_all (sd_images data) (objs (replica (app w)))) as [o ls].
  simpl in *.
  destruct (0 <? js_length ls); simpl; repeat split; done.
Qed.

(** * The cursor of the server *)

Lemma keeps_sync_updateUI_prefetch :
  keeps in_sync any_effect (updateUI ;; prefetchImages).
Proof. intros w Hw. keeps_auto sync_side. Qed.

Lemma keeps_at_after (J : World -> Prop) (E : Effect * App -> Prop)
    (c c' : Cmd) (w w1 : World) :
  c w = Done w1 -> trace w1 = trace w -> keeps_at J E c' w1 ->
  keeps_at J E (c ;; c') w.
Proof.
  intros Hc Ht H. unfold keeps_at, seq. rewrite Hc, <- Ht. exact H.
Qed.

Lemma keeps_at_ext (J : World -> Prop) (E : Effect * App -> Prop)
    (c c' : Cmd) (w : World) :
  c w = c' w -> keeps_at J E c' w -> keeps_at J E c w.
Proof. intros Hc H. unfold keeps_at. rewrite Hc. exact H. Qed.

Lemma handleStateUpdate_in_sync (w : World) (s : SessionState)
    (payload : StateUpdatePayload) (img : ImageInfo) (old : loc) :
  session (replica (app w)) = Some s ->
  su_current_image payload = Some img ->
  js_index (images s) (su_current_index payload) = Some old ->
  id (objs (replica (app w)) !!! old) = id img ->
  first_with_id (objs (replica (app w))) (images s) (id img)
    (su_current_index payload) ->
  keeps_at in_sync any_effect (handleStateUpdate payload) w.
Proof.
  intros Hs Himg Hold Hid Hfirst.
  destruct (js_index_lookup _ _ _ Hold) as [Hlk Hpos].
  assert (Hidx :
    findIndex (fun x => String.eqb (id (objs (replica (app w)) !!! x)) (id img))
      (images s) = su_current_index payload).
  { unfold findIndex.
    rewrite (findIndex_from_first _ _ 0 (Z.to_nat (su_current_index payload)) old);
      [lia | done | |].
    - rewrite Hid. apply String.eqb_refl.
    - intros j y Hj Hy. apply String.eqb_neq.
      apply (Hfirst (Z.of_nat j)); [lia|]. by apply lookup_js_index. }
  eapply keeps_at_ext.
  { unfold handleStateUpdate, with_session, get. cbv beta.
    rewrite Hs, Himg. reflexivity. }
  eapply keeps_at_after; [reflexivity | reflexivity |].
  eapply keeps_at_after; [reflexivity | reflexivity |].
  apply keeps_sync_updateUI_prefetch.
  intros s'. simpl. rewrite Hidx.
  replace (su_current_index payload =? -1) with false
    by (symmetry; apply Z.eqb_neq; lia).
  simpl. intros [= <-]. simpl.
  unfold js_index. replace (su_current_index payload <? 0) with false
    by (symmetry; apply Z.ltb_ge; lia).
  symmetry. apply list_lookup_insert_eq. by eapply lookup_lt_Some.
Qed.

Lemma loadSession_assign_in_sync (data : SessionData) (w : World) :
  sd_images data <> [] ->
  keeps_at in_sync any_effect (loadSession_assign data) w.
Proof.
  intros Hne. apply runs_keeps_at, runs_at_modify. intros s. simpl.
  pose proof (alloc_all_spec (sd_images data) (objs (replica (app w))))
    as (Hlen & _).
  destruct (alloc_all (sd_images data) (objs (replica (app w)))) as [o ls].
  simpl in *.
  replace (0 <? js_length ls) with true.
  - simpl. by intros [= <-].
  - symmetry. apply Z.ltb_lt. unfold js_length. rewrite Hlen.
    destruct (sd_images data); [done | simpl; lia].
Qed.

(** X19.  The two inputs that take the cursor from the server keep the
    current image under the cursor when the server's data is consistent:
    a [state_update] frame whose [current_image] has the identifier of the
    image at its [current_index] (and of no earlier image) leaves
    [currentImage] equal to [images[current_index]], in fact the very
    object that now sits in the list; and the reply to a request for the
    session does so whenever it carries at least one image. *)
Theorem X19_server_cursor_in_sync :
  (forall (w : World) (s : SessionState) (payload : StateUpdatePayload)
          (img : ImageInfo) (old : loc),
     session (replica (app w)) = Some s ->
     su_current_image payload = Some img ->
     js_index (images s) (su_current_index payload) = Some old ->
     id (objs (replica (app w)) !!! old) = id img ->
     first_with_id (objs (replica (app w))) (images s) (id img)
       (su_current_index payload) ->
     in_sync (step w (InWsMessage (SStateUpdate payload)))) /\
  (forall (w : World) (data : SessionData) (folderPath : string),
     in_sync w -> sd_images data <> [] ->
     in_sync (step w (InReloadSession (Ok data))) /\
     in_sync (step w (InNavigateFolderSession folderPath (Ok data)))).
Proof.
  split.
  - intros w s payload img old Hs Himg Hold Hid Hfirst.
    assert (H : keeps_at in_sync any_effect
                  (try_catch (react (InWsMessage (SStateUpdate payload)))
                     (fun e => emit (EvUncaughtError e))) w).
    { apply keeps_at_try_catch.
      - unfold react, handleWebSocketMessage. apply keeps_at_try_catch.
        + by apply (handleStateUpdate_in_sync w s payload img old).
        + intros e. keeps_auto sync_side.
      - intros e. keeps_auto sync_side. }
    apply H.
  - intros w data folderPath Hw Hne. split.
    + assert (H : keeps_at in_sync any_effect
                    (try_catch (react (InReloadSession (Ok data)))
                       (fun e => emit (EvUncaughtError e))) w).
      { apply keeps_at_try_catch; [|intros e; keeps_auto sync_side].
        unfold react. apply keeps_at_resume; [done | intros ? ?; exact Hw|].
        intros w1 _. apply keeps_at_seq; [by apply loadSession_assign_in_sync|].
        intros w2 Hw2. keeps_auto sync_side. }
      apply H.
    + assert (H : keeps_at in_sync any_effect
                    (try_catch
                       (react (InNavigateFolderSession folderPath (Ok data)))
                       (fun e => emit (EvUncaughtError e))) w).
      { apply keeps_at_try_catch; [|intros e; keeps_auto sync_side].
        unfold react. apply keeps_at_resume; [done | intros ? ?; exact Hw|].
        intros w1 _. apply keeps_at_seq; [by apply loadSession_assign_in_sync|].
        intros w2 Hw2. keeps_auto sync_side. }
      apply H.
Qed.

(** The server moves the cursor of the sample session to its second
    image. *)
Lemma X19_server_cursor_in_sync_witness :
  in_sync (step sample_world
             (InWsMessage (SStateUpdate
                {| su_current_index := 1;
                   su_current_image := Some (fresh_image "a/y.png") |}))).
Proof.
  destruct X19_server_cursor_in_sync as [H _].
  apply (H sample_world (sample_session 0) _ (fresh_image "a/y.png") 1%nat).
  - reflexivity.
  - reflexivity.
  - reflexivity.
  - reflexivity.
  - intros j l' Hj Hl'. simpl in Hj. assert (j = 0) as -> by lia.
    injection Hl' as <-. simpl. discriminate.
Defined.
